(** * Newphoria classification pipeline: ingestion, deduplication,
      classification, publication and the public feed views.

    A shallow embedding of [scripts/classify.mjs], of the read side of the
    frontend data layer and of the views of [sql/schema.sql].

    Conventions of the embedding.
    - A string is the sequence of its UTF-16 code units, and every code
      unit is below 256 (Basic Latin and Latin-1 Supplement): a character
      of [string] is one code unit, so lengths are the lengths JavaScript
      reports.  On these code units [toLowerCase] and the class [\s] are
      exactly those of the language.  Text with a code unit from 256 on
      (a typographic quote, a letter outside Latin-1) has no counterpart
      here: the development says nothing about it.
    - Timestamps are integers (milliseconds since the epoch), [null]
      timestamps are [None].
    - JavaScript numbers that the pipeline only ever builds from small
      integers are kept exact: counters are [nat] or [Z], ratios are [Q].
      A quotient [a / b] of two array lengths compares with the literal
      [0.6] as the rational does: IEEE division is correctly rounded and
      monotone, the literal is the double nearest to 3/5, and a ratio
      below 3/5 is below it by at least [1 / (5 b)], far more than a
      rounding error for any array that fits in memory.
    - The persistent store, the classification oracle and the clock are
      external collaborators: they are fields of [World].  Every store
      request is appended to a trace, and a fault plan says which requests
      answer with an error or reject; every chunk sent to the oracle is
      appended to [prompts].
    - Of the console only [console.error] is kept. *)

From Stdlib Require Import ZArith QArith Ascii Lia.
From stdpp Require Import base list strings gmap sorting.

Local Open Scope string_scope.
Local Open Scope list_scope.
Local Open Scope nat_scope.

(** ** JavaScript primitives used by the pipeline *)

Module Js.

(** The class [\s] below 256: TAB, LF, VT, FF, CR, SPACE and the
    no-break space U+00A0. *)
Definition is_space (c : ascii) : bool :=
  let n := N_of_ascii c in
  (n =? 32)%N || ((9 <=? n)%N && (n <=? 13)%N) || (n =? 160)%N.

(** The lower-case mapping below 256: [A]-[Z], and the capitals U+00C0 to
    U+00DE of Latin-1 but for the sign U+00D7, move up by 32; U+00DF and
    the rest stay. *)
Definition lower_char (c : ascii) : ascii :=
  let n := N_of_ascii c in
  if ((65 <=? n)%N && (n <=? 90)%N)
     || ((192 <=? n)%N && (n <=? 222)%N && negb (n =? 215)%N)
  then ascii_of_N (n + 32) else c.

(** [s.toLowerCase()] *)
Fixpoint toLowerCase (s : string) : string :=
  match s with
  | EmptyString => EmptyString
  | String c s' => String (lower_char c) (toLowerCase s')
  end.

(** [s.split(/\s+/)]: the pieces between maximal runs of whitespace.  A
    leading or trailing run yields an empty piece, and the empty string
    yields one empty piece.  [cur] is the piece being read, [in_gap]
    tells that the previous code unit was whitespace. *)
Fixpoint split_go (cur : string) (in_gap : bool) (s : string) : list string :=
  match s with
  | EmptyString => [cur]
  | String c s' =>
      if is_space c then
        if in_gap then split_go "" true s' else cur :: split_go "" true s'
      else split_go (cur +:+ String c "") false s'
  end.

Definition split_ws (s : string) : list string := split_go "" false s.

(** Truthiness of a string or [null]: [null], [undefined] and the empty
    string are falsy. *)
Definition truthy_str (v : option string) : bool :=
  match v with
  | Some s => negb (String.eqb s "")
  | None => false
  end.

(** A JavaScript number as far as the pipeline can produce one from a
    division of two array lengths. *)
Inductive number := NaN | Infinity | Fin (q : Q).

(** [a / b] for two array lengths. *)
Definition div (a b : nat) : number :=
  match b with
  | O => match a with O => NaN | S _ => Infinity end
  | S _ => Fin (Z.of_nat a # Pos.of_nat b)
  end.

(** [x >= t] for a finite threshold [t]; every comparison with [NaN] is
    false. *)
Definition ge (x : number) (t : Q) : bool :=
  match x with
  | NaN => false
  | Infinity => true
  | Fin q => Qle_bool t q
  end.

(** [Math.round (n / d)] for an integer [n] and a positive integer [d]:
    rounding half up is [floor (n / d + 1/2)]. *)
Definition round_div (n d : Z) : Z := ((2 * n + d) / (2 * d))%Z.

End Js.

(** ** Data model *)

(** [config] of the script; the literal values are [default_config]. *)
Record Config := {
  batch_size : nat;
  max_articles : nat;
  min_bloom_score : Z
}.

Definition default_config : Config :=
  {| batch_size := 10; max_articles := 200; min_bloom_score := 3 |}.

(** The common item shape produced by the source adapters. *)
Record RawItem := {
  title : option string;
  excerpt : option string;
  source_url : option string;
  image_url : option string;
  source_name : string;
  author : option string;
  published_at : option Z;
  raw_content : option string;
  api_source : string
}.

(** One object of the oracle's array, fields typed as the prompt asks for
    them; [None] is an absent (or [null]) field. *)
Record Classification := {
  c_bloom_score : option Z;
  c_category : option string;
  c_is_weird : option bool;
  c_summary : option string;
  c_tags : option (list string);
  c_confidence : option Q
}.

(** The value [JSON.parse] returned.  [ReplyArray l]: an array, whose
    element is [None] where it is [null] or not an object.  [ReplyNull]:
    the literal [null].  [ReplyOther]: any other value on which indexing
    yields [undefined] (a number, a boolean, an object that wraps the
    array under a key). *)
Inductive Reply :=
  | ReplyArray (l : list (option Classification))
  | ReplyNull
  | ReplyOther.

(** What the [try] block of [classifyBatch] gets before it maps over the
    chunk: an exception (the oracle call rejected, or [JSON.parse] threw)
    or the parsed value. *)
Inductive OracleOutcome :=
  | Raised (msg : string)
  | Parsed (r : Reply).

(** [raw_ai_response] *)
Inductive RawResponse :=
  | RawUndefined
  | RawElement (c : option Classification)
  | RawError (msg : string).

(** A raw item with the fields [classifyBatch] adds ([...article]). *)
Record ClassifiedItem := {
  article : RawItem;
  bloom_score : Z;
  category_name : string;
  is_weird : bool;
  ai_summary : option string;
  ai_tags : list string;
  ai_confidence : Q;
  raw_ai_response : RawResponse;
  classified_at : Z
}.

(** The check constraint on [articles.status]. *)
Inductive Status := draft | published | archived | rejected.

Global Instance Status_eq_dec : EqDecision Status.
Proof. solve_decision. Defined.

(** A row of the table [articles], columns the pipeline and the views
    read or write. *)
Record Row := {
  row_id : nat;
  row_title : string;
  row_excerpt : option string;
  row_source_url : string;
  row_image_url : option string;
  row_category_id : option nat;
  row_category_name : string;
  row_bloom_score : Z;
  row_is_weird : bool;
  row_source_id : option nat;
  row_source_name : string;
  row_author : option string;
  row_published_at : option Z;
  row_ai_summary : option string;
  row_ai_tags : list string;
  row_ai_confidence : Q;
  row_raw_ai_response : RawResponse;
  row_classified_at : option Z;
  row_status : Status;
  row_read_time_minutes : Z;
  row_is_featured : bool;
  row_is_trending : bool;
  row_view_count : Z
}.

(** The object [storeArticle] hands to [insert]. *)
Record ArticleRecord := {
  rec_title : option string;
  rec_excerpt : option string;
  rec_source_url : option string;
  rec_image_url : option string;
  rec_category_id : option nat;
  rec_category_name : string;
  rec_bloom_score : Z;
  rec_is_weird : bool;
  rec_source_id : option nat;
  rec_source_name : string;
  rec_author : option string;
  rec_published_at : option Z;
  rec_ai_summary : option string;
  rec_ai_tags : list string;
  rec_ai_confidence : Q;
  rec_raw_ai_response : RawResponse;
  rec_classified_at : Z;
  rec_status : Status;
  rec_read_time_minutes : Z
}.

(** A row of [ingestion_log]. *)
Record LogRow := {
  log_source : string;
  articles_fetched : nat;
  articles_classified : nat;
  articles_published : nat;
  articles_rejected : nat;
  articles_deduplicated : nat;
  log_errors : option (list string);
  duration_seconds : Z
}.

(** [stats] of [run]. *)
Record Stats := {
  fetched : nat;
  classified : nat;
  n_published : nat;
  n_rejected : nat;
  deduplicated : nat;
  errors : list string
}.

Definition empty_stats : Stats :=
  {| fetched := 0; classified := 0; n_published := 0; n_rejected := 0;
     deduplicated := 0; errors := [] |}.

(** ** The external collaborators *)

(** [error] of a store response. *)
Record DbError := { code : string; message : string }.

(** [{ data, error }] *)
Inductive DbResult (A : Type) :=
  | Data (a : A)
  | Err (e : DbError).
Arguments Data {A} a.
Arguments Err {A} e.

(** The requests the pipeline sends to the store, as the query builders
    of the script assemble them. *)
Inductive Request :=
  | SelectArticleByUrl (url : option string)
  | SelectRecentPublished (since : Z)
  | SelectSourceByName (name : string)
  | SelectCategoryBySlug (slug : string)
  | InsertArticle (r : ArticleRecord)
  | ClearFeatured
  | SelectTopPublished (since : Z)
  | MarkFeatured (ids : list nat)
  | InsertIngestionLog (row : LogRow).

(** What can go wrong with one request for reasons outside the data: the
    store answers with an error object, or the awaited promise rejects. *)
Inductive Fault :=
  | NoFault
  | ErrorResponse (e : DbError)
  | Rejects (msg : string).

Record World := {
  articles : list Row;
  sources : gmap string nat;
  categories : gmap string nat;
  ingestion_log : list LogRow;
  requests : list Request;
  faults : nat → Fault;
  oracle : list RawItem → OracleOutcome;
  prompts : list (list RawItem);
  now : Z;
  console_error : list string
}.

(** A world whose store serves every request. *)
Definition healthy (w : World) : Prop := ∀ k, faults w k = NoFault.

(** A world whose store serves the next [k] requests. *)
Definition serves (k : nat) (w : World) : Prop :=
  ∀ i, i < k → faults w (length (requests w) + i) = NoFault.

Definition with_articles (t : list Row) (w : World) : World :=
  {| articles := t; sources := sources w; categories := categories w;
     ingestion_log := ingestion_log w; requests := requests w;
     faults := faults w; oracle := oracle w; prompts := prompts w;
     now := now w;
     console_error := console_error w |}.

Definition with_ingestion_log (l : list LogRow) (w : World) : World :=
  {| articles := articles w; sources := sources w; categories := categories w;
     ingestion_log := l; requests := requests w;
     faults := faults w; oracle := oracle w; prompts := prompts w;
     now := now w;
     console_error := console_error w |}.

Definition with_requests (l : list Request) (w : World) : World :=
  {| articles := articles w; sources := sources w; categories := categories w;
     ingestion_log := ingestion_log w; requests := l;
     faults := faults w; oracle := oracle w; prompts := prompts w;
     now := now w;
     console_error := console_error w |}.

Definition with_now (t : Z) (w : World) : World :=
  {| articles := articles w; sources := sources w; categories := categories w;
     ingestion_log := ingestion_log w; requests := requests w;
     faults := faults w; oracle := oracle w; prompts := prompts w;
     now := t;
     console_error := console_error w |}.

Definition with_console_error (l : list string) (w : World) : World :=
  {| articles := articles w; sources := sources w; categories := categories w;
     ingestion_log := ingestion_log w; requests := requests w;
     faults := faults w; oracle := oracle w; prompts := prompts w;
     now := now w;
     console_error := l |}.

Definition with_prompts (l : list (list RawItem)) (w : World) : World :=
  {| articles := articles w; sources := sources w; categories := categories w;
     ingestion_log := ingestion_log w; requests := requests w;
     faults := faults w; oracle := oracle w; prompts := l;
     now := now w; console_error := console_error w |}.

(** ** A state and exception monad *)

(** How a computation ends: with a value, with an exception that carries
    [err.message], or not at all. *)
Inductive Outcome (A : Type) :=
  | Ok (a : A)
  | Thrown (msg : string)
  | Diverged.
Arguments Ok {A} a.
Arguments Thrown {A} msg.
Arguments Diverged {A}.

Definition M (S A : Type) : Type := S → Outcome A * S.

Global Instance M_ret {S} : MRet (M S) := λ A a s, (Ok a, s).

Global Instance M_bind {S} : MBind (M S) := λ A B k m s,
  match m s with
  | (Ok a, s') => k a s'
  | (Thrown e, s') => (Thrown e, s')
  | (Diverged, s') => (Diverged, s')
  end.

Definition throw {S A} (msg : string) : M S A := λ s, (Thrown msg, s).
Definition diverge {S A} : M S A := λ s, (Diverged, s).
Definition gets {S A} (f : S → A) : M S A := λ s, (Ok (f s), s).
Definition modify {S} (f : S → S) : M S unit := λ s, (Ok (), f s).

(** [try { body } catch (err) { handler err.message }] *)
Definition try_catch {S A} (body : M S A) (handler : string → M S A) : M S A :=
  λ s, match body s with
       | (Thrown e, s') => handler e s'
       | r => r
       end.

(** [console.error] *)
Definition console_error_log (line : string) : M World unit :=
  modify (λ w, with_console_error (console_error w ++ [line]) w).

(** [await new Promise(r => setTimeout(r, ms))] *)
Definition sleep (ms : Z) : M World unit :=
  modify (λ w, with_now (now w + ms)%Z w).

(** One awaited store request: it is recorded in the trace, then the fault
    plan is consulted for its position in the trace, and only a request
    without fault is executed on the tables. *)
Definition request {A} (r : Request) (exec : World → DbResult A * World)
  : M World (DbResult A) :=
  λ w, let w1 := with_requests (requests w ++ [r]) w in
       match faults w (length (requests w)) with
       | Rejects msg => (Thrown msg, w1)
       | ErrorResponse e => (Ok (Err e), w1)
       | NoFault => let '(res, w2) := exec w1 in (Ok res, w2)
       end.

(** ** The store: the queries of the script on the tables of the schema *)

Definition hours (n : Z) : Z := (n * 60 * 60 * 1000)%Z.

(** [.gte('published_at', since)]: a [null] timestamp never qualifies. *)
Definition published_since (since : Z) (r : Row) : bool :=
  match row_published_at r with
  | Some p => (since <=? p)%Z
  | None => false
  end.

Definition is_published (r : Row) : bool := bool_decide (row_status r = published).

(** [select('id').eq('source_url', url).limit(1)] *)
Definition select_article_by_url (url : option string) : M World (DbResult (list nat)) :=
  request (SelectArticleByUrl url) (λ w,
    (Data (take 1 (row_id <$>
       filter (λ r, Some (row_source_url r) = url) (articles w))), w)).

(** [select('id, title').gte('published_at', since).eq('status', 'published')] *)
Definition select_recent_published (since : Z) : M World (DbResult (list (nat * string))) :=
  request (SelectRecentPublished since) (λ w,
    (Data ((λ r, (row_id r, row_title r)) <$>
       filter (λ r, published_since since r && is_published r) (articles w)), w)).

(** [from('sources').select('id').eq('name', name).limit(1)] *)
Definition select_source_by_name (name : string) : M World (DbResult (list nat)) :=
  request (SelectSourceByName name) (λ w,
    (Data (option_list (sources w !! name)), w)).

(** [from('categories').select('id').eq('slug', slug).limit(1)] *)
Definition select_category_by_slug (slug : string) : M World (DbResult (list nat)) :=
  request (SelectCategoryBySlug slug) (λ w,
    (Data (option_list (categories w !! slug)), w)).

(** The primary key the store generates for a new row. *)
Definition fresh_id (t : list Row) : nat := S (max_list (row_id <$> t)).

Definition unique_violation : DbError :=
  {| code := "23505";
     message := "duplicate key value violates unique constraint" |}.

Definition not_null_violation : DbError :=
  {| code := "23502";
     message := "null value violates not-null constraint" |}.

Definition row_of_record (id : nat) (t u : string) (r : ArticleRecord) : Row :=
  {| row_id := id; row_title := t; row_excerpt := rec_excerpt r;
     row_source_url := u; row_image_url := rec_image_url r;
     row_category_id := rec_category_id r;
     row_category_name := rec_category_name r;
     row_bloom_score := rec_bloom_score r; row_is_weird := rec_is_weird r;
     row_source_id := rec_source_id r; row_source_name := rec_source_name r;
     row_author := rec_author r; row_published_at := rec_published_at r;
     row_ai_summary := rec_ai_summary r; row_ai_tags := rec_ai_tags r;
     row_ai_confidence := rec_ai_confidence r;
     row_raw_ai_response := rec_raw_ai_response r;
     row_classified_at := Some (rec_classified_at r);
     row_status := rec_status r;
     row_read_time_minutes := rec_read_time_minutes r;
     row_is_featured := false; row_is_trending := false;
     row_view_count := 0 |}.

(** [insert(record).select('id').single()] on [articles]: [title] and
    [source_url] are [not null], [source_url] is [unique], the other
    columns take their value or their default. *)
Definition insert_article (r : ArticleRecord) : M World (DbResult nat) :=
  request (InsertArticle r) (λ w,
    match rec_title r, rec_source_url r with
    | Some t, Some u =>
        if bool_decide (u ∈ row_source_url <$> articles w)
        then (Err unique_violation, w)
        else let id := fresh_id (articles w) in
             (Data id, with_articles (articles w ++ [row_of_record id t u r]) w)
    | _, _ => (Err not_null_violation, w)
    end).

Definition set_featured (b : bool) (r : Row) : Row :=
  {| row_id := row_id r; row_title := row_title r; row_excerpt := row_excerpt r;
     row_source_url := row_source_url r; row_image_url := row_image_url r;
     row_category_id := row_category_id r;
     row_category_name := row_category_name r;
     row_bloom_score := row_bloom_score r; row_is_weird := row_is_weird r;
     row_source_id := row_source_id r; row_source_name := row_source_name r;
     row_author := row_author r; row_published_at := row_published_at r;
     row_ai_summary := row_ai_summary r; row_ai_tags := row_ai_tags r;
     row_ai_confidence := row_ai_confidence r;
     row_raw_ai_response := row_raw_ai_response r;
     row_classified_at := row_classified_at r;
     row_status := row_status r;
     row_read_time_minutes := row_read_time_minutes r;
     row_is_featured := b; row_is_trending := row_is_trending r;
     row_view_count := row_view_count r |}.

(** [update({ is_featured: false }).eq('is_featured', true)] *)
Definition clear_featured : M World (DbResult unit) :=
  request ClearFeatured (λ w,
    (Data (), with_articles
       ((λ r, if row_is_featured r then set_featured false r else r)
          <$> articles w) w)).

(** [ORDER BY k DESC] on a nullable column: [null] sorts first. *)
Definition desc_nulls_first (a b : option Z) : Prop :=
  match a, b with
  | None, _ => True
  | Some _, None => False
  | Some x, Some y => (y ≤ x)%Z
  end.

Global Instance desc_nulls_first_dec a b : Decision (desc_nulls_first a b).
Proof. destruct a, b; simpl; apply _. Defined.

(** [.order('bloom_score', desc).order('published_at', desc)] *)
Definition featured_order (a b : Row) : Prop :=
  (row_bloom_score b < row_bloom_score a)%Z ∨
  (row_bloom_score a = row_bloom_score b ∧
   desc_nulls_first (row_published_at a) (row_published_at b)).

Global Instance featured_order_dec a b : Decision (featured_order a b).
Proof. unfold featured_order. apply _. Defined.

(** [select('id').eq('status', 'published').gte('published_at', since)
     .order(...).order(...).limit(3)] *)
Definition select_top_published (since : Z) : M World (DbResult (list nat)) :=
  request (SelectTopPublished since) (λ w,
    (Data (row_id <$> take 3 (merge_sort featured_order
       (filter (λ r, is_published r && published_since since r) (articles w)))), w)).

(** [update({ is_featured: true }).in('id', ids)] *)
Definition mark_featured (ids : list nat) : M World (DbResult unit) :=
  request (MarkFeatured ids) (λ w,
    (Data (), with_articles
       ((λ r, if bool_decide (row_id r ∈ ids) then set_featured true r else r)
          <$> articles w) w)).

(** [from('ingestion_log').insert(row)] *)
Definition insert_ingestion_log (row : LogRow) : M World (DbResult unit) :=
  request (InsertIngestionLog row) (λ w,
    (Data (), with_ingestion_log (ingestion_log w ++ [row]) w)).

(** ** STEP 2: NORMALIZE — [classifyBatch] *)

(** [classifications[i]?.f] *)
Definition field {A} (e : option (option Classification))
    (f : Classification → option A) : option A :=
  match e with
  | Some (Some c) => f c
  | _ => None
  end.

(** [v || d] at the types of the six fields: [0], the empty string,
    [false] and an absent field are falsy, an array never is. *)
Definition or_int (v : option Z) (d : Z) : Z :=
  match v with
  | Some n => if (n =? 0)%Z then d else n
  | None => d
  end.

Definition or_str (v : option string) (d : string) : string :=
  if Js.truthy_str v then default d v else d.

Definition or_bool (v : option bool) (d : bool) : bool :=
  match v with
  | Some true => true
  | _ => d
  end.

Definition or_opt_str (v d : option string) : option string :=
  if Js.truthy_str v then v else d.

Definition or_tags (v : option (list string)) (d : list string) : list string :=
  default d v.

Definition or_num (v : option Q) (d : Q) : Q :=
  match v with
  | Some q => if (Qnum q =? 0)%Z then d else q
  | None => d
  end.

(** [raw_ai_response: classifications[i]] *)
Definition raw_of (e : option (option Classification)) : RawResponse :=
  match e with
  | Some c => RawElement c
  | None => RawUndefined
  end.

(** The object the [try] branch builds for the article at position [i],
    [e] being [classifications[i]]. *)
Definition classified_of (t : Z) (e : option (option Classification))
    (a : RawItem) : ClassifiedItem :=
  {| article := a;
     bloom_score := or_int (field e c_bloom_score) 3;
     category_name := or_str (field e c_category) "progress";
     is_weird := or_bool (field e c_is_weird) false;
     ai_summary := or_opt_str (field e c_summary) (excerpt a);
     ai_tags := or_tags (field e c_tags) [];
     ai_confidence := or_num (field e c_confidence) (1 # 2);
     raw_ai_response := raw_of e;
     classified_at := t |}.

(** The object the [catch] branch builds. *)
Definition fallback_of (t : Z) (msg : string) (a : RawItem) : ClassifiedItem :=
  {| article := a;
     bloom_score := 3;
     category_name := "progress";
     is_weird := false;
     ai_summary := excerpt a;
     ai_tags := [];
     ai_confidence := 0;
     raw_ai_response := RawError msg;
     classified_at := t |}.

(** The [try] block: [inl msg] when it throws.  Indexing [null] throws as
    soon as the callback of [map] runs, that is for a non-empty chunk. *)
Definition classify_try (t : Z) (o : OracleOutcome) (chunk : list RawItem)
  : string + list ClassifiedItem :=
  match o with
  | Raised msg => inl msg
  | Parsed (ReplyArray l) => inr (imap (λ i a, classified_of t (l !! i) a) chunk)
  | Parsed ReplyNull =>
      match chunk with
      | [] => inr []
      | _ :: _ => inl "Cannot read properties of null (reading '0')"
      end
  | Parsed ReplyOther => inr (classified_of t None <$> chunk)
  end.

(** [await anthropic.messages.create(...)] followed by [JSON.parse]: the
    chunk is recorded as sent, the world answers. *)
Definition ask_oracle (chunk : list RawItem) : M World OracleOutcome :=
  modify (λ w, with_prompts (prompts w ++ [chunk]) w);;
  gets (λ w, oracle w chunk).

Definition classifyBatch (chunk : list RawItem) : M World (list ClassifiedItem) :=
  o ← ask_oracle chunk;
  t ← gets now;
  match classify_try t o chunk with
  | inr results => mret results
  | inl msg =>
      console_error_log ("Classification failed: " +:+ msg);;
      mret (fallback_of t msg <$> chunk)
  end.

(** ** STEP 3: CONNECT — deduplicate, store, organize *)

Definition isDuplicate (sourceUrl : option string) : M World bool :=
  res ← select_article_by_url sourceUrl;
  match res with
  | Data data => mret (bool_decide (0 < length data))
  | Err _ => mret false
  end.

(** [t.toLowerCase().split(/\s+/).filter(w => w.length > 3)] *)
Definition tokens (t : string) : list string :=
  filter (λ w, 3 < String.length w) (Js.split_ws (Js.toLowerCase t)).

(** [words.filter(w => existingWords.includes(w)).length] *)
Definition overlap (words existingWords : list string) : nat :=
  length (filter (λ w, w ∈ existingWords) words).

(** [overlap / Math.max(words.length, existingWords.length)] *)
Definition similarity (words existingWords : list string) : Js.number :=
  Js.div (overlap words existingWords)
         (Nat.max (length words) (length existingWords)).

(** The [for] loop of [findSimilar] over [data]. *)
Fixpoint first_similar (words : list string) (threshold : Q)
    (data : list (nat * string)) : option (nat * string) :=
  match data with
  | [] => None
  | existing :: rest =>
      if Js.ge (similarity words (tokens existing.2)) threshold
      then Some existing
      else first_similar words threshold rest
  end.

(** [title.toLowerCase()] throws on a [null] title, before any query. *)
Definition findSimilar (title : option string) (threshold : Q)
  : M World (option (nat * string)) :=
  match title with
  | None => throw "Cannot read properties of null (reading 'toLowerCase')"
  | Some t =>
      let words := tokens t in
      t0 ← gets now;
      res ← select_recent_published (t0 - hours 48);
      match res with
      | Err _ => mret None
      | Data data => mret (first_similar words threshold data)
      end
  end.

(** [threshold = 0.6] *)
Definition default_threshold : Q := 6 # 10.

Definition estimateReadTime (text : option string) : Z :=
  if Js.truthy_str text then
    let words := Z.of_nat (length (Js.split_ws (default "" text))) in
    Z.max 2 (Z.min 15 (Js.round_div words 200))
  else 3.

(** What [storeArticle] returns: [{ skipped: true }], [{ error }] or
    [{ id, published }]. *)
Inductive StoreResult :=
  | RSkipped
  | RError (msg : string)
  | RStored (id : nat) (is_pub : bool).

Definition status_of (cfg : Config) (score : Z) : Status :=
  if (min_bloom_score cfg <=? score)%Z then published else rejected.

(** [sourceData?.[0]?.id || null] *)
Definition first_id (res : DbResult (list nat)) : option nat :=
  match res with
  | Data l => head l
  | Err _ => None
  end.

Definition record_of (cfg : Config) (sourceData catData : DbResult (list nat))
    (a : ClassifiedItem) : ArticleRecord :=
  {| rec_title := title (article a);
     rec_excerpt := excerpt (article a);
     rec_source_url := source_url (article a);
     rec_image_url := image_url (article a);
     rec_category_id := first_id catData;
     rec_category_name := category_name a;
     rec_bloom_score := bloom_score a;
     rec_is_weird := is_weird a;
     rec_source_id := first_id sourceData;
     rec_source_name := source_name (article a);
     rec_author := author (article a);
     rec_published_at := published_at (article a);
     rec_ai_summary := ai_summary a;
     rec_ai_tags := ai_tags a;
     rec_ai_confidence := ai_confidence a;
     rec_raw_ai_response := raw_ai_response a;
     rec_classified_at := classified_at a;
     rec_status := status_of cfg (bloom_score a);
     rec_read_time_minutes := estimateReadTime (excerpt (article a)) |}.

Definition storeArticle (cfg : Config) (a : ClassifiedItem) : M World StoreResult :=
  sourceData ← select_source_by_name (source_name (article a));
  catData ← select_category_by_slug (category_name a);
  let record := record_of cfg sourceData catData a in
  res ← insert_article record;
  match res with
  | Err error =>
      if String.eqb (code error) "23505" then mret RSkipped
      else
        console_error_log ("Insert failed: " +:+ message error);;
        mret (RError (message error))
  | Data id => mret (RStored id (bool_decide (rec_status record = published)))
  end.

Definition updateFeatured : M World unit :=
  clear_featured;;
  t0 ← gets now;
  res ← select_top_published (t0 - hours 24);
  match res with
  | Data data =>
      if bool_decide (0 < length data) then mark_featured data;; mret ()
      else mret ()
  | Err _ => mret ()
  end.

(** ** MAIN PIPELINE *)

(** One entry of the array [Promise.allSettled] resolves to. *)
Inductive Settled :=
  | Fulfilled (value : list RawItem)
  | Rejected (reason : string).

(** The outcomes of the four adapters, in the order [run] awaits them. *)
Record Adapters := {
  newsapi : Settled;
  guardian : Settled;
  gnews : Settled;
  rss : Settled
}.

(** [x.status === 'fulfilled' ? x.value : []] *)
Definition value_or_empty (x : Settled) : list RawItem :=
  match x with
  | Fulfilled v => v
  | Rejected _ => []
  end.

(** [a.title && a.source_url] *)
Definition has_title_and_url (a : RawItem) : bool :=
  Js.truthy_str (title a) && Js.truthy_str (source_url a).

(** The filter with the [Set] [seen]: keeps an article whose [source_url]
    is not in [seen] yet, and adds it. *)
Fixpoint remove_url_duplicates (seen : gset (option string)) (l : list RawItem)
  : list RawItem :=
  match l with
  | [] => []
  | a :: rest =>
      if bool_decide (source_url a ∈ seen) then remove_url_duplicates seen rest
      else a :: remove_url_duplicates ({[ source_url a ]} ∪ seen) rest
  end.

(** [allArticles] as [run] has it when it sets [stats.fetched]. *)
Definition aggregate (cfg : Config) (src : Adapters) : list RawItem :=
  let allArticles : list RawItem :=
    (value_or_empty (newsapi src) ++ value_or_empty (guardian src) ++
     value_or_empty (gnews src) ++ value_or_empty (rss src))%list in
  let allArticles := filter (λ a, has_title_and_url a) allArticles in
  let allArticles := remove_url_duplicates ∅ allArticles in
  take (max_articles cfg) allArticles.

(** The state of one run: the world and the local object [stats]. *)
Record RunState := { world : World; stats : Stats }.

(** A function of the module runs inside [run]: it sees the world, not
    [stats]. *)
Definition lift {A} (m : M World A) : M RunState A :=
  λ s, let '(o, w') := m (world s) in (o, {| world := w'; stats := stats s |}).

Definition modify_stats (f : Stats → Stats) : M RunState unit :=
  modify (λ s, {| world := world s; stats := f (stats s) |}).

Definition set_fetched (n : nat) (st : Stats) : Stats :=
  {| fetched := n; classified := classified st; n_published := n_published st;
     n_rejected := n_rejected st; deduplicated := deduplicated st;
     errors := errors st |}.

Definition add_classified (n : nat) (st : Stats) : Stats :=
  {| fetched := fetched st; classified := classified st + n;
     n_published := n_published st; n_rejected := n_rejected st;
     deduplicated := deduplicated st; errors := errors st |}.

Definition incr_published (st : Stats) : Stats :=
  {| fetched := fetched st; classified := classified st;
     n_published := S (n_published st); n_rejected := n_rejected st;
     deduplicated := deduplicated st; errors := errors st |}.

Definition incr_rejected (st : Stats) : Stats :=
  {| fetched := fetched st; classified := classified st;
     n_published := n_published st; n_rejected := S (n_rejected st);
     deduplicated := deduplicated st; errors := errors st |}.

Definition incr_deduplicated (st : Stats) : Stats :=
  {| fetched := fetched st; classified := classified st;
     n_published := n_published st; n_rejected := n_rejected st;
     deduplicated := S (deduplicated st); errors := errors st |}.

Definition push_error (msg : string) (st : Stats) : Stats :=
  {| fetched := fetched st; classified := classified st;
     n_published := n_published st; n_rejected := n_rejected st;
     deduplicated := deduplicated st; errors := errors st ++ [msg] |}.

(** The loop "Check against existing articles": [newArticles] is the
    array built so far. *)
Fixpoint history_loop (allArticles newArticles : list RawItem)
  : M RunState (list RawItem) :=
  match allArticles with
  | [] => mret newArticles
  | a :: rest =>
      exists_ ← lift (isDuplicate (source_url a));
      if exists_ : bool then
        modify_stats incr_deduplicated;; history_loop rest newArticles
      else
        similar ← lift (findSimilar (title a) default_threshold);
        match similar with
        | Some _ =>
            modify_stats incr_deduplicated;; history_loop rest newArticles
        | None => history_loop rest (newArticles ++ [a])
        end
  end.

(** [for (let i = 0; i < newArticles.length; i += config.batch_size)],
    entered at index [i] with [classified] built so far.  The loop does not
    end when [batch_size] is [0]; [fuel] bounds the iterations, and
    [length newArticles] of it is enough for any other [batch_size]. *)
Fixpoint classify_loop (cfg : Config) (fuel : nat) (newArticles : list RawItem)
    (i : nat) (classified_ : list ClassifiedItem)
  : M RunState (list ClassifiedItem) :=
  if bool_decide (i < length newArticles) then
    match fuel with
    | O => diverge
    | S fuel' =>
        let batch := take (batch_size cfg) (drop i newArticles) in
        results ← lift (classifyBatch batch);
        modify_stats (add_classified (length results));;
        (if bool_decide (i + batch_size cfg < length newArticles)
         then lift (sleep 500) else mret ());;
        classify_loop cfg fuel' newArticles (i + batch_size cfg)
                      (classified_ ++ results)
    end
  else mret classified_.

(** The loop over [classified].  [result.error] is tested for truthiness,
    so an empty message falls through to [result.published], which is
    [undefined] on that object. *)
Fixpoint store_loop (cfg : Config) (classified_ : list ClassifiedItem)
  : M RunState unit :=
  match classified_ with
  | [] => mret ()
  | a :: rest =>
      result ← lift (storeArticle cfg a);
      modify_stats
        (match result with
         | RSkipped => incr_deduplicated
         | RError msg =>
             if Js.truthy_str (Some msg) then push_error msg else incr_rejected
         | RStored _ true => incr_published
         | RStored _ false => incr_rejected
         end);;
      store_loop cfg rest
  end.

(** How the [try] block ends when it does not throw: it runs to its end,
    or it executes [return]. *)
Inductive Completion := Completed | Returned.

Definition run_try (cfg : Config) (src : Adapters) : M RunState Completion :=
  let allArticles := aggregate cfg src in
  modify_stats (set_fetched (length allArticles));;
  newArticles ← history_loop allArticles [];
  if bool_decide (length newArticles = 0) then mret Returned
  else
    classified_ ← classify_loop cfg (length newArticles) newArticles 0 [];
    store_loop cfg classified_;;
    lift updateFeatured;;
    mret Completed.

Definition run_catch (msg : string) : M RunState Completion :=
  lift (console_error_log ("Pipeline error: " +:+ msg));;
  modify_stats (push_error msg);;
  mret Completed.

Definition log_row_of (st : Stats) (duration : Z) : LogRow :=
  {| log_source := "all";
     articles_fetched := fetched st;
     articles_classified := classified st;
     articles_published := n_published st;
     articles_rejected := n_rejected st;
     articles_deduplicated := deduplicated st;
     log_errors := if bool_decide (0 < length (errors st))
                   then Some (errors st) else None;
     duration_seconds := duration |}.

(** The body of [run] on its local [stats]. *)
Definition run_main (cfg : Config) (src : Adapters) : M RunState unit :=
  startTime ← gets (λ s, now (world s));
  c ← try_catch (run_try cfg src) run_catch;
  match c with
  | Returned => mret ()
  | Completed =>
      endTime ← gets (λ s, now (world s));
      let duration := Js.round_div (endTime - startTime) 1000 in
      st ← gets stats;
      lift (insert_ingestion_log (log_row_of st duration));;
      mret ()
  end.

(** [run()]: the outcome, the world it leaves and the last value of
    [stats]. *)
Definition run (cfg : Config) (src : Adapters) (w : World)
  : Outcome unit * RunState :=
  run_main cfg src {| world := w; stats := empty_stats |}.

(** [run().catch(console.error)] *)
Definition main (cfg : Config) (src : Adapters) (w : World) : World :=
  match run cfg src w with
  | (Thrown msg, s) => with_console_error (console_error (world s) ++ [msg]) (world s)
  | (_, s) => world s
  end.

(** ** The views of the schema and the reads of the frontend *)

(** The columns of [feed_articles]. *)
Record FeedRow := {
  feed_id : nat;
  feed_title : string;
  feed_excerpt : option string;
  feed_source_url : string;
  feed_image_url : option string;
  feed_category_name : string;
  feed_bloom_score : Z;
  feed_is_weird : bool;
  feed_is_featured : bool;
  feed_is_trending : bool;
  feed_source_name : string;
  feed_published_at : option Z;
  feed_read_time_minutes : Z;
  feed_view_count : Z;
  feed_ai_tags : list string;
  feed_ai_summary : option string
}.

Definition feed_row_of (a : Row) : FeedRow :=
  {| feed_id := row_id a; feed_title := row_title a;
     feed_excerpt := row_excerpt a; feed_source_url := row_source_url a;
     feed_image_url := row_image_url a;
     feed_category_name := row_category_name a;
     feed_bloom_score := row_bloom_score a; feed_is_weird := row_is_weird a;
     feed_is_featured := row_is_featured a;
     feed_is_trending := row_is_trending a;
     feed_source_name := row_source_name a;
     feed_published_at := row_published_at a;
     feed_read_time_minutes := row_read_time_minutes a;
     feed_view_count := row_view_count a;
     feed_ai_tags := row_ai_tags a; feed_ai_summary := row_ai_summary a |}.

(** [order by published_at desc] *)
Definition newest_first (a b : FeedRow) : Prop :=
  desc_nulls_first (feed_published_at a) (feed_published_at b).

Global Instance newest_first_dec a b : Decision (newest_first a b).
Proof. unfold newest_first. apply _. Defined.

(** [order by view_count desc] *)
Definition most_viewed_first (a b : FeedRow) : Prop :=
  (feed_view_count b ≤ feed_view_count a)%Z.

Global Instance most_viewed_first_dec a b : Decision (most_viewed_first a b).
Proof. unfold most_viewed_first. apply _. Defined.

(** [where a.status = 'published' and a.bloom_score >= 3] *)
Definition in_feed (a : Row) : bool :=
  bool_decide (row_status a = published) && (3 <=? row_bloom_score a)%Z.

Definition feed_articles (t : list Row) : list FeedRow :=
  merge_sort newest_first (feed_row_of <$> filter (λ a, in_feed a) t).

Definition weird_articles (t : list Row) : list FeedRow :=
  filter (λ a, feed_is_weird a = true) (feed_articles t).

Definition featured_articles (t : list Row) : list FeedRow :=
  take 3 (merge_sort newest_first
            (filter (λ a, feed_is_featured a = true) (feed_articles t))).

(** [fetchArticles({ category, limit, offset, weird })]: the request on
    [weird_articles] carries no category filter. *)
Definition fetchArticles (category : option string) (limit offset : nat)
    (weird : bool) (t : list Row) : list FeedRow :=
  let rows :=
    if weird then weird_articles t
    else match category with
         | Some c =>
             if Js.truthy_str category && negb (String.eqb c "all")
             then filter (λ a, feed_category_name a = c) (feed_articles t)
             else feed_articles t
         | None => feed_articles t
         end in
  take limit (drop offset (merge_sort newest_first rows)).

Definition fetchFeatured (t : list Row) : list FeedRow :=
  take 3 (featured_articles t).

Definition fetchTrending (t : list Row) : list FeedRow :=
  take 7 (merge_sort most_viewed_first (feed_articles t)).

(** ** Notions used to state the properties *)

(** The set of the tokens [findSimilar] compares. *)
Definition token_set (t : string) : gset string := list_to_set (tokens t).

(** Tokens as the specification words them, "lower-case,
    whitespace-split, discard tokens of length <= 3", written without the
    functions of the code. *)

(** Whitespace, by code unit. *)
Definition spec_blank (c : ascii) : bool :=
  bool_decide (N_of_ascii c ∈ [9; 10; 11; 12; 13; 32; 160]%N).

(** The capital letters, by code unit, each with its small letter: [A] to
    [Z] and the Latin-1 capitals on both sides of the multiplication
    sign. *)
Definition spec_capitals : list (N * N) :=
  (λ n, (N.of_nat n, N.of_nat (n + 32)))
    <$> (seq 65 26 ++ seq 192 23 ++ seq 216 7).

Definition spec_lower_char (c : ascii) : ascii :=
  match list_find (λ p, p.1 = N_of_ascii c) spec_capitals with
  | Some (_, (_, small)) => ascii_of_N small
  | None => c
  end.

Definition spec_lower (s : string) : string :=
  String.string_of_list_ascii
    (spec_lower_char <$> String.list_ascii_of_string s).

(** The pieces of [s] between its whitespace code units, built from the
    end; the head of the result is the piece [s] starts with.  Two
    adjacent whitespace code units have an empty piece between them. *)
Fixpoint spec_pieces (s : string) : list string :=
  match s with
  | EmptyString => [""]
  | String c s' =>
      if spec_blank c then "" :: spec_pieces s'
      else match spec_pieces s' with
           | piece :: rest => String c piece :: rest
           | [] => [String c ""]
           end
  end.

Definition spec_tokens (t : string) : list string :=
  filter (λ piece, ¬ String.length piece ≤ 3) (spec_pieces (spec_lower t)).

Definition spec_token_set (t : string) : gset string :=
  list_to_set (spec_tokens t).

(** "similarity = |intersection of token sets| / max(|candidate tokens|,
    |existing tokens|)", the tokens of a title being its token set;
    undefined when neither title has a token. *)
Definition spec_similarity (candidate existing : string) : option Q :=
  match Nat.max (size (spec_token_set candidate))
                (size (spec_token_set existing)) with
  | O => None
  | S _ as d =>
      Some (Z.of_nat (size (spec_token_set candidate ∩ spec_token_set existing))
            # Pos.of_nat d)
  end.

(** The same ratio with the tokens of each title counted as often as the
    title has them: a title that repeats a token counts it again. *)
Definition similarity_over_counts (candidate existing : string) : option Q :=
  match Nat.max (length (spec_tokens candidate))
                (length (spec_tokens existing)) with
  | O => None
  | S _ as d =>
      Some (Z.of_nat (size (spec_token_set candidate ∩ spec_token_set existing))
            # Pos.of_nat d)
  end.

(** Some stored record has the source URL of [a]. *)
Definition exact_match (w : World) (a : RawItem) : bool :=
  bool_decide (Exists (λ r, Some (row_source_url r) = source_url a) (articles w)).

(** The records [findSimilar] compares with: status [published],
    published in the last 48 hours. *)
Definition recent_published (w : World) : list Row :=
  filter (λ r, published_since (now w - hours 48) r && is_published r)
         (articles w).

(** Some recent published record has a title similar to the one of [a]. *)
Definition fuzzy_match (w : World) (a : RawItem) : bool :=
  match title a with
  | Some t =>
      bool_decide (Exists (λ r,
        Js.ge (similarity (tokens t) (tokens (row_title r))) default_threshold)
        (recent_published w))
  | None => false
  end.

Definition known (w : World) (a : RawItem) : bool :=
  exact_match w a || fuzzy_match w a.

(** The store requests of the history check of one candidate. *)
Definition history_checks (w : World) (a : RawItem) : list Request :=
  if exact_match w a then [SelectArticleByUrl (source_url a)]
  else [SelectArticleByUrl (source_url a);
        SelectRecentPublished (now w - hours 48)].

Definition add_deduplicated (n : nat) (st : Stats) : Stats :=
  {| fetched := fetched st; classified := classified st;
     n_published := n_published st; n_rejected := n_rejected st;
     deduplicated := deduplicated st + n; errors := errors st |}.

(** First-seen-wins as the specification words it: an item stays, and
    every later item with its source URL goes. *)
Fixpoint first_occurrences (l : list RawItem) : list RawItem :=
  match l with
  | [] => []
  | a :: rest =>
      a :: filter (λ b, source_url b ≠ source_url a) (first_occurrences rest)
  end.

(** The concatenated adapter outputs. *)
Definition adapter_outputs (src : Adapters) : list RawItem :=
  value_or_empty (newsapi src) ++ value_or_empty (guardian src) ++
  value_or_empty (gnews src) ++ value_or_empty (rss src).

(** The documented fallback defaults of a chunk item. *)
Definition has_fallback_defaults (c : ClassifiedItem) : Prop :=
  bloom_score c = 3%Z ∧ category_name c = "progress" ∧ is_weird c = false ∧
  ai_summary c = excerpt (article c) ∧ ai_tags c = [] ∧ ai_confidence c = 0%Q.

(** The defaults an item gets field by field in the [try] branch when
    its position holds no object. *)
Definition has_item_defaults (c : ClassifiedItem) : Prop :=
  bloom_score c = 3%Z ∧ category_name c = "progress" ∧ is_weird c = false ∧
  ai_summary c = excerpt (article c) ∧ ai_tags c = [] ∧
  ai_confidence c = (1 # 2)%Q.

(** [c] carries the fields of the object [o], a field giving way to its
    default only where it is absent or falsy. *)
Definition carries (o : Classification) (c : ClassifiedItem) : Prop :=
  bloom_score c = or_int (c_bloom_score o) 3 ∧
  category_name c = or_str (c_category o) "progress" ∧
  is_weird c = or_bool (c_is_weird o) false ∧
  ai_summary c = or_opt_str (c_summary o) (excerpt (article c)) ∧
  ai_tags c = or_tags (c_tags o) [] ∧
  ai_confidence c = or_num (c_confidence o) (1 # 2) ∧
  raw_ai_response c = RawElement (Some o).

(** What the item at a position of the array gets from the element at
    that position. *)
Definition follows (e : option Classification) (c : ClassifiedItem) : Prop :=
  match e with
  | Some o => carries o c
  | None => has_item_defaults c
  end.

(** The records eligible for the featured set at time [t]: status
    [published], published in the last 24 hours. *)
Definition featured_candidates (t : Z) (rows : list Row) : list Row :=
  filter (λ r, is_published r && published_since (t - hours 24) r) rows.

(** ** A run used as an example: three adapters answer, one of them with
    a failure, the fourth has no key and yields nothing *)

Module Scenario.

Definition item (t u src : string) (p : Z) : RawItem :=
  {| title := Some t; excerpt := Some ("About " +:+ t);
     source_url := Some u; image_url := None; source_name := src;
     author := None; published_at := Some p; raw_content := None;
     api_source := src |}.

Definition t0 : Z := 1700000000000.

(** Twenty tokens, thirteen of which the stored title has. *)
Definition long_title : string :=
  "tok01 tok02 tok03 tok04 tok05 tok06 tok07 tok08 tok09 tok10 tok11 tok12 tok13 tok14 tok15 tok16 tok17 tok18 tok19 tok20".

Definition stored_title : string :=
  "tok01 tok02 tok03 tok04 tok05 tok06 tok07 tok08 tok09 tok10 tok11 tok12 tok13".

Definition newsapi_items : list RawItem :=
  [ item "Solar farm opens" "https://n/1" "Reuters" (t0 - 1000);
    item long_title "https://n/2" "BBC" (t0 - 2000);
    item "Coral reef recovers quickly" "https://n/3" "BBC" (t0 - 3000);
    item "Village library reopens" "https://n/4" "AP News" (t0 - 4000);
    item "Telescope spots comet" "https://n/5" "NASA" (t0 - 5000) ].

Definition rss_items : list RawItem :=
  [ item "Village library reopens" "https://n/4" "Positive News" (t0 - 4000);
    item "Telescope spots comet" "https://n/5" "Space.com" (t0 - 5000);
    item "Volunteers plant forest" "https://r/6" "Positive News" (t0 - 6000);
    item "Vaccine trial succeeds" "https://r/7" "Science Daily" (t0 - 7000);
    item "Market panic spreads" "https://r/8" "Wired" (t0 - 8000);
    item "Storm fears mount" "https://r/9" "Wired" (t0 - 9000);
    item "School robotics club wins" "https://r/10" "Positive News" (t0 - 10000) ].

Definition adapters : Adapters :=
  {| newsapi := Fulfilled newsapi_items;
     guardian := Rejected "simulated failure";
     gnews := Fulfilled [];
     rss := Fulfilled rss_items |}.

Definition stored (id : nat) (t u : string) (p : Z) : Row :=
  {| row_id := id; row_title := t; row_excerpt := None; row_source_url := u;
     row_image_url := None; row_category_id := None;
     row_category_name := "progress"; row_bloom_score := 4;
     row_is_weird := false; row_source_id := None;
     row_source_name := "Reuters"; row_author := None;
     row_published_at := Some p; row_ai_summary := None; row_ai_tags := [];
     row_ai_confidence := 1; row_raw_ai_response := RawUndefined;
     row_classified_at := None; row_status := published;
     row_read_time_minutes := 3; row_is_featured := true;
     row_is_trending := false; row_view_count := 0 |}.

Definition scored (n : Z) : option Classification :=
  Some {| c_bloom_score := Some n; c_category := Some "science";
          c_is_weird := Some false; c_summary := Some "summary";
          c_tags := Some ["news"]; c_confidence := Some (9 # 10) |}.

(** History: one record with the URL of the first item, one recent record
    whose title shares 13 of the 20 tokens of the second. *)
Definition history : list Row :=
  [ stored 1 "Solar farm opens today" "https://n/1" (t0 - hours 100);
    stored 2 stored_title "https://old/2" (t0 - hours 3) ].

Definition world_with (o : list RawItem → OracleOutcome) : World :=
  {| articles := history;
     sources := {[ "BBC" := 3 ]};
     categories := {[ "science" := 2 ]};
     ingestion_log := []; requests := [];
     faults := λ _, NoFault;
     oracle := o;
     prompts := []; now := t0; console_error := [] |}.

(** The classifier returns the scores [5,4,3,2,1,5,4,3]. *)
Definition world : World :=
  world_with (λ _, Parsed (ReplyArray (scored <$> [5; 4; 3; 2; 1; 5; 4; 3]%Z))).


(** The oracle answers a chunk of two with one object. *)
Definition short_reply : OracleOutcome :=
  Parsed (ReplyArray [scored 5]).

Definition two_items : list RawItem :=
  [ item "Coral reef recovers quickly" "https://n/3" "BBC" (t0 - 3000);
    item "Village library reopens" "https://n/4" "AP News" (t0 - 4000) ].

(** Every fetched article is already stored. *)
Definition adapters_known : Adapters :=
  {| newsapi := Fulfilled [item "Solar farm opens" "https://n/1" "Reuters" (t0 - 1000)];
     guardian := Fulfilled []; gnews := Fulfilled []; rss := Fulfilled [] |}.

(** The store rejects the first request of the run and serves the
    others. *)
Definition world_store_down : World :=
  {| articles := history;
     sources := {[ "BBC" := 3 ]};
     categories := {[ "science" := 2 ]};
     ingestion_log := []; requests := [];
     faults := λ k, match k with
                    | O => Rejects "fetch failed"
                    | S _ => NoFault
                    end;
     oracle := λ _, Parsed (ReplyArray (scored <$> [5; 4; 3; 2; 1; 5; 4; 3]%Z));
     prompts := []; now := t0; console_error := [] |}.

(** A configuration whose loop over the chunks never advances. *)
Definition config_no_batch : Config :=
  {| batch_size := 0; max_articles := 200; min_bloom_score := 3 |}.

(** A classified item with a new source URL and the score 2. *)
Definition low_item : ClassifiedItem :=
  classified_of t0 (Some (scored 2))
    (item "Market panic spreads" "https://r/8" "Wired" (t0 - 8000)).

End Scenario.

(** How the world may differ after the phases of a run that follow the
    history check, [new] being the articles that passed it: the fault plan,
    the oracle and the audit log are the same, the chunks sent to the
    oracle since are made of articles of [new], and the console only
    grows. *)
Definition evolves (new : list RawItem) (w w' : World) : Prop :=
  faults w' = faults w ∧ oracle w' = oracle w ∧
  ingestion_log w' = ingestion_log w ∧
  (∃ sent, prompts w' = prompts w ++ sent ∧
           Forall (λ chunk, ∀ a, a ∈ chunk → a ∈ new) sent) ∧
  length (console_error w) ≤ length (console_error w').

(** A computation returns from state [s] with a value and a state that
    satisfy [Q]. *)
Definition runs {S A} (m : M S A) (s : S) (Q : A → S → Prop) : Prop :=
  ∃ a s', m s = (Ok a, s') ∧ Q a s'.


(** ** STEP 1: INTERPRET — the source adapters *)

(** [extractImageFromContent] matches a pattern of five parts: [<img],
    one or more code units other than [>], [src=], a quote, a captured
    run of one or more code units other than a quote, and a quote; a
    quote is the double or the single one.  The engine backtracks. *)

(** A double quote (34) or a single quote (39). *)
Definition is_quote (c : ascii) : bool :=
  let n := N_of_ascii c in (n =? 34)%N || (n =? 39)%N.

(** The character [>]. *)
Definition is_gt (c : ascii) : bool := (N_of_ascii c =? 62)%N.

(** The longest prefix of [s] whose code units satisfy [P], and the
    rest. *)
Fixpoint span (P : ascii → bool) (s : string) : string * string :=
  match s with
  | EmptyString => ("", "")
  | String c s' =>
      if P c then let '(a, b) := span P s' in (String c a, b) else ("", s)
  end.

(** The last four parts at the start of [s]: the capture.  The greedy
    run stops at the first quote or at the end; giving back code units
    cannot help, since none of them is a quote. *)
Definition match_src (s : string) : option string :=
  match s with
  | String "s" (String "r" (String "c" (String "=" (String q rest)))) =>
      if is_quote q then
        match span (λ c, negb (is_quote c)) rest with
        | (String c g, String _ _) => Some (String c g)
        | _ => None
        end
      else None
  | _ => None
  end.

(** The run of code units other than [>] and what follows it, at the
    start of [s]: the engine consumes a code unit other than [>] while it
    can, and tries the rest of the pattern at the longest run first, then
    at the shorter ones.  [taken] tells that the run has a code unit
    already. *)
Fixpoint match_attrs (taken : bool) (s : string) : option string :=
  let here := if taken then match_src s else None in
  match s with
  | EmptyString => here
  | String c s' =>
      if is_gt c then here
      else match match_attrs true s' with
           | Some g => Some g
           | None => here
           end
  end.

(** The whole pattern at the start of [s]. *)
Definition match_img (s : string) : option string :=
  match s with
  | String "<" (String "i" (String "m" (String "g" rest))) =>
      match_attrs false rest
  | _ => None
  end.

(** [html.match(re)]: the match at the leftmost position that has one. *)
Fixpoint search_img (s : string) : option string :=
  match match_img s with
  | Some g => Some g
  | None =>
      match s with
      | EmptyString => None
      | String _ s' => search_img s'
      end
  end.

Definition extractImageFromContent (html : option string) : option string :=
  if Js.truthy_str html then search_img (default "" html) else None.

(** The objects of the three APIs and of the feed parser, with the
    fields the adapters read; [None] is an absent or [null] field, and a
    timestamp is the instant it denotes. *)
Record NewsApiArticle := {
  na_title : option string;
  na_description : option string;
  na_url : option string;
  na_urlToImage : option string;
  na_source_name : option string;  (* [a.source?.name] *)
  na_author : option string;
  na_publishedAt : option Z;
  na_content : option string
}.

Record GuardianResult := {
  g_webTitle : option string;
  g_trailText : option string;     (* [a.fields?.trailText] *)
  g_webUrl : option string;
  g_thumbnail : option string;     (* [a.fields?.thumbnail] *)
  g_byline : option string;        (* [a.fields?.byline] *)
  g_webPublicationDate : option Z
}.

Record GNewsArticle := {
  gn_title : option string;
  gn_description : option string;
  gn_url : option string;
  gn_image : option string;
  gn_source_name : option string;  (* [a.source?.name] *)
  gn_publishedAt : option Z;
  gn_content : option string
}.

Record RssItem := {
  rss_title : option string;
  rss_contentSnippet : option string;
  rss_content : option string;
  rss_link : option string;
  rss_enclosure_url : option string;  (* [item.enclosure?.url] *)
  rss_creator : option string;
  rss_author : option string;
  rss_isoDate : option Z;
  rss_pubDate : option Z
}.

(** What the awaited part of one iteration yields: an exception ([fetch],
    [res.json()] or [parseURL] rejects, or the body is [null]), or the
    array the adapter looks at ([data.articles], [data.response?.results],
    [parsed.items]): [None] when it is absent, an element [None] where
    the array holds [null]. *)
Inductive Response (A : Type) :=
  | NetFails (msg : string)
  | Body (array : option (list (option A))).
Arguments NetFails {A} msg.
Arguments Body {A} array.

(** The requests the adapters send. *)
Inductive NetRequest :=
  | GetNewsApi (q key : string)
  | GetGuardian (section key : string)
  | GetGNews (topic key : string)
  | ParseRss (url : string).

(** The network as the adapters see it: what each request is answered,
    the requests sent so far, [console.error] and the clock. *)
Record Net := {
  newsapi_response : string → Response NewsApiArticle;
  guardian_response : string → Response GuardianResult;
  gnews_response : string → Response GNewsArticle;
  rss_response : string → Response RssItem;
  net_sent : list NetRequest;
  net_console : list string;
  net_now : Z
}.

Definition with_net_sent (l : list NetRequest) (n : Net) : Net :=
  {| newsapi_response := newsapi_response n;
     guardian_response := guardian_response n;
     gnews_response := gnews_response n; rss_response := rss_response n;
     net_sent := l; net_console := net_console n; net_now := net_now n |}.

Definition with_net_console (l : list string) (n : Net) : Net :=
  {| newsapi_response := newsapi_response n;
     guardian_response := guardian_response n;
     gnews_response := gnews_response n; rss_response := rss_response n;
     net_sent := net_sent n; net_console := l; net_now := net_now n |}.

(** One awaited request. *)
Definition net_get {A} (r : NetRequest) (response : Net → Response A)
  : M Net (option (list (option A))) :=
  λ n, let n1 := with_net_sent (net_sent n ++ [r]) n in
       match response n with
       | NetFails msg => (Thrown msg, n1)
       | Body array => (Ok array, n1)
       end.

(** [console.error(label, err.message)] *)
Definition net_console_error (label msg : string) : M Net unit :=
  modify (λ n, with_net_console (net_console n ++ [label +:+ " " +:+ msg]) n).

(** The objects of an array, unless it holds [null]. *)
Fixpoint all_objects {A} (l : list (option A)) : option (list A) :=
  match l with
  | [] => Some []
  | None :: _ => None
  | Some a :: rest => cons a <$> all_objects rest
  end.

(** [array.map(a => ({ ... }))] with a callback that reads [a.prop]
    first: it throws at a [null] element. *)
Definition map_objects {S A B} (prop : string) (f : A → B)
    (l : list (option A)) : M S (list B) :=
  match all_objects l with
  | Some objects => mret (f <$> objects)
  | None =>
      throw ("Cannot read properties of null (reading '" +:+ prop +:+ "')")
  end.

(** [for (const x of l) { body }] on the array [articles]. *)
Fixpoint for_of {S A B} (l : list A) (body : A → B → M S B) (acc : B)
  : M S B :=
  match l with
  | [] => mret acc
  | x :: rest => acc' ← body x acc; for_of rest body acc'
  end.

(** [config.newsapi.key], [config.guardian.key], [config.gnews.key] *)
Record Keys := {
  newsapi_key : option string;
  guardian_key : option string;
  gnews_key : option string
}.

Definition newsapi_queries : list string :=
  [ "breakthrough OR discovery OR innovation OR milestone";
    "renewable energy OR clean technology OR sustainability";
    "medical breakthrough OR cure OR treatment approved";
    "community OR volunteers OR nonprofit success";
    "space exploration OR NASA OR telescope discovery" ].

Definition newsapi_item (a : NewsApiArticle) : RawItem :=
  {| title := na_title a; excerpt := na_description a;
     source_url := na_url a; image_url := na_urlToImage a;
     source_name := or_str (na_source_name a) "Unknown";
     author := na_author a; published_at := na_publishedAt a;
     raw_content := na_content a; api_source := "newsapi" |}.

Definition fetchNewsAPI (keys : Keys) : M Net (list RawItem) :=
  if negb (Js.truthy_str (newsapi_key keys)) then mret []
  else
    for_of newsapi_queries (λ q articles,
      try_catch
        (data ← net_get (GetNewsApi q (default "" (newsapi_key keys)))
                        (λ n, newsapi_response n q);
         match data with
         | Some l =>
             items ← map_objects "title" newsapi_item l;
             mret (articles ++ items)
         | None => mret articles
         end)
        (λ msg,
           net_console_error ("NewsAPI query failed: " +:+ q) msg;;
           mret articles)) [].

Definition guardian_sections : list string :=
  [ "science"; "technology"; "environment"; "society" ].

Definition guardian_item (a : GuardianResult) : RawItem :=
  {| title := g_webTitle a; excerpt := Some (or_str (g_trailText a) "");
     source_url := g_webUrl a; image_url := or_opt_str (g_thumbnail a) None;
     source_name := "The Guardian";
     author := or_opt_str (g_byline a) None;
     published_at := g_webPublicationDate a;
     raw_content := None; api_source := "guardian" |}.

Definition fetchGuardian (keys : Keys) : M Net (list RawItem) :=
  if negb (Js.truthy_str (guardian_key keys)) then mret []
  else
    for_of guardian_sections (λ section articles,
      try_catch
        (data ← net_get (GetGuardian section (default "" (guardian_key keys)))
                        (λ n, guardian_response n section);
         match data with
         | Some l =>
             items ← map_objects "webTitle" guardian_item l;
             mret (articles ++ items)
         | None => mret articles
         end)
        (λ msg,
           net_console_error ("Guardian fetch failed: " +:+ section) msg;;
           mret articles)) [].

Definition gnews_topics : list string :=
  [ "science"; "technology"; "health"; "world" ].

Definition gnews_item (a : GNewsArticle) : RawItem :=
  {| title := gn_title a; excerpt := gn_description a;
     source_url := gn_url a; image_url := gn_image a;
     source_name := or_str (gn_source_name a) "Unknown";
     author := None; published_at := gn_publishedAt a;
     raw_content := gn_content a; api_source := "gnews" |}.

Definition fetchGNews (keys : Keys) : M Net (list RawItem) :=
  if negb (Js.truthy_str (gnews_key keys)) then mret []
  else
    for_of gnews_topics (λ topic articles,
      try_catch
        (data ← net_get (GetGNews topic (default "" (gnews_key keys)))
                        (λ n, gnews_response n topic);
         match data with
         | Some l =>
             items ← map_objects "title" gnews_item l;
             mret (articles ++ items)
         | None => mret articles
         end)
        (λ msg,
           net_console_error ("GNews fetch failed: " +:+ topic) msg;;
           mret articles)) [].

(** [{ url, source }] *)
Definition rss_feeds : list (string * string) :=
  [ ("https://www.goodnewsnetwork.org/feed/", "Good News Network");
    ("https://reasonstobecheerful.world/feed/", "Reasons to be Cheerful");
    ("https://positive.news/feed/", "Positive News");
    ("https://www.sciencedaily.com/rss/all.xml", "Science Daily");
    ("https://www.nasa.gov/rss/dyn/breaking_news.rss", "NASA");
    ("https://www.newscientist.com/feed/home/", "New Scientist");
    ("https://feeds.arstechnica.com/arstechnica/science", "Ars Technica");
    ("https://www.space.com/feeds/all", "Space.com");
    ("https://www.wired.com/feed/rss", "Wired") ].

(** [new Date().toISOString()] is read from the clock, [now]. *)
Definition rss_item (now : Z) (source : string) (item : RssItem) : RawItem :=
  {| title := rss_title item;
     excerpt :=
       Some (if Js.truthy_str (rss_contentSnippet item)
             then default "" (rss_contentSnippet item)
             else or_str (String.substring 0 300 <$> rss_content item) "");
     source_url := rss_link item;
     image_url :=
       or_opt_str (rss_enclosure_url item)
         (or_opt_str (extractImageFromContent (rss_content item)) None);
     source_name := source;
     author := or_opt_str (rss_creator item) (or_opt_str (rss_author item) None);
     published_at :=
       Some (default (default now (rss_pubDate item)) (rss_isoDate item));
     raw_content := rss_content item; api_source := "rss" |}.

Definition fetchRSSFeeds : M Net (list RawItem) :=
  for_of rss_feeds (λ feed articles,
    try_catch
      (items ← net_get (ParseRss feed.1) (λ n, rss_response n feed.1);
       now ← gets net_now;
       mapped ← map_objects "title" (rss_item now feed.2)
                            (take 15 (default [] items));
       mret (articles ++ mapped))
      (λ msg,
         net_console_error ("RSS fetch failed: " +:+ feed.2) msg;;
         mret articles)) [].

(** One entry of [Promise.allSettled]. *)
Definition settle (m : M Net (list RawItem)) : M Net Settled :=
  λ n, match m n with
       | (Ok value, n') => (Ok (Fulfilled value), n')
       | (Thrown reason, n') => (Ok (Rejected reason), n')
       | (Diverged, n') => (Diverged, n')
       end.

(** [await Promise.allSettled([fetchNewsAPI(), ...])].  The adapters
    share nothing but the console and the trace of requests; they are run
    one after the other here. *)
Definition fetch_all (keys : Keys) : M Net Adapters :=
  a ← settle (fetchNewsAPI keys);
  b ← settle (fetchGuardian keys);
  c ← settle (fetchGNews keys);
  d ← settle fetchRSSFeeds;
  mret {| newsapi := a; guardian := b; gnews := c; rss := d |}.

(** ** [timeAgo] of the frontend *)

(** The four shapes of the label: [`${n} min ago`], [`${n}h ago`],
    [`${n}d ago`] and the locale date of the instant. *)
Inductive TimeLabel :=
  | MinAgo (n : Z)
  | HoursAgo (n : Z)
  | DaysAgo (n : Z)
  | LocaleDate (t : Z).

(** [now] is [Date.now()]; [new Date(null).getTime()] is [0]. *)
Definition timeAgo (now : Z) (dateStr : option Z) : TimeLabel :=
  let t := default 0%Z dateStr in
  let seconds := ((now - t) / 1000)%Z in
  if (seconds <? 3600)%Z then MinAgo (seconds / 60)
  else if (seconds <? 86400)%Z then HoursAgo (seconds / 3600)
  else if (seconds <? 604800)%Z then DaysAgo (seconds / 86400)
  else LocaleDate t.

(** ** Notions used to state further properties *)

(** Every code unit of [s] satisfies [P]. *)
Fixpoint all_chars (P : ascii → bool) (s : string) : bool :=
  match s with
  | EmptyString => true
  | String c s' => P c && all_chars P s'
  end.

(** An ASCII capital letter. *)
Definition is_upper (c : ascii) : bool :=
  let n := N_of_ascii c in (65 <=? n)%N && (n <=? 90)%N.

(** A world whose store answers every request with an error object. *)
Definition store_errors (w : World) : Prop :=
  ∀ k, ∃ e, faults w k = ErrorResponse e.

(** A world in which no awaited request rejects: the store serves a
    request or answers it with an error object. *)
Definition never_rejects (w : World) : Prop :=
  ∀ k msg, faults w k ≠ Rejects msg.

Definition with_faults (f : nat → Fault) (w : World) : World :=
  {| articles := articles w; sources := sources w; categories := categories w;
     ingestion_log := ingestion_log w; requests := requests w;
     faults := f; oracle := oracle w; prompts := prompts w;
     now := now w; console_error := console_error w |}.

(** [html] holds a match of the pattern of [extractImageFromContent]
    that starts after [pre] and captures [g]: [mid] is the run other than
    [>], [q1] and [q2] are the quotes around the capture. *)
Definition img_match (html pre mid g post : string) (q1 q2 : ascii) : Prop :=
  html = pre +:+ "<img" +:+ mid +:+ "src=" +:+ String q1 (g +:+ String q2 post) ∧
  mid ≠ "" ∧ all_chars (λ c, negb (is_gt c)) mid = true ∧
  is_quote q1 = true ∧ is_quote q2 = true ∧
  g ≠ "" ∧ all_chars (λ c, negb (is_quote c)) g = true.

(** The array of a response, if there is one. *)
Definition body_of {A} (r : Response A) : option (list (option A)) :=
  match r with
  | Body array => array
  | NetFails _ => None
  end.

(** What one iteration of an adapter adds to [articles], [f] being the
    callback of [map]: the mapped objects of the array, or nothing when
    the array is absent or holds [null]. *)
Definition yield {A} (f : A → RawItem) (array : option (list (option A)))
  : list RawItem :=
  match array ≫= all_objects with
  | Some objects => f <$> objects
  | None => []
  end.

(** The iteration on this array ends in [catch]: the request failed or
    the callback of [map] threw. *)
Definition caught {A} (r : Response A) (array : option (list (option A)))
  : bool :=
  match r with
  | NetFails _ => true
  | Body _ =>
      match array with
      | Some l => bool_decide (all_objects l = None)
      | None => false
      end
  end.

(** Two states of the network that answer alike at the same time. *)
Definition same_net (n n' : Net) : Prop :=
  newsapi_response n' = newsapi_response n ∧
  guardian_response n' = guardian_response n ∧
  gnews_response n' = gnews_response n ∧
  rss_response n' = rss_response n ∧ net_now n' = net_now n.

(** The array [fetchRSSFeeds] maps over: [(parsed.items || []).slice(0, 15)]. *)
Definition rss_slice (r : Response RssItem) : option (list (option RssItem)) :=
  Some (take 15 (default [] (body_of r))).

(** The rows a request of [fetchArticles] ranges over, before [order],
    [offset] and [limit] apply. *)
Definition fetch_scope (category : option string) (weird : bool)
    (t : list Row) : list FeedRow :=
  if weird then weird_articles t
  else match category with
       | Some c =>
           if Js.truthy_str category && negb (String.eqb c "all")
           then filter (λ a, feed_category_name a = c) (feed_articles t)
           else feed_articles t
       | None => feed_articles t
       end.



(** ** Example worlds with a failing store *)

Module Outage.

Definition timeout : DbError :=
  {| code := "57014";
     message := "canceling statement due to statement timeout" |}.

(** The store answers every request with an error object. *)
Definition world_erroring : World :=
  with_faults (λ _, ErrorResponse timeout) Scenario.world.

(** The first two requests get an error object, the others are served. *)
Definition world_lookups_fail : World :=
  with_faults (λ k, if bool_decide (k < 2) then ErrorResponse timeout
                    else NoFault) Scenario.world.

(** The first request gets an error object, the others are served. *)
Definition world_first_fails : World :=
  with_faults (λ k, if bool_decide (k = 0) then ErrorResponse timeout
                    else NoFault) Scenario.world.

(** The second request gets an error object, the others are served. *)
Definition world_second_fails : World :=
  with_faults (λ k, if bool_decide (k = 1) then ErrorResponse timeout
                    else NoFault) Scenario.world.

(** The third request gets an error object, the others are served. *)
Definition world_third_fails : World :=
  with_faults (λ k, if bool_decide (k = 2) then ErrorResponse timeout
                    else NoFault) Scenario.world.

(** A classified item with a new source URL and the score 5. *)
Definition high_item : ClassifiedItem :=
  classified_of Scenario.t0 (Some (Scenario.scored 5))
    (Scenario.item "Volunteers plant forest" "https://r/6" "BBC"
                   (Scenario.t0 - 6000)).

End Outage.

(** A candidate whose title has the token set of a stored title that
    repeats a token. *)
Module Repeats.

Definition candidate : RawItem :=
  Scenario.item "Solar farm" "https://n/20" "Reuters" (Scenario.t0 - 1000).

Definition stored_row : Row :=
  Scenario.stored 1 "Solar solar solar farm" "https://old/20"
                  (Scenario.t0 - hours 3).

Definition world : World := with_articles [stored_row] Scenario.world.

Definition adapters : Adapters :=
  {| newsapi := Fulfilled [candidate]; guardian := Fulfilled [];
     gnews := Fulfilled []; rss := Fulfilled [] |}.

End Repeats.

(** An example network: one NewsAPI query is rejected, the Guardian
    answers without results, GNews answers an array that holds [null], and
    every feed has twenty items. *)
Module Wire.

Definition na (t u : string) : NewsApiArticle :=
  {| na_title := Some t; na_description := None; na_url := Some u;
     na_urlToImage := None; na_source_name := None; na_author := None;
     na_publishedAt := Some Scenario.t0; na_content := None |}.

Definition entry (u : string) : RssItem :=
  {| rss_title := Some "Entry"; rss_contentSnippet := None;
     rss_content := Some "<p>Text</p><img class='w' src='https://img/1.png'>";
     rss_link := Some u; rss_enclosure_url := None; rss_creator := None;
     rss_author := None; rss_isoDate := None; rss_pubDate := None |}.

Definition net : Net :=
  {| newsapi_response := λ q,
       if String.eqb q "community OR volunteers OR nonprofit success"
       then NetFails "fetch failed"
       else Body (Some [Some (na q ("https://n/" +:+ q))]);
     guardian_response := λ _, Body None;
     gnews_response := λ _, Body (Some [None]);
     rss_response := λ url, Body (Some (replicate 20 (Some (entry url))));
     net_sent := []; net_console := []; net_now := Scenario.t0 |}.

Definition keys : Keys :=
  {| newsapi_key := Some "k1"; guardian_key := Some "k2";
     gnews_key := Some "k3" |}.

(** The environment sets no key. *)
Definition no_keys : Keys :=
  {| newsapi_key := None; guardian_key := None; gnews_key := None |}.

End Wire.

(** * Properties *)

(** ** The monad *)

Section monad_facts.
Context {S : Type}.

Lemma bind_Ok {A B} (m : M S A) (k : A → M S B) s a s' :
  m s = (Ok a, s') → (m ≫= k) s = k a s'.
Proof. intros E. unfold mbind, M_bind. by rewrite E. Qed.

Lemma bind_Thrown {A B} (m : M S A) (k : A → M S B) s e s' :
  m s = (Thrown e, s') → (m ≫= k) s = (Thrown e, s').
Proof. intros E. unfold mbind, M_bind. by rewrite E. Qed.

Lemma bind_Diverged {A B} (m : M S A) (k : A → M S B) s s' :
  m s = (Diverged, s') → (m ≫= k) s = (Diverged, s').
Proof. intros E. unfold mbind, M_bind. by rewrite E. Qed.

Lemma try_catch_Ok {A} (m : M S A) h s a s' :
  m s = (Ok a, s') → try_catch m h s = (Ok a, s').
Proof. intros E. unfold try_catch. by rewrite E. Qed.

Lemma try_catch_Thrown {A} (m : M S A) h s e s' :
  m s = (Thrown e, s') → try_catch m h s = h e s'.
Proof. intros E. unfold try_catch. by rewrite E. Qed.
End monad_facts.

(** ** [classifyBatch] *)

Lemma classifyBatch_unfold (chunk : list RawItem) (w : World) :
  classifyBatch chunk w =
  let w1 := with_prompts (prompts w ++ [chunk]) w in
  match classify_try (now w) (oracle w chunk) chunk with
  | inr results => (Ok results, w1)
  | inl msg =>
      (Ok (fallback_of (now w) msg <$> chunk),
       with_console_error
         (console_error w ++ ["Classification failed: " +:+ msg]) w1)
  end.
Proof.
  unfold classifyBatch, ask_oracle, console_error_log, gets, modify.
  unfold mbind, M_bind, mret, M_ret. simpl.
  by destruct (classify_try _ _ _).
Qed.

Lemma fallback_of_defaults (t : Z) (msg : string) (chunk : list RawItem) :
  Forall has_fallback_defaults (fallback_of t msg <$> chunk).
Proof.
  apply Forall_fmap, Forall_true. intros a. by repeat split.
Qed.

Lemma article_fallback_of (t : Z) (msg : string) (chunk : list RawItem) :
  article <$> (fallback_of t msg <$> chunk) = chunk.
Proof. rewrite <- list_fmap_compose. by rewrite <- (list_fmap_id chunk) at 2. Qed.

Lemma article_imap (f : nat → RawItem → ClassifiedItem) (chunk : list RawItem) :
  (∀ i a, article (f i a) = a) → article <$> imap f chunk = chunk.
Proof.
  revert f. induction chunk as [|a chunk IH]; intros f Hf; [done|].
  simpl. rewrite Hf. f_equal. apply IH. intros i b. apply Hf.
Qed.

Lemma article_imap_classified_of (t : Z) (l : list (option Classification))
    (chunk : list RawItem) :
  article <$> imap (λ i a, classified_of t (l !! i) a) chunk = chunk.
Proof. by apply article_imap. Qed.

Lemma article_classify_try (t : Z) o (chunk : list RawItem) out :
  classify_try t o chunk = inr out → article <$> out = chunk.
Proof.
  destruct o as [msg|[l| |]]; simpl; try done.
  - intros [= <-]. apply article_imap_classified_of.
  - destruct chunk; [by intros [= <-]|done].
  - intros [= <-]. rewrite <- list_fmap_compose.
    by rewrite <- (list_fmap_id chunk) at 2.
Qed.

(** Whatever the oracle does, [classifyBatch] returns one classified item
    per article of the chunk, in order. *)
Lemma classifyBatch_total (chunk : list RawItem) (w : World) :
  ∃ out w', classifyBatch chunk w = (Ok out, w') ∧ article <$> out = chunk.
Proof.
  rewrite classifyBatch_unfold. simpl.
  destruct (classify_try _ _ _) as [msg|out] eqn:E.
  - eexists _, _. split; [done|]. apply article_fallback_of.
  - eexists _, _. split; [done|]. by eapply article_classify_try.
Qed.

Lemma classified_of_follows (t : Z) (e : option Classification) (a : RawItem) :
  follows e (classified_of t (Some e) a).
Proof. destruct e; by repeat split. Qed.

Lemma classified_of_item_defaults (t : Z) (a : RawItem) :
  has_item_defaults (classified_of t None a).
Proof. by repeat split. Qed.

(** Position by position: the items in the range of the array follow
    their element, the others get the item defaults. *)
Lemma imap_classified_of_spec (t : Z) (l : list (option Classification))
    (chunk : list RawItem) :
  let out := imap (λ i a, classified_of t (l !! i) a) chunk in
  Forall2 follows (take (length chunk) l) (take (length l) out) ∧
  Forall has_item_defaults (drop (length l) out).
Proof.
  revert chunk. induction l as [|e l IH]; intros chunk; simpl.
  - split; [rewrite take_nil; constructor|].
    apply Forall_forall. intros c Hc.
    apply elem_of_lookup_imap in Hc as (i & a & -> & _).
    apply classified_of_item_defaults.
  - destruct chunk as [|a chunk]; simpl; [by split; constructor|].
    destruct (IH chunk) as [H1 H2]. split.
    + constructor; [apply classified_of_follows|]. exact H1.
    + exact H2.
Qed.

(** C1 (as amended).  [classifyBatch] always returns one classified item
    per article of the chunk, in order.  When the oracle call or
    [JSON.parse] raises, or the response is the literal [null], every item
    of the chunk receives the documented fallback defaults (bloom score 3,
    category [progress], oddity false, summary = excerpt, tags empty,
    confidence 0): all or nothing.  When the response parses to an array,
    the chunk does not fall back: the item at a position that holds an
    object carries the fields of that object, whatever article the oracle
    meant it for, and only the items at positions without an object get
    defaults, with confidence 1/2.  A parsed value without indexable
    elements gives every item these defaults with confidence 1/2. *)
Theorem classifyBatch_fallback_per_outcome (chunk : list RawItem) (w : World) :
  ∃ out w',
    classifyBatch chunk w = (Ok out, w') ∧
    article <$> out = chunk ∧
    match oracle w chunk with
    | Raised _ | Parsed ReplyNull => Forall has_fallback_defaults out
    | Parsed (ReplyArray l) =>
        Forall2 follows (take (length chunk) l) (take (length l) out) ∧
        Forall has_item_defaults (drop (length l) out)
    | Parsed ReplyOther => Forall has_item_defaults out
    end.
Proof.
  rewrite classifyBatch_unfold. simpl.
  destruct (oracle w chunk) as [msg|[l| |]] eqn:E; simpl.
  - eexists _, _. split; [done|].
    split; [apply article_fallback_of|apply fallback_of_defaults].
  - eexists _, _. split; [done|].
    split; [apply article_imap_classified_of|apply imap_classified_of_spec].
  - destruct chunk as [|a chunk].
    + eexists _, _. split; [done|]. by split; [|constructor].
    + eexists _, _. split; [done|].
      split; [apply article_fallback_of|apply fallback_of_defaults].
  - eexists _, _. split; [done|]. split.
    + rewrite <- list_fmap_compose. by rewrite <- (list_fmap_id chunk) at 2.
    + apply Forall_fmap, Forall_true. intros a.
      apply classified_of_item_defaults.
Qed.

(** C1, counterexample.  The oracle answers a chunk of two articles with
    an array of one object: the first item keeps the oracle's score 5 and
    confidence 9/10, the second gets confidence 1/2, so the chunk did not
    fall back to the documented defaults. *)
Lemma classifyBatch_short_reply_is_partial :
  let w := Scenario.world_with (λ _, Scenario.short_reply) in
  ∃ out,
    oracle w Scenario.two_items = Parsed (ReplyArray [Scenario.scored 5]) ∧
    length [Scenario.scored 5] < length Scenario.two_items ∧
    (classifyBatch Scenario.two_items w).1 = Ok out ∧
    bloom_score <$> out = [5; 3]%Z ∧
    ai_confidence <$> out = [9 # 10; 1 # 2]%Q ∧
    ¬ Forall has_fallback_defaults out.
Proof.
  eexists. split; [reflexivity|]. split; [simpl; lia|].
  split; [vm_compute; reflexivity|].
  split; [reflexivity|]. split; [reflexivity|].
  intros H. apply Forall_cons in H as [(Hb & _) _]. discriminate Hb.
Qed.

(** ** The store requests *)

Lemma request_NoFault {A} (r : Request) (exec : World → DbResult A * World) w :
  faults w (length (requests w)) = NoFault →
  request r exec w =
  (Ok (exec (with_requests (requests w ++ [r]) w)).1,
   (exec (with_requests (requests w ++ [r]) w)).2).
Proof. intros E. unfold request. rewrite E. by destruct (exec _). Qed.

Lemma healthy_NoFault w k : healthy w → faults w k = NoFault.
Proof. intros H. apply H. Qed.

(** ** [findSimilar] *)

Lemma findSimilar_unfold (t : string) (thr : Q) (w : World) :
  findSimilar (Some t) thr w =
  let w1 := with_requests
              (requests w ++ [SelectRecentPublished (now w - hours 48)]) w in
  match faults w (length (requests w)) with
  | Rejects msg => (Thrown msg, w1)
  | ErrorResponse e => (Ok None, w1)
  | NoFault =>
      (Ok (first_similar (tokens t) thr
             ((λ r, (row_id r, row_title r)) <$> recent_published w)), w1)
  end.
Proof.
  unfold findSimilar, select_recent_published, request, gets.
  unfold mbind, M_bind, mret, M_ret. simpl.
  by destruct (faults w _).
Qed.

Lemma overlap_nil (existingWords : list string) : overlap [] existingWords = 0.
Proof. done. Qed.

Lemma similarity_nil (existingWords : list string) :
  similarity [] existingWords =
  match existingWords with
  | [] => Js.NaN
  | _ :: _ => Js.Fin (0 # Pos.of_nat (length existingWords))
  end.
Proof. by destruct existingWords. Qed.

Lemma similarity_nil_below (existingWords : list string) (thr : Q) :
  (0 < thr)%Q → Js.ge (similarity [] existingWords) thr = false.
Proof.
  intros Hthr. rewrite similarity_nil. destruct existingWords; [done|].
  simpl. apply not_true_is_false. rewrite Qle_bool_iff.
  unfold Qle, Qlt in *. simpl in *. lia.
Qed.

Lemma first_similar_nil (thr : Q) (data : list (nat * string)) :
  (0 < thr)%Q → first_similar [] thr data = None.
Proof.
  intros Hthr. induction data as [|e data IH]; [done|].
  simpl. by rewrite similarity_nil_below.
Qed.

Lemma first_similar_Exists (words : list string) (thr : Q)
    (data : list (nat * string)) :
  is_Some (first_similar words thr data) ↔
  Exists (λ e, Js.ge (similarity words (tokens e.2)) thr = true) data.
Proof.
  induction data as [|e data IH]; simpl.
  - split; [by intros [? ?]|by intros ?%Exists_nil].
  - rewrite Exists_cons. destruct (Js.ge _ _) eqn:E.
    + split; [by left|by eexists].
    + rewrite IH. split; [by right|]. by intros [?|?].
Qed.

Lemma first_similar_elem (words : list string) (thr : Q)
    (data : list (nat * string)) e :
  first_similar words thr data = Some e →
  e ∈ data ∧ Js.ge (similarity words (tokens e.2)) thr = true.
Proof.
  induction data as [|x data IH]; simpl; [done|].
  destruct (Js.ge (similarity words (tokens x.2)) thr) eqn:E.
  - intros [= <-]. split; [left|done].
  - intros [H1 H2]%IH. split; [by right|done].
Qed.

(** The count of the code is at least the size of the intersection of the
    token sets: it counts a candidate token once per occurrence. *)
Lemma overlap_ge_intersection (t1 t2 : string) :
  (size (token_set t1 ∩ token_set t2) ≤ overlap (tokens t1) (tokens t2))%nat.
Proof.
  unfold overlap, token_set, size, set_size. simpl.
  apply submseteq_length, NoDup_submseteq; [apply NoDup_elements|].
  intros x Hx. apply elem_of_elements, elem_of_intersection in Hx as [H1 H2].
  apply elem_of_list_to_set in H1, H2.
  by apply list_elem_of_filter.
Qed.

(** A candidate without repeated token: the count is the size of the
    intersection. *)
Lemma overlap_eq_intersection (t1 t2 : string) :
  NoDup (tokens t1) →
  overlap (tokens t1) (tokens t2) = size (token_set t1 ∩ token_set t2).
Proof.
  intros Hnd. unfold overlap, token_set.
  rewrite <- (size_list_to_set (C := gset string)) by by apply NoDup_filter.
  f_equal. apply set_eq. intros x.
  rewrite elem_of_list_to_set, list_elem_of_filter, elem_of_intersection.
  rewrite !elem_of_list_to_set. tauto.
Qed.

(** The tokens of the specification are the tokens of the code. *)

Lemma spec_blank_is_space (c : ascii) : spec_blank c = Js.is_space c.
Proof. destruct c as [[] [] [] [] [] [] [] []]; vm_compute; reflexivity. Qed.

Lemma spec_lower_char_lower (c : ascii) : spec_lower_char c = Js.lower_char c.
Proof. destruct c as [[] [] [] [] [] [] [] []]; vm_compute; reflexivity. Qed.

Lemma spec_lower_toLowerCase (s : string) : spec_lower s = Js.toLowerCase s.
Proof.
  unfold spec_lower. induction s as [|c s IH]; [done|].
  cbn [String.list_ascii_of_string]. rewrite fmap_cons.
  cbn [String.string_of_list_ascii Js.toLowerCase].
  by rewrite IH, spec_lower_char_lower.
Qed.

Lemma string_app_snoc (a b : string) (c : ascii) :
  (a +:+ String c "") +:+ b = a +:+ String c b.
Proof.
  induction a as [|x a IH]; [done|].
  change (String x ((a +:+ String c "") +:+ b) = String x (a +:+ String c b)).
  by rewrite IH.
Qed.

Lemma string_app_empty (a : string) : a +:+ "" = a.
Proof.
  induction a as [|x a IH]; [done|].
  change (String x (a +:+ "") = String x a). by rewrite IH.
Qed.

(** The two ways of cutting a string give the same non-empty pieces. *)
Lemma spec_pieces_split (P : string → Prop) `{!∀ x, Decision (P x)}
    (cur : string) (in_gap : bool) (s : string) :
  ¬ P "" → (in_gap = true → cur = "") →
  filter P (Js.split_go cur in_gap s)
  = filter P (match spec_pieces s with
              | piece :: rest => (cur +:+ piece) :: rest
              | [] => [cur]
              end).
Proof.
  intros HP. revert cur in_gap. induction s as [|c s IH]; intros cur in_gap Hgap.
  - simpl. by rewrite string_app_empty.
  - cbn [Js.split_go spec_pieces]. rewrite spec_blank_is_space.
    destruct (Js.is_space c).
    + rewrite string_app_empty.
      assert (filter P (Js.split_go "" true s) = filter P (spec_pieces s)) as E.
      { rewrite (IH "" true) by done.
        destruct (spec_pieces s); [by rewrite filter_cons_False|done]. }
      destruct in_gap.
      * rewrite (Hgap eq_refl), E. by rewrite filter_cons_False.
      * rewrite !filter_cons, E. done.
    + rewrite (IH (cur +:+ String c "") false) by done.
      destruct (spec_pieces s) as [|piece rest].
      * done.
      * by rewrite string_app_snoc.
Qed.

Lemma spec_tokens_tokens (t : string) : spec_tokens t = tokens t.
Proof.
  unfold spec_tokens, tokens, Js.split_ws.
  rewrite spec_lower_toLowerCase.
  rewrite (spec_pieces_split (λ w, 3 < String.length w) "" false);
    [|simpl; lia|done].
  etrans.
  { apply (list_filter_iff _ (λ w, 3 < String.length w)). intros x. lia. }
  destruct (spec_pieces (Js.toLowerCase t)); [|done].
  rewrite filter_cons_False; [done|simpl; lia].
Qed.

Lemma spec_token_set_token_set (t : string) : spec_token_set t = token_set t.
Proof. unfold spec_token_set, token_set. by rewrite spec_tokens_tokens. Qed.

Lemma similarity_over_counts_code (t1 t2 : string) (q thr : Q) :
  similarity_over_counts t1 t2 = Some q → (thr <= q)%Q →
  Js.ge (similarity (tokens t1) (tokens t2)) thr = true.
Proof.
  unfold similarity_over_counts, similarity, Js.div.
  rewrite !spec_tokens_tokens, !spec_token_set_token_set.
  pose proof (overlap_ge_intersection t1 t2) as Hle.
  destruct (Nat.max _ _) as [|d]; [done|].
  intros [= <-] Hq. simpl. apply Qle_bool_iff.
  eapply Qle_trans; [exact Hq|].
  unfold Qle. simpl. apply Z.mul_le_mono_nonneg_r; lia.
Qed.

(** C10.  A candidate title whose lower-cased whitespace tokens all have
    length at most 3 has no token after the filter.  Against any list of
    existing tokens its similarity is 0, or 0/0 when that list is empty
    too, and the comparison with the threshold 0.6 is false.  So
    [findSimilar] reports no match whatever the store holds: it returns
    [null], and the only way it does not return is a store request that
    itself rejects. *)
Theorem findSimilar_without_tokens (t : string) :
  Forall (λ tok, (String.length tok ≤ 3)%nat) (Js.split_ws (Js.toLowerCase t)) →
  tokens t = [] ∧
  (∀ existingWords,
     similarity (tokens t) existingWords =
     match existingWords with
     | [] => Js.NaN
     | _ :: _ => Js.Fin (0 # Pos.of_nat (length existingWords))
     end) ∧
  (∀ existingWords,
     Js.ge (similarity (tokens t) existingWords) default_threshold = false) ∧
  (∀ w,
     (findSimilar (Some t) default_threshold w).1 =
     match faults w (length (requests w)) with
     | Rejects msg => Thrown msg
     | _ => Ok None
     end).
Proof.
  intros Hshort.
  assert (tokens t = []) as Hnil.
  { unfold tokens. induction Hshort as [|tok l Htok _ IH]; [done|].
    rewrite filter_cons_False by lia. exact IH. }
  rewrite Hnil. split; [done|]. split; [apply similarity_nil|].
  split; [intros; by apply similarity_nil_below|].
  intros w. rewrite findSimilar_unfold, Hnil. simpl.
  destruct (faults w _); [|done..].
  by rewrite first_similar_nil.
Qed.

(** The property above at an instance of the example run. *)
Lemma findSimilar_without_tokens_witness :
  Forall (λ tok, (String.length tok ≤ 3)%nat)
         (Js.split_ws (Js.toLowerCase " An Ox is in ")) ∧
  (findSimilar (Some " An Ox is in ") default_threshold Scenario.world).1
    = Ok None.
Proof.
  assert (Forall (λ tok, (String.length tok ≤ 3)%nat)
                 (Js.split_ws (Js.toLowerCase " An Ox is in "))) as H.
  { repeat constructor; simpl; lia. }
  split; [exact H|].
  exact (proj2 (proj2 (proj2 (findSimilar_without_tokens _ H))) Scenario.world).
Defined.

(** ** The history check *)

Lemma filter_nonempty_Exists {A} (P : A → Prop) `{!∀ x, Decision (P x)}
    (l : list A) :
  (0 < length (filter P l))%nat ↔ Exists P l.
Proof.
  induction l as [|x l IH]; simpl.
  - split; [lia|by intros ?%Exists_nil].
  - rewrite Exists_cons. destruct (decide (P x)).
    + rewrite filter_cons_True by done. simpl. split; [by left|lia].
    + rewrite filter_cons_False by done. rewrite IH. tauto.
Qed.

Lemma isDuplicate_unfold (url : option string) (w : World) :
  isDuplicate url w =
  let w1 := with_requests (requests w ++ [SelectArticleByUrl url]) w in
  match faults w (length (requests w)) with
  | Rejects msg => (Thrown msg, w1)
  | ErrorResponse e => (Ok false, w1)
  | NoFault =>
      (Ok (bool_decide
             (Exists (λ r, Some (row_source_url r) = url) (articles w))), w1)
  end.
Proof.
  unfold isDuplicate, select_article_by_url, request.
  unfold mbind, M_bind, mret, M_ret. simpl.
  destruct (faults w _); [|done..]. simpl. do 2 f_equal.
  apply bool_decide_ext.
  rewrite <- (filter_nonempty_Exists (λ r, Some (row_source_url r) = url)).
  rewrite length_take, length_fmap. lia.
Qed.

Lemma first_similar_fuzzy (t : string) (w : World) (a : RawItem) :
  title a = Some t →
  is_Some (first_similar (tokens t) default_threshold
             ((λ r, (row_id r, row_title r)) <$> recent_published w))
  ↔ fuzzy_match w a = true.
Proof.
  intros Ht. unfold fuzzy_match. rewrite Ht.
  rewrite first_similar_Exists, Exists_fmap, bool_decide_eq_true.
  split; intros H; (eapply Exists_impl; [exact H|]); intros r; simpl;
    by rewrite Is_true_true.
Qed.

(** One iteration of the loop in a world that serves every request. *)
Lemma history_loop_cons (a : RawItem) (rest newArticles : list RawItem)
    (w : World) (st : Stats) :
  healthy w → is_Some (title a) →
  history_loop (a :: rest) newArticles {| world := w; stats := st |} =
  history_loop rest
    (if known w a then newArticles else newArticles ++ [a])
    {| world := with_requests (requests w ++ history_checks w a) w;
       stats := if known w a then incr_deduplicated st else st |}.
Proof.
  intros Hw [t Ht]. simpl.
  erewrite bind_Ok; last first.
  { unfold lift. simpl. rewrite isDuplicate_unfold, (healthy_NoFault _ _ Hw).
    simpl. reflexivity. }
  unfold known, history_checks, exact_match.
  destruct (bool_decide (Exists _ (articles w))) eqn:Hex; simpl.
  - erewrite bind_Ok; [|reflexivity]. done.
  - erewrite bind_Ok; last first.
    { unfold lift. simpl. rewrite Ht, findSimilar_unfold. simpl.
      rewrite (healthy_NoFault _ _ Hw). simpl. reflexivity. }
    pose proof (first_similar_fuzzy t w a Ht) as Hf.
    destruct (first_similar _ _ _) as [e|] eqn:Hfs.
    + rewrite (proj1 Hf) by by eexists.
      erewrite bind_Ok; [|reflexivity].
      rewrite <- app_assoc. done.
    + destruct (fuzzy_match w a) eqn:Hfm.
      * destruct (proj2 Hf eq_refl) as [? ?]. done.
      * rewrite <- app_assoc. done.
Qed.

Lemma history_loop_healthy (allArticles newArticles : list RawItem)
    (w : World) (st : Stats) :
  healthy w → Forall (λ a, is_Some (title a)) allArticles →
  history_loop allArticles newArticles {| world := w; stats := st |} =
  (Ok (newArticles ++ filter (λ a, known w a = false) allArticles),
   {| world := with_requests
                 (requests w ++ concat (history_checks w <$> allArticles)) w;
      stats := add_deduplicated
                 (length (filter (λ a, known w a = true) allArticles)) st |}).
Proof.
  intros Hw Hall. revert newArticles w st Hw.
  induction Hall as [|a rest Ha _ IH]; intros newArticles w st Hw.
  - simpl. unfold mret, M_ret. rewrite !app_nil_r.
    destruct w, st; simpl. unfold add_deduplicated, with_requests. simpl.
    by rewrite Nat.add_0_r.
  - rewrite history_loop_cons by done.
    set (w1 := with_requests (requests w ++ history_checks w a) w).
    rewrite IH by exact Hw.
    change (known w1) with (known w).
    change (history_checks w1) with (history_checks w).
    change (with_requests ?l w1) with (with_requests l w).
    change (requests w1) with (requests w ++ history_checks w a).
    simpl. rewrite <- !app_assoc.
    destruct (known w a) eqn:Hk.
    + rewrite filter_cons_False by (rewrite Hk; done).
      rewrite filter_cons_True by (rewrite Hk; done).
      unfold add_deduplicated. simpl. do 3 f_equal. lia.
    + rewrite filter_cons_True by (rewrite Hk; done).
      rewrite filter_cons_False by (rewrite Hk; done).
      rewrite <- app_assoc. done.
Qed.

Lemma has_title_and_url_title (a : RawItem) :
  has_title_and_url a = true → is_Some (title a).
Proof.
  unfold has_title_and_url, Js.truthy_str.
  destruct (title a); [by eexists|done].
Qed.

(** C6.  In a world whose store serves every request, the history check
    of the candidates sends, per candidate and in candidate order, the
    exact source-URL query first and the fuzzy title query only when the
    URL query found nothing.  A candidate that matches either way is
    skipped and counted once in [deduplicated]; the others are kept in
    order.  Nothing else of the statistics and no table changes. *)
Theorem history_check_exact_then_fuzzy (allArticles : list RawItem)
    (w : World) (st : Stats) :
  healthy w → Forall (λ a, has_title_and_url a = true) allArticles →
  ∃ s',
    history_loop allArticles [] {| world := w; stats := st |}
      = (Ok (filter (λ a, known w a = false) allArticles), s') ∧
    requests (world s')
      = requests w ++ concat (history_checks w <$> allArticles) ∧
    (∀ a, history_checks w a =
          if exact_match w a then [SelectArticleByUrl (source_url a)]
          else [SelectArticleByUrl (source_url a);
                SelectRecentPublished (now w - hours 48)]) ∧
    (∀ a, known w a = exact_match w a || fuzzy_match w a) ∧
    deduplicated (stats s')
      = deduplicated st + length (filter (λ a, known w a = true) allArticles) ∧
    (fetched (stats s'), classified (stats s'), n_published (stats s'),
     n_rejected (stats s'), errors (stats s'))
      = (fetched st, classified st, n_published st, n_rejected st, errors st) ∧
    articles (world s') = articles w ∧
    ingestion_log (world s') = ingestion_log w.
Proof.
  intros Hw Hall. eexists. split.
  - rewrite history_loop_healthy; [reflexivity|done|].
    eapply Forall_impl; [exact Hall|]. apply has_title_and_url_title.
  - simpl. repeat split; done.
Qed.

(** The property above at an instance of the example run. *)
Lemma history_check_exact_then_fuzzy_witness :
  healthy Scenario.world ∧
  Forall (λ a, has_title_and_url a = true)
         (aggregate default_config Scenario.adapters) ∧
  ∃ s',
    history_loop (aggregate default_config Scenario.adapters) []
                 {| world := Scenario.world; stats := empty_stats |}
      = (Ok (filter (λ a, known Scenario.world a = false)
                    (aggregate default_config Scenario.adapters)), s') ∧
    deduplicated (stats s') = 2.
Proof.
  assert (healthy Scenario.world) as Hw by (intros k; reflexivity).
  assert (Forall (λ a, has_title_and_url a = true)
                 (aggregate default_config Scenario.adapters)) as Hall.
  { refine (bool_decide_unpack _ _). vm_compute. exact I. }
  split; [exact Hw|]. split; [exact Hall|].
  destruct (history_check_exact_then_fuzzy _ _ empty_stats Hw Hall)
    as (s' & H1 & _ & _ & _ & H2 & _).
  exists s'. split; [exact H1|]. rewrite H2. vm_compute. reflexivity.
Defined.

(** ** The aggregator *)

Lemma truthy_str_Some (v : option string) :
  Js.truthy_str v = true ↔ ∃ s, v = Some s ∧ s ≠ "".
Proof.
  destruct v as [s|]; simpl.
  - rewrite negb_true_iff, String.eqb_neq.
    split; [intros H; by exists s|by intros (s' & [= <-] & H)].
  - split; [done|by intros (s & H & _)].
Qed.

Lemma has_title_and_url_spec (a : RawItem) :
  has_title_and_url a = true ↔
  ∃ t u, title a = Some t ∧ t ≠ "" ∧ source_url a = Some u ∧ u ≠ "".
Proof.
  unfold has_title_and_url. rewrite andb_true_iff, !truthy_str_Some. split.
  - intros [(t & Ht & Hne) (u & Hu & Hne')]. by exists t, u.
  - intros (t & u & Ht & Hne & Hu & Hne'). split; [by exists t|by exists u].
Qed.

Lemma sublist_fmap_url (l1 l2 : list RawItem) :
  l1 `sublist_of` l2 → source_url <$> l1 `sublist_of` source_url <$> l2.
Proof. induction 1; simpl; by constructor. Qed.

(** The loop with [seen] keeps the first occurrences whose URL is not in
    [seen]. *)
Lemma remove_url_duplicates_first_occurrences
    (seen : gset (option string)) (l : list RawItem) :
  remove_url_duplicates seen l
  = filter (λ b, source_url b ∉ seen) (first_occurrences l).
Proof.
  revert seen. induction l as [|a rest IH]; intros seen; [done|].
  simpl. case_bool_decide as Hin.
  - rewrite filter_cons_False by (intros H; by apply H).
    rewrite IH, list_filter_filter. apply list_filter_iff.
    intros b. split; [|tauto]. intros Hb. split; [done|]. congruence.
  - rewrite filter_cons_True by done. f_equal.
    rewrite IH, list_filter_filter. apply list_filter_iff.
    intros b. rewrite not_elem_of_union, not_elem_of_singleton. tauto.
Qed.

Lemma remove_url_duplicates_empty (l : list RawItem) :
  remove_url_duplicates ∅ l = first_occurrences l.
Proof.
  rewrite remove_url_duplicates_first_occurrences.
  induction (first_occurrences l) as [|b k IH]; [done|].
  rewrite filter_cons_True by set_solver. by rewrite IH.
Qed.

Lemma first_occurrences_sublist (l : list RawItem) :
  first_occurrences l `sublist_of` l.
Proof.
  induction l as [|a rest IH]; simpl; [done|].
  apply sublist_skip. etrans; [apply sublist_filter|exact IH].
Qed.

Lemma first_occurrences_NoDup (l : list RawItem) :
  NoDup (source_url <$> first_occurrences l).
Proof.
  induction l as [|a rest IH]; simpl; [constructor|].
  constructor.
  - intros (b & Hu & Hb)%list_elem_of_fmap.
    apply list_elem_of_filter in Hb as [Hne _]. by apply Hne.
  - eapply sublist_NoDup; [exact IH|].
    apply sublist_fmap_url, sublist_filter.
Qed.




(** ** [updateFeatured] *)

Global Instance desc_nulls_first_total : Total desc_nulls_first.
Proof. intros [x|] [y|]; simpl; try tauto. lia. Qed.

Global Instance desc_nulls_first_trans : Transitive desc_nulls_first.
Proof. intros [x|] [y|] [z|]; simpl; try tauto. lia. Qed.

Global Instance featured_order_total : Total featured_order.
Proof.
  intros a b. unfold featured_order.
  destruct (Z.lt_trichotomy (row_bloom_score a) (row_bloom_score b))
    as [H|[H|H]]; [by right; left|..|by left; left].
  destruct (total desc_nulls_first (row_published_at a) (row_published_at b));
    [left|right]; right; split; done.
Qed.

Global Instance featured_order_trans : Transitive featured_order.
Proof.
  intros a b c. unfold featured_order.
  intros [H1|[H1 H1']] [H2|[H2 H2']]; try (left; lia).
  right. split; [lia|]. by etrans.
Qed.

Lemma clear_is_set_false (r : Row) :
  (if row_is_featured r then set_featured false r else r) = set_featured false r.
Proof. by destruct r as [? ? ? ? ? ? ? ? ? ? ? ? ? ? ? ? ? ? ? ? [] ? ?]. Qed.

(** The three requests of [updateFeatured] in a world that serves every
    request: the flag is cleared everywhere, the three first eligible
    records in the order of the query are selected among the cleared
    rows, and the rows whose id was selected are flagged. *)
Lemma updateFeatured_served (w : World) :
  serves 3 w →
  let t1 := set_featured false <$> articles w in
  let ids := row_id <$> take 3 (merge_sort featured_order
                                  (featured_candidates (now w) t1)) in
  ∃ w',
    updateFeatured w = (Ok (), w') ∧
    articles w'
      = (λ r, set_featured (bool_decide (row_id r ∈ ids)) r) <$> articles w ∧
    ingestion_log w' = ingestion_log w ∧ prompts w' = prompts w ∧
    faults w' = faults w ∧ now w' = now w ∧ oracle w' = oracle w ∧
    sources w' = sources w ∧ categories w' = categories w ∧
    console_error w' = console_error w.
Proof.
  intros Hw t1 ids.
  assert (faults w (length (requests w)) = NoFault) as H0.
  { rewrite <- (Nat.add_0_r (length (requests w))). apply Hw. lia. }
  assert (faults w (length (requests w) + 1) = NoFault) as H1.
  { apply Hw. lia. }
  assert (faults w (length (requests w) + 1 + 1) = NoFault) as H2.
  { rewrite <- Nat.add_assoc. apply Hw. simpl. lia. }
  assert ((λ r : Row, if row_is_featured r then set_featured false r else r)
            <$> articles w = t1) as Hclear.
  { apply list_fmap_ext. intros _ r _. apply clear_is_set_false. }
  assert ((λ r, set_featured (bool_decide (row_id r ∈ ids)) r) <$> articles w
          = (λ r, if bool_decide (row_id r ∈ ids)
                  then set_featured true r else r) <$> t1) as Hmark.
  { unfold t1. rewrite <- list_fmap_compose. apply list_fmap_ext.
    intros _ r _. simpl. by destruct (bool_decide _). }
  unfold updateFeatured.
  erewrite bind_Ok; last first.
  { unfold clear_featured. rewrite request_NoFault by exact H0.
    simpl. rewrite Hclear. reflexivity. }
  erewrite bind_Ok; [|reflexivity].
  erewrite bind_Ok; last first.
  { unfold select_top_published. rewrite request_NoFault; last first.
    { cbn [requests faults with_requests with_articles].
      rewrite length_app. exact H1. }
    simpl. reflexivity. }
  fold (featured_candidates (now w) t1). fold ids. cbv beta iota.
  case_bool_decide as Hlen.
  - erewrite bind_Ok; last first.
    { unfold mark_featured. rewrite request_NoFault; last first.
      { cbn [requests faults with_requests with_articles].
        rewrite !length_app. exact H2. }
      simpl. reflexivity. }
    eexists. split; [reflexivity|]. simpl. by rewrite Hmark.
  - eexists. split; [reflexivity|]. simpl.
    destruct ids; [|simpl in Hlen; lia].
    rewrite Hmark. split; [|done].
    symmetry. etrans; [|apply list_fmap_id]. apply list_fmap_ext.
    intros _ r _. rewrite bool_decide_eq_false_2; [done|].
    by intros ?%elem_of_nil.
Qed.

Lemma healthy_serves (k : nat) (w : World) : healthy w → serves k w.
Proof. intros Hw i _. apply Hw. Qed.

Lemma updateFeatured_healthy (w : World) :
  healthy w →
  let t1 := set_featured false <$> articles w in
  let ids := row_id <$> take 3 (merge_sort featured_order
                                  (featured_candidates (now w) t1)) in
  ∃ w',
    updateFeatured w = (Ok (), w') ∧
    articles w'
      = (λ r, set_featured (bool_decide (row_id r ∈ ids)) r) <$> articles w ∧
    ingestion_log w' = ingestion_log w ∧ prompts w' = prompts w ∧
    faults w' = faults w ∧ now w' = now w ∧ oracle w' = oracle w ∧
    sources w' = sources w ∧ categories w' = categories w ∧
    console_error w' = console_error w.
Proof. intros Hw. by apply updateFeatured_served, healthy_serves. Qed.

Lemma sublist_fmap_gen {A B} (f : A → B) (l1 l2 : list A) :
  l1 `sublist_of` l2 → f <$> l1 `sublist_of` f <$> l2.
Proof. induction 1; simpl; by constructor. Qed.

Lemma filter_fmap_comm {A B} (f : A → B) (P : B → Prop)
    `{!∀ y, Decision (P y)} (l : list A) :
  filter P (f <$> l) = f <$> filter (λ x, P (f x)) l.
Proof.
  induction l as [|x l IH]; [done|]. rewrite fmap_cons.
  destruct (decide (P (f x))).
  - rewrite !filter_cons_True by done. rewrite fmap_cons. by rewrite IH.
  - rewrite !filter_cons_False by done. exact IH.
Qed.

Lemma NoDup_fmap_eq {A B} (f : A → B) (l : list A) (x y : A) :
  NoDup (f <$> l) → x ∈ l → y ∈ l → f x = f y → x = y.
Proof.
  induction l as [|a l IH]; [by intros _ ?%elem_of_nil|].
  simpl. intros [Hnotin Hnd]%NoDup_cons.
  intros [->|Hx]%elem_of_cons [->|Hy]%elem_of_cons Hf; [done|..].
  - destruct Hnotin. rewrite Hf. by apply list_elem_of_fmap_2.
  - destruct Hnotin. rewrite <- Hf. by apply list_elem_of_fmap_2.
  - by apply IH.
Qed.

(** In a table with a key, the rows whose key is in a duplicate-free list
    of present keys are as many as the list is long. *)
Lemma filter_keys_length {A} (f : A → nat) (l : list A) (ks : list nat) :
  NoDup (f <$> l) → NoDup ks → (∀ k, k ∈ ks → k ∈ f <$> l) →
  length (filter (λ r, f r ∈ ks) l) = length ks.
Proof.
  intros Hl Hks Hin.
  rewrite <- (length_fmap f). apply Permutation_length.
  apply NoDup_Permutation; [|done|].
  - eapply sublist_NoDup; [exact Hl|]. apply sublist_fmap_gen, sublist_filter.
  - intros k. rewrite list_elem_of_fmap. split.
    + intros (r & -> & Hr). by apply list_elem_of_filter in Hr as [? _].
    + intros Hk. pose proof (Hin k Hk) as Hk'.
      apply list_elem_of_fmap in Hk' as (r & -> & Hr).
      exists r. split; [done|]. by apply list_elem_of_filter.
Qed.

(** The first three of a sorted permutation: every one of them is before
    every other element in the order. *)
Lemma top_three_of_sorted (E : list Row) :
  let sorted := merge_sort featured_order E in
  sorted ≡ₚ E ∧
  length (take 3 sorted) = Nat.min 3 (length E) ∧
  (∀ a b, a ∈ take 3 sorted → b ∈ drop 3 sorted → featured_order a b).
Proof.
  intros sorted.
  assert (sorted ≡ₚ E) as Hperm by apply merge_sort_Permutation.
  split; [done|]. split.
  - by rewrite length_take, Hperm.
  - pose proof (StronglySorted_merge_sort featured_order E) as Hss.
    fold sorted in Hss. rewrite <- (take_drop 3 sorted) in Hss.
    apply StronglySorted_app in Hss as (H & _ & _). exact H.
Qed.

(** C8 (as amended).  When the store serves the three requests of the
    call and the table has a primary key, [updateFeatured] changes nothing
    but the featured flag, and afterwards the featured records are
    published records whose publication time is no earlier than 24 hours
    before the call (the query sets no upper bound), they are three or,
    when fewer are eligible, all of those, and each of them comes at or
    before every eligible record that is not featured in the order (bloom
    score descending, published timestamp descending).  So no record
    stays featured outside that set. *)
Theorem updateFeatured_top_three (w : World) :
  serves 3 w → NoDup (row_id <$> articles w) →
  ∃ w',
    updateFeatured w = (Ok (), w') ∧
    let eligible r := is_published r && published_since (now w - hours 24) r in
    let featured' := filter (λ r, row_is_featured r = true) (articles w') in
    (∃ ids : list nat,
       articles w'
       = (λ r, set_featured (bool_decide (row_id r ∈ ids)) r)
           <$> articles w) ∧
    Forall (λ r, eligible r = true) featured' ∧
    length featured'
      = Nat.min 3 (length (featured_candidates (now w) (articles w))) ∧
    (∀ a b, a ∈ featured' → b ∈ articles w' → eligible b = true →
            row_is_featured b = false → featured_order a b).
Proof.
  intros Hw Hkey.
  destruct (updateFeatured_served w Hw) as (w' & Hrun & Htab & _).
  exists w'. split; [exact Hrun|]. simpl.
  set (T := articles w) in *.
  set (t1 := set_featured false <$> T) in *.
  set (E1 := featured_candidates (now w) t1) in *.
  set (sorted := merge_sort featured_order E1) in *.
  set (ids := row_id <$> take 3 sorted) in *.
  set (g := λ r, set_featured (bool_decide (row_id r ∈ ids)) r) in *.
  destruct (top_three_of_sorted E1) as (Hperm & Hlen & Hord).
  fold sorted in Hperm, Hlen, Hord.
  assert (E1 = set_featured false <$> featured_candidates (now w) T) as HE1.
  { unfold E1, featured_candidates, t1. by rewrite filter_fmap_comm. }
  assert (row_id <$> t1 = row_id <$> T) as Hids1.
  { unfold t1. by rewrite <- list_fmap_compose. }
  assert (∀ a0, a0 ∈ take 3 sorted →
            ∃ r, r ∈ T ∧ a0 = set_featured false r ∧
                 is_published r && published_since (now w - hours 24) r = true)
    as Htop.
  { intros a0 Ha0. eapply elem_of_sublist in Ha0; [|apply sublist_take].
    rewrite Hperm, HE1 in Ha0.
    apply list_elem_of_fmap in Ha0 as (r & -> & Hr).
    apply list_elem_of_filter in Hr as [Hel Hr].
    exists r. split; [done|]. split; [done|]. by apply Is_true_true. }
  assert (NoDup ids) as Hnd.
  { unfold ids. eapply sublist_NoDup; [|apply sublist_fmap_gen, sublist_take].
    rewrite Hperm. eapply sublist_NoDup;
      [|apply sublist_fmap_gen, sublist_filter]. by rewrite Hids1. }
  assert (∀ k, k ∈ ids → k ∈ row_id <$> T) as Hin.
  { intros k (a0 & -> & Ha0)%list_elem_of_fmap.
    destruct (Htop a0 Ha0) as (r & Hr & -> & _).
    by apply (list_elem_of_fmap_2 row_id) in Hr. }
  assert (filter (λ r, row_is_featured r = true) (articles w')
          = g <$> filter (λ r, row_id r ∈ ids) T) as Hfeat.
  { rewrite Htab, filter_fmap_comm. f_equal. apply list_filter_iff.
    intros r. simpl. by rewrite bool_decide_eq_true. }
  assert (∀ r, r ∈ T → row_id r ∈ ids →
            set_featured false r ∈ take 3 sorted ∧
            is_published r && published_since (now w - hours 24) r = true)
    as Hchosen.
  { intros r Hr (a0 & Hid & Ha0)%list_elem_of_fmap.
    destruct (Htop a0 Ha0) as (r0 & Hr0 & -> & Hel).
    assert (r = r0) as <- by by eapply (NoDup_fmap_eq row_id T).
    done. }
  split; [by exists ids|]. rewrite Hfeat. repeat split.
  - apply Forall_fmap, Forall_forall. intros r Hr.
    apply list_elem_of_filter in Hr as [Hid Hr].
    by destruct (Hchosen r Hr Hid) as [_ ?].
  - rewrite length_fmap, filter_keys_length by done.
    unfold ids. by rewrite length_fmap, Hlen, HE1, length_fmap.
  - intros a b (ra & -> & Hra)%list_elem_of_fmap Hb Hel Hnf.
    apply list_elem_of_filter in Hra as [Hida Hra].
    destruct (Hchosen ra Hra Hida) as [Hatop _].
    rewrite Htab in Hb. apply list_elem_of_fmap in Hb as (rb & -> & Hrb).
    simpl in Hnf, Hel.
    assert (set_featured false rb ∈ drop 3 sorted) as Hbrest.
    { assert (set_featured false rb ∈ sorted) as Hbs.
      { rewrite Hperm, HE1. apply list_elem_of_fmap_2.
        apply list_elem_of_filter. split; [by apply Is_true_true|done]. }
      rewrite <- (take_drop 3 sorted) in Hbs.
      apply elem_of_app in Hbs as [Hbt|?]; [|done].
      apply bool_decide_eq_false in Hnf. destruct Hnf.
      apply list_elem_of_fmap. by exists (set_featured false rb). }
    exact (Hord _ _ Hatop Hbrest).
Qed.

(** The property above at an instance of the example run. *)
Lemma updateFeatured_top_three_witness :
  serves 3 Scenario.world ∧
  NoDup (row_id <$> articles Scenario.world) ∧
  ∃ w', updateFeatured Scenario.world = (Ok (), w') ∧
        length (filter (λ r, row_is_featured r = true) (articles w')) = 1.
Proof.
  assert (serves 3 Scenario.world) as Hw by (intros k _; reflexivity).
  assert (NoDup (row_id <$> articles Scenario.world)) as Hkey.
  { refine (bool_decide_unpack _ _). vm_compute. exact I. }
  split; [exact Hw|]. split; [exact Hkey|].
  destruct (updateFeatured_top_three Scenario.world Hw Hkey)
    as (w' & Hrun & _ & _ & Hlen & _).
  exists w'. split; [exact Hrun|]. rewrite Hlen. vm_compute. reflexivity.
Defined.

(** C8, counterexample.  The clearing update is answered with an error
    object, which [updateFeatured] does not look at; the two other
    requests are served.  The call completes, and the record 1, published
    100 hours before and featured from an earlier run, is still featured
    beside the record 2, the only eligible one. *)
Lemma updateFeatured_keeps_stale_flag :
  let w := Outage.world_first_fails in
  let r := updateFeatured w in
  faults w 0 = ErrorResponse Outage.timeout ∧
  (∀ k, 0 < k → faults w k = NoFault) ∧
  NoDup (row_id <$> articles w) ∧
  r.1 = Ok () ∧
  row_id <$> featured_candidates (now w) (articles w) = [2] ∧
  row_id <$> filter (λ x, row_is_featured x = true) (articles r.2) = [1; 2] ∧
  (row_published_at <$> articles w
   = [Some (now w - hours 100)%Z; Some (now w - hours 3)%Z]) ∧
  ¬ length (filter (λ x, row_is_featured x = true) (articles r.2)) ≤ 1.
Proof.
  intros w r. split; [reflexivity|]. split.
  { intros [|k] Hk; [lia|reflexivity]. }
  split; [refine (bool_decide_unpack _ _); vm_compute; exact I|].
  split; [vm_compute; reflexivity|]. split; [vm_compute; reflexivity|].
  split; [vm_compute; reflexivity|]. split; [vm_compute; reflexivity|].
  vm_compute. lia.
Qed.

(** ** [storeArticle] *)

Lemma status_of_published (cfg : Config) (score : Z) :
  status_of cfg score = published ↔ (min_bloom_score cfg ≤ score)%Z.
Proof.
  unfold status_of. destruct (Z.leb_spec (min_bloom_score cfg) score).
  - split; [done|done].
  - split; [done|lia].
Qed.

Lemma status_of_rejected (cfg : Config) (score : Z) :
  status_of cfg score = rejected ↔ (score < min_bloom_score cfg)%Z.
Proof.
  unfold status_of. destruct (Z.leb_spec (min_bloom_score cfg) score).
  - split; [done|lia].
  - split; [done|done].
Qed.

(** [storeArticle] in a world that serves every request, for an article
    with a title and a source URL: a stored URL gives [{ skipped: true }],
    a new one a new row with the computed status, published or rejected
    alike. *)
Lemma storeArticle_healthy (cfg : Config) (a : ClassifiedItem) (w : World)
    (t u : string) :
  healthy w → title (article a) = Some t → source_url (article a) = Some u →
  let record :=
    record_of cfg (Data (option_list (sources w !! source_name (article a))))
                  (Data (option_list (categories w !! category_name a))) a in
  let w1 := with_requests
              (requests w ++ [SelectSourceByName (source_name (article a));
                              SelectCategoryBySlug (category_name a);
                              InsertArticle record]) w in
  storeArticle cfg a w =
  if bool_decide (u ∈ row_source_url <$> articles w) then (Ok RSkipped, w1)
  else (Ok (RStored (fresh_id (articles w))
                    (bool_decide (min_bloom_score cfg ≤ bloom_score a)%Z)),
        with_articles
          (articles w ++ [row_of_record (fresh_id (articles w)) t u record]) w1).
Proof.
  intros Hw Ht Hu record w1. unfold storeArticle.
  erewrite bind_Ok; last first.
  { unfold select_source_by_name. rewrite request_NoFault by apply Hw.
    simpl. reflexivity. }
  erewrite bind_Ok; last first.
  { unfold select_category_by_slug. rewrite request_NoFault by apply Hw.
    simpl. reflexivity. }
  fold record.
  erewrite bind_Ok; last first.
  { unfold insert_article. rewrite request_NoFault by apply Hw.
    simpl. rewrite Ht, Hu. reflexivity. }
  simpl. unfold w1. rewrite <- !app_assoc. simpl.
  case_bool_decide as Hin; simpl; [done|].
  unfold mret, M_ret. do 3 f_equal.
  apply bool_decide_ext. apply status_of_published.
Qed.

(** ** The feed views *)

Lemma feed_articles_elem (t : list Row) (fr : FeedRow) :
  fr ∈ feed_articles t ↔
  ∃ r, r ∈ t ∧ fr = feed_row_of r ∧
       row_status r = published ∧ (3 ≤ row_bloom_score r)%Z.
Proof.
  unfold feed_articles. rewrite merge_sort_Permutation, list_elem_of_fmap.
  split.
  - intros (r & -> & Hr). apply list_elem_of_filter in Hr as [Hin Hr].
    exists r. unfold in_feed in Hin.
    apply andb_prop_elim in Hin as [Hs Hb].
    apply bool_decide_unpack in Hs. apply Is_true_true, Z.leb_le in Hb. done.
  - intros (r & Hr & -> & Hs & Hb). exists r. split; [done|].
    apply list_elem_of_filter. split; [|done]. unfold in_feed.
    apply andb_prop_intro. split; [by apply bool_decide_pack|].
    by apply Is_true_true, Z.leb_le.
Qed.

Lemma weird_articles_feed (t : list Row) (fr : FeedRow) :
  fr ∈ weird_articles t → fr ∈ feed_articles t.
Proof. unfold weird_articles. by intros [_ ?]%list_elem_of_filter. Qed.

Lemma featured_articles_feed (t : list Row) (fr : FeedRow) :
  fr ∈ featured_articles t → fr ∈ feed_articles t.
Proof.
  unfold featured_articles. intros H.
  eapply elem_of_sublist in H; [|apply sublist_take].
  rewrite merge_sort_Permutation in H.
  by apply list_elem_of_filter in H as [_ ?].
Qed.

Lemma fetchArticles_feed category limit offset weird (t : list Row)
    (fr : FeedRow) :
  fr ∈ fetchArticles category limit offset weird t → fr ∈ feed_articles t.
Proof.
  unfold fetchArticles. intros H.
  eapply elem_of_sublist in H; [|apply sublist_take].
  eapply elem_of_sublist in H; [|apply sublist_drop].
  rewrite merge_sort_Permutation in H.
  destruct weird; [by apply weird_articles_feed|].
  destruct category as [c|]; [|done].
  destruct (_ && _); [|done].
  by apply list_elem_of_filter in H as [_ ?].
Qed.

Lemma fetchFeatured_feed (t : list Row) (fr : FeedRow) :
  fr ∈ fetchFeatured t → fr ∈ feed_articles t.
Proof.
  unfold fetchFeatured. intros H.
  eapply elem_of_sublist in H; [|apply sublist_take].
  by apply featured_articles_feed.
Qed.

Lemma fetchTrending_feed (t : list Row) (fr : FeedRow) :
  fr ∈ fetchTrending t → fr ∈ feed_articles t.
Proof.
  unfold fetchTrending. intros H.
  eapply elem_of_sublist in H; [|apply sublist_take].
  by rewrite merge_sort_Permutation in H.
Qed.

(** C7.  [storeArticle] stores a classified item with a new source URL
    whatever its score, with status [published] exactly when the bloom
    score is at least [min_bloom_score] (3 in the script's [config]) and
    [rejected] otherwise, and reports the same.  Every row of every read of
    the public feed (the three views and the three fetches of the
    frontend) is the projection of a stored row with status [published]
    and bloom score at least 3: a rejected record is in none of them. *)
Theorem publish_status_gates_feed (cfg : Config) (a : ClassifiedItem)
    (w : World) (t u : string) :
  healthy w →
  title (article a) = Some t → source_url (article a) = Some u →
  u ∉ row_source_url <$> articles w →
  min_bloom_score default_config = 3%Z ∧
  (∃ id row w',
     storeArticle cfg a w
       = (Ok (RStored id (bool_decide (min_bloom_score cfg ≤ bloom_score a)%Z)),
          w') ∧
     articles w' = articles w ++ [row] ∧
     row_id row = id ∧ row_source_url row = u ∧
     row_bloom_score row = bloom_score a ∧
     (row_status row = published
        ↔ (min_bloom_score cfg ≤ bloom_score a)%Z) ∧
     (row_status row = rejected
        ↔ (bloom_score a < min_bloom_score cfg)%Z)) ∧
  (∀ (table : list Row) (fr : FeedRow),
     fr ∈ feed_articles table ∨ fr ∈ weird_articles table ∨
     fr ∈ featured_articles table ∨
     (∃ category limit offset weird,
        fr ∈ fetchArticles category limit offset weird table) ∨
     fr ∈ fetchFeatured table ∨ fr ∈ fetchTrending table →
     ∃ r, r ∈ table ∧ fr = feed_row_of r ∧
          row_status r = published ∧ (3 ≤ row_bloom_score r)%Z).
Proof.
  intros Hw Ht Hu Hnew. split; [done|]. split.
  - eexists _, _, _. split.
    { rewrite (storeArticle_healthy cfg a w t u) by done.
      rewrite bool_decide_eq_false_2 by done. reflexivity. }
    simpl. repeat split; try done.
    + by intros ?%status_of_published.
    + by intros ?%status_of_published.
    + by intros ?%status_of_rejected.
    + by intros ?%status_of_rejected.
  - intros table fr H. apply feed_articles_elem.
    destruct H as [H|[H|[H|[(c & l & o & wd & H)|[H|H]]]]].
    + done.
    + by apply weird_articles_feed.
    + by apply featured_articles_feed.
    + by eapply fetchArticles_feed.
    + by apply fetchFeatured_feed.
    + by apply fetchTrending_feed.
Qed.

(** The property above at an instance of the example run. *)
Lemma publish_status_gates_feed_witness :
  healthy Scenario.world ∧
  title (article Scenario.low_item) = Some "Market panic spreads" ∧
  source_url (article Scenario.low_item) = Some "https://r/8" ∧
  ("https://r/8" ∉ row_source_url <$> articles Scenario.world) ∧
  ∃ id row w',
    storeArticle default_config Scenario.low_item Scenario.world
      = (Ok (RStored id false), w') ∧
    articles w' = articles Scenario.world ++ [row] ∧
    row_status row = rejected.
Proof.
  assert (healthy Scenario.world) as Hw by (intros k; reflexivity).
  assert ("https://r/8" ∉ row_source_url <$> articles Scenario.world) as Hnew.
  { refine (bool_decide_unpack _ _). vm_compute. exact I. }
  split; [exact Hw|]. split; [reflexivity|]. split; [reflexivity|].
  split; [exact Hnew|].
  destruct (publish_status_gates_feed default_config Scenario.low_item
              Scenario.world _ _ Hw eq_refl eq_refl Hnew)
    as (_ & (id & row & w' & Hrun & Htab & _ & _ & _ & _ & Hrej) & _).
  exists id, row, w'. split; [exact Hrun|]. split; [exact Htab|].
  apply Hrej. vm_compute. reflexivity.
Defined.

(** ** Computations that return *)

Section runs_facts.
Context {S : Type}.

Lemma runs_ret {A} (a : A) (s : S) (Q : A → S → Prop) :
  Q a s → runs (mret a) s Q.
Proof. intros H. by exists a, s. Qed.

Lemma runs_bind {A B} (m : M S A) (k : A → M S B) (s : S)
    (Q : A → S → Prop) (R : B → S → Prop) :
  runs m s Q → (∀ a s', Q a s' → runs (k a) s' R) → runs (m ≫= k) s R.
Proof.
  intros (a & s' & E & HQ) Hk.
  destruct (Hk a s' HQ) as (b & s'' & E' & HR).
  exists b, s''. split; [|done]. by rewrite (bind_Ok _ _ _ _ _ E).
Qed.

Lemma runs_eq {A} (m : M S A) (s : S) (a : A) (s' : S) :
  m s = (Ok a, s') → runs m s (λ b t, b = a ∧ t = s').
Proof. intros E. by exists a, s'. Qed.

Lemma runs_mono {A} (m : M S A) (s : S) (Q Q' : A → S → Prop) :
  runs m s Q → (∀ a s', Q a s' → Q' a s') → runs m s Q'.
Proof. intros (a & s' & E & HQ) H. exists a, s'. split; [done|]. by apply H. Qed.

Lemma runs_modify (f : S → S) (s : S) :
  runs (modify f) s (λ _ s', s' = f s).
Proof. by exists (), (f s). Qed.

Lemma runs_gets {A} (f : S → A) (s : S) :
  runs (gets f) s (λ a s', a = f s ∧ s' = s).
Proof. by exists (f s), s. Qed.

End runs_facts.

Lemma runs_lift {A} (m : M World A) (s : RunState) (Q : A → World → Prop) :
  runs m (world s) Q →
  runs (lift m) s (λ a s', Q a (world s') ∧ stats s' = stats s).
Proof.
  intros (a & w' & E & HQ). exists a, {| world := w'; stats := stats s |}.
  split; [|done]. unfold lift. by rewrite E.
Qed.

Lemma evolves_refl (new : list RawItem) (w : World) : evolves new w w.
Proof.
  repeat split; try done. exists []. split; [by rewrite app_nil_r|constructor].
Qed.

Lemma evolves_trans (new : list RawItem) (w1 w2 w3 : World) :
  evolves new w1 w2 → evolves new w2 w3 → evolves new w1 w3.
Proof.
  intros (Hf & Ho & Hl & (sent & Hp & Hs) & Hc)
         (Hf' & Ho' & Hl' & (sent' & Hp' & Hs') & Hc').
  repeat split; try congruence; [|lia].
  exists (sent ++ sent'). split; [by rewrite Hp', Hp, app_assoc|].
  by apply Forall_app.
Qed.

Lemma evolves_healthy (new : list RawItem) (w w' : World) :
  evolves new w w' → healthy w → healthy w'.
Proof. intros (Hf & _) Hw k. rewrite Hf. apply Hw. Qed.

(** A change of the tables or of the trace of store requests, or a
    later clock, is no change that [evolves] observes. *)
Lemma evolves_store (new : list RawItem) (w w' : World) :
  faults w' = faults w → oracle w' = oracle w →
  ingestion_log w' = ingestion_log w → prompts w' = prompts w →
  console_error w' = console_error w → evolves new w w'.
Proof.
  intros Hf Ho Hl Hp Hc. repeat split; try done; [|by rewrite Hc].
  exists []. split; [by rewrite app_nil_r|constructor].
Qed.

Lemma classifyBatch_runs (new chunk : list RawItem) (w : World) :
  (∀ a, a ∈ chunk → a ∈ new) →
  runs (classifyBatch chunk) w (λ out w',
    article <$> out = chunk ∧ evolves new w w' ∧
    articles w' = articles w ∧
    (∀ msg, oracle w chunk = Raised msg →
       Forall has_fallback_defaults out ∧
       length (console_error w') = S (length (console_error w)))).
Proof.
  intros Hsub. unfold runs. rewrite classifyBatch_unfold. simpl.
  assert (∃ sent, prompts w ++ [chunk] = prompts w ++ sent ∧
            Forall (λ c, ∀ a, a ∈ c → a ∈ new) sent) as Hsent.
  { exists [chunk]. split; [done|]. by constructor. }
  destruct (classify_try _ _ _) as [msg|out] eqn:E.
  - eexists _, _. split; [done|]. split; [apply article_fallback_of|].
    split; [|split; [done|]].
    + repeat split; try done. simpl. rewrite length_app. simpl. lia.
    + intros _ _. split; [apply fallback_of_defaults|].
      simpl. rewrite length_app. simpl. lia.
  - eexists _, _. split; [done|].
    split; [by eapply article_classify_try|]. split; [|split; [done|]].
    + repeat split; done.
    + intros msg Hmsg. rewrite Hmsg in E. done.
Qed.

(** ** The classification loop *)

Lemma take_drop_chunk {A} (n i : nat) (l : list A) :
  take n (drop i l) ++ drop (i + n) l = drop i l.
Proof. by rewrite <- drop_drop, take_drop. Qed.

(** With a positive batch size and fuel for the articles that are left,
    the loop returns one classified item per article from index [i] on,
    in order, counts them in [stats.classified] and touches no other
    counter and not the error list. *)
Lemma classify_loop_runs (cfg : Config) (new : list RawItem) (fuel : nat) :
  0 < batch_size cfg →
  ∀ (i : nat) (acc : list ClassifiedItem) (s : RunState),
    length new - i ≤ fuel →
    runs (classify_loop cfg fuel new i acc) s (λ out s',
      article <$> out = (article <$> acc) ++ drop i new ∧
      evolves new (world s) (world s') ∧
      articles (world s') = articles (world s) ∧
      classified (stats s') = classified (stats s) + (length new - i) ∧
      (fetched (stats s'), n_published (stats s'), n_rejected (stats s'),
       deduplicated (stats s'), errors (stats s'))
        = (fetched (stats s), n_published (stats s), n_rejected (stats s),
           deduplicated (stats s), errors (stats s)) ∧
      ((∀ chunk, ∃ msg, oracle (world s) chunk = Raised msg) →
         (i < length new →
            length (console_error (world s))
              < length (console_error (world s'))) ∧
         (Forall has_fallback_defaults acc →
            Forall has_fallback_defaults out))).
Proof.
  intros Hbs. induction fuel as [|fuel IH]; intros i acc s Hfuel.
  - simpl. rewrite bool_decide_eq_false_2 by lia.
    apply runs_ret. rewrite drop_ge by lia.
    rewrite app_nil_r. repeat split; try done; try lia.
    apply evolves_refl.
  - simpl. case_bool_decide as Hi; last first.
    { apply runs_ret. rewrite drop_ge by lia.
      rewrite app_nil_r. repeat split; try done; try lia.
      apply evolves_refl. }
    set (batch := take (batch_size cfg) (drop i new)).
    assert (∀ a, a ∈ batch → a ∈ new) as Hsub.
    { intros a Ha. eapply elem_of_sublist; [exact Ha|].
      etrans; [apply sublist_take|apply sublist_drop]. }
    assert (length batch = Nat.min (batch_size cfg) (length new - i)) as Hlen.
    { unfold batch. by rewrite length_take, length_drop. }
    eapply runs_bind.
    { apply runs_lift, (classifyBatch_runs new batch); exact Hsub. }
    simpl. intros results s1 ((Hart & Hev1 & Htab1 & Hraised) & Hst1).
    assert (length results = length batch) as Hres.
    { by rewrite <- Hart, length_fmap. }
    eapply runs_bind; [apply runs_modify|].
    simpl. intros _ s2 ->.
    eapply runs_bind with
      (Q := λ _ s3, stats s3 = add_classified (length results) (stats s) ∧
                    evolves new (world s1) (world s3) ∧
                    articles (world s3) = articles (world s) ∧
                    length (console_error (world s3))
                      = length (console_error (world s1))).
    { case_bool_decide.
      - eapply runs_mono; [apply runs_lift, runs_modify|].
        simpl. intros _ s3 [-> ->]. simpl. rewrite Hst1.
        split; [done|]. split; [by apply evolves_store|done].
      - apply runs_ret. simpl. rewrite Hst1. split; [done|].
        split; [apply evolves_refl|done]. }
    simpl. intros _ s3 (Hst3 & Hev3 & Htab3 & Hcon3).
    eapply runs_mono; [apply (IH (i + batch_size cfg)); lia|].
    simpl. intros out s' (Hout & Hev & Htab & Hcls & Hrest & Hfall).
    rewrite Hst3 in Hcls, Hrest. simpl in Hcls, Hrest.
    split; [|split; [|split; [|split; [|split]]]].
    + rewrite Hout, fmap_app, Hart, <- app_assoc. f_equal.
      apply take_drop_chunk.
    + eapply evolves_trans; [exact Hev1|].
      eapply evolves_trans; [exact Hev3|exact Hev].
    + congruence.
    + rewrite Hcls, Hres, Hlen. lia.
    + exact Hrest.
    + intros Hall.
      assert (∀ chunk, ∃ msg, oracle (world s3) chunk = Raised msg) as Hall3.
      { intros chunk. destruct Hev1 as (_ & Ho1 & _).
        destruct Hev3 as (_ & Ho3 & _). rewrite Ho3, Ho1. apply Hall. }
      destruct (Hfall Hall3) as [Hcon Hdef].
      destruct (Hall batch) as [msg Hmsg].
      destruct (Hraised msg Hmsg) as [Hfb Hcon1].
      split.
      * intros _. destruct Hev as (_ & _ & _ & _ & Hle). lia.
      * intros Hacc. apply Hdef. by apply Forall_app.
Qed.

(** ** The store loop *)

Lemma storeArticle_runs (cfg : Config) (new : list RawItem)
    (a : ClassifiedItem) (w : World) :
  healthy w → has_title_and_url (article a) = true →
  runs (storeArticle cfg a) w (λ res w',
    (res = RSkipped ∨ ∃ id p, res = RStored id p) ∧ evolves new w w').
Proof.
  intros Hw (t & u & Ht & _ & Hu & _)%has_title_and_url_spec.
  unfold runs. rewrite (storeArticle_healthy cfg a w t u) by done.
  case_bool_decide.
  - eexists _, _. split; [done|]. split; [by left|]. by apply evolves_store.
  - eexists _, _. split; [done|]. split; [right; by eexists _, _|].
    by apply evolves_store.
Qed.

(** In a world that serves every request, every classified item with a
    title and a source URL ends in exactly one of the counters
    [published], [rejected] and [deduplicated], and none in the error
    list. *)
Lemma store_loop_runs (cfg : Config) (new : list RawItem)
    (l : list ClassifiedItem) :
  ∀ s : RunState,
    healthy (world s) →
    Forall (λ c, has_title_and_url (article c) = true) l →
    runs (store_loop cfg l) s (λ _ s',
      evolves new (world s) (world s') ∧
      (fetched (stats s'), classified (stats s'), errors (stats s'))
        = (fetched (stats s), classified (stats s), errors (stats s)) ∧
      n_published (stats s') + n_rejected (stats s') + deduplicated (stats s')
        = n_published (stats s) + n_rejected (stats s)
          + deduplicated (stats s) + length l).
Proof.
  induction l as [|a l IH]; intros s Hw Hall.
  - apply runs_ret. split; [apply evolves_refl|]. split; [done|]. simpl. lia.
  - apply Forall_cons in Hall as [Ha Hall]. simpl.
    eapply runs_bind; [by apply runs_lift, (storeArticle_runs cfg new)|].
    simpl. intros res s1 ((Hres & Hev1) & Hst1).
    eapply runs_bind; [apply runs_modify|].
    simpl. intros _ s2 ->.
    eapply runs_mono.
    { apply IH; [|exact Hall]. simpl. by eapply evolves_healthy. }
    simpl. intros _ s' (Hev & Hsame & Hsum).
    split; [by eapply evolves_trans|].
    rewrite Hst1 in Hsame, Hsum.
    destruct Hres as [->|(id & [] & ->)]; simpl in *; (split; [done|lia]).
Qed.

Lemma insert_ingestion_log_healthy (row : LogRow) (w : World) :
  healthy w →
  insert_ingestion_log row w =
  (Ok (Data ()),
   with_ingestion_log (ingestion_log w ++ [row])
     (with_requests (requests w ++ [InsertIngestionLog row]) w)).
Proof.
  intros Hw. unfold insert_ingestion_log.
  by rewrite request_NoFault by apply Hw.
Qed.

Lemma updateFeatured_runs (new : list RawItem) (w : World) :
  healthy w → runs updateFeatured w (λ _ w', evolves new w w').
Proof.
  intros Hw.
  destruct (updateFeatured_healthy w Hw)
    as (w' & Hrun & _ & Hl & Hp & Hf & _ & Ho & _ & _ & Hc).
  exists (), w'. split; [done|]. by apply evolves_store.
Qed.

(** ** The run *)

Lemma aggregate_valid (cfg : Config) (src : Adapters) :
  Forall (λ a, has_title_and_url a = true) (aggregate cfg src).
Proof.
  apply Forall_forall. intros a Ha. unfold aggregate in Ha.
  eapply elem_of_sublist in Ha; [|apply sublist_take].
  rewrite remove_url_duplicates_empty in Ha.
  eapply elem_of_sublist in Ha; [|apply first_occurrences_sublist].
  apply list_elem_of_filter in Ha as [Ha _]. by apply Is_true_true.
Qed.

Lemma known_split_length (w : World) (l : list RawItem) :
  length (filter (λ a, known w a = true) l)
  + length (filter (λ a, known w a = false) l) = length l.
Proof.
  induction l as [|a l IH]; [done|].
  destruct (known w a) eqn:E.
  - rewrite filter_cons_True, filter_cons_False by (by rewrite E).
    simpl. lia.
  - rewrite filter_cons_False, filter_cons_True by (by rewrite E).
    simpl. lia.
Qed.

(** The [try] block of [run] in a world that serves every request. *)
Lemma run_try_runs (cfg : Config) (src : Adapters) (w : World) (st : Stats) :
  healthy w → 0 < batch_size cfg →
  let all := aggregate cfg src in
  let new := filter (λ a, known w a = false) all in
  runs (run_try cfg src) {| world := w; stats := st |} (λ c s',
    evolves new w (world s') ∧
    fetched (stats s') = length all ∧
    n_published (stats s') + n_rejected (stats s') + deduplicated (stats s')
      = n_published st + n_rejected st + deduplicated st + length all ∧
    errors (stats s') = errors st ∧
    match new with
    | [] =>
        c = Returned ∧ classified (stats s') = classified st ∧
        world s' = with_requests
                     (requests w ++ concat (history_checks w <$> all)) w
    | _ :: _ =>
        c = Completed ∧ classified (stats s') = classified st + length new ∧
        ((∀ chunk, ∃ msg, oracle w chunk = Raised msg) →
           length (console_error w) < length (console_error (world s')))
    end).
Proof.
  intros Hw Hbs all new. unfold run_try. fold all.
  eapply runs_bind; [apply runs_modify|].
  simpl. intros _ s1 ->.
  pose proof (known_split_length w all) as Hsplit. fold new in Hsplit.
  eapply runs_bind.
  { apply runs_eq, history_loop_healthy; [done|].
    eapply Forall_impl; [apply aggregate_valid|].
    apply has_title_and_url_title. }
  simpl. fold new. intros newArticles s2 [-> ->].
  set (w2 := with_requests _ w).
  assert (evolves new w w2) as Hev2 by by apply evolves_store.
  case_bool_decide as Hlen.
  - apply runs_ret. simpl. destruct new; [|done].
    simpl in Hsplit. split; [exact Hev2|]. split; [done|].
    split; [lia|]. done.
  - destruct new as [|a0 new0] eqn:Enew; [done|]. rewrite <- Enew in *.
    eapply runs_bind.
    { apply (classify_loop_runs cfg new); [done|lia]. }
    simpl. intros classified_ s3 (Hart & Hev3 & _ & Hcls & Hrest & Hfall).
    injection Hrest as Hf3 Hp3 Hr3 Hd3 He3.
    eapply runs_bind.
    { apply (store_loop_runs cfg new).
      - eapply evolves_healthy; [exact Hev3|done].
      - assert (Forall (λ a, has_title_and_url a = true)
                  (article <$> classified_)) as Hval.
        { rewrite Hart, drop_0. apply Forall_forall. intros a Ha.
          apply list_elem_of_filter in Ha as [_ Ha].
          revert a Ha. apply Forall_forall, aggregate_valid. }
        by apply Forall_fmap in Hval. }
    simpl. intros _ s4 (Hev4 & Hsame4 & Hsum4).
    injection Hsame4 as Hf4 Hc4 He4.
    eapply runs_bind.
    { apply runs_lift, (updateFeatured_runs new).
      eapply evolves_healthy; [exact Hev4|].
      eapply evolves_healthy; [exact Hev3|done]. }
    simpl. intros _ s5 (Hev5 & Hst5).
    apply runs_ret. rewrite Hst5.
    assert (length classified_ = length new) as Hlc.
    { by rewrite <- (length_fmap article), Hart, drop_0. }
    assert (evolves new w (world s5)) as Hev.
    { eapply evolves_trans; [exact Hev2|].
      eapply evolves_trans; [exact Hev3|].
      eapply evolves_trans; [exact Hev4|exact Hev5]. }
    rewrite Enew. rewrite <- Enew.
    split; [exact Hev|]. split; [congruence|]. split; [lia|].
    split; [congruence|]. split; [done|]. split; [lia|].
    intros Hall. destruct (Hfall Hall) as [Hcon _].
    assert (length (console_error w2) < length (console_error (world s3)))
      as Hlt by (apply Hcon; rewrite Enew; simpl; lia).
    destruct Hev4 as (_ & _ & _ & _ & Hle4).
    destruct Hev5 as (_ & _ & _ & _ & Hle5). simpl in Hlt. lia.
Qed.

Lemma run_unfold (cfg : Config) (src : Adapters) (w : World) :
  run cfg src w =
  match try_catch (run_try cfg src) run_catch
          {| world := w; stats := empty_stats |} with
  | (Ok Returned, s1) => (Ok (), s1)
  | (Ok Completed, s1) =>
      let row := log_row_of (stats s1)
                   (Js.round_div (now (world s1) - now w) 1000) in
      match insert_ingestion_log row (world s1) with
      | (Ok _, w') => (Ok (), {| world := w'; stats := stats s1 |})
      | (Thrown e, w') => (Thrown e, {| world := w'; stats := stats s1 |})
      | (Diverged, w') => (Diverged, {| world := w'; stats := stats s1 |})
      end
  | (Thrown e, s1) => (Thrown e, s1)
  | (Diverged, s1) => (Diverged, s1)
  end.
Proof.
  unfold run, run_main, gets, lift. unfold mbind, M_bind, mret, M_ret. simpl.
  destruct (try_catch _ _ _) as [[[]|e|] s1]; try done.
  simpl. by destruct (insert_ingestion_log _ _) as [[?|?|] ?].
Qed.

(** A [try] block that throws: [catch] records the message, and the audit
    row is written when the store serves that insert. *)
Lemma run_thrown_writes_audit (cfg : Config) (src : Adapters) (w : World)
    (e : string) (s1 : RunState) :
  run_try cfg src {| world := w; stats := empty_stats |} = (Thrown e, s1) →
  faults (world s1) (length (requests (world s1))) = NoFault →
  ∃ s' d,
    run cfg src w = (Ok (), s') ∧
    stats s' = push_error e (stats s1) ∧
    ingestion_log (world s')
      = ingestion_log (world s1) ++ [log_row_of (stats s') d] ∧
    log_errors (log_row_of (stats s') d) = Some (errors (stats s1) ++ [e]).
Proof.
  intros Htry Hnf. rewrite run_unfold.
  rewrite (try_catch_Thrown _ _ _ _ _ Htry).
  unfold run_catch, lift, console_error_log, modify_stats, modify.
  unfold mbind, M_bind, mret, M_ret. simpl.
  unfold insert_ingestion_log. rewrite request_NoFault by exact Hnf. simpl.
  eexists _, _. split; [reflexivity|]. simpl. split; [done|]. split; [done|].
  rewrite bool_decide_eq_true_2; [done|]. rewrite length_app. simpl. lia.
Qed.

(** The store rejects the first history check: the exception reaches the
    [catch] of [run], which records it, and the audit row is written with
    the counters as they stood. *)
Example run_store_down_writes_audit :
  let r := run default_config Scenario.adapters Scenario.world_store_down in
  r.1 = Ok () ∧
  ingestion_log (world r.2)
    = [ {| log_source := "all"; articles_fetched := 10;
           articles_classified := 0; articles_published := 0;
           articles_rejected := 0; articles_deduplicated := 0;
           log_errors := Some ["fetch failed"]; duration_seconds := 0 |} ] ∧
  console_error (world r.2) = ["Pipeline error: fetch failed"].
Proof. vm_compute. repeat split; reflexivity. Qed.

(** With [batch_size] 0 the loop over the chunks does not end. *)
Example run_without_batch_size_diverges :
  (run Scenario.config_no_batch Scenario.adapters Scenario.world).1 = Diverged.
Proof. vm_compute. reflexivity. Qed.

(** A run in a world that serves every request: it returns; without a
    new article it leaves the audit log as it was, with one it appends
    one row built from the final statistics. *)
Lemma run_healthy (cfg : Config) (src : Adapters) (w : World) :
  healthy w → 0 < batch_size cfg →
  let all := aggregate cfg src in
  let new := filter (λ a, known w a = false) all in
  ∃ s',
    run cfg src w = (Ok (), s') ∧
    fetched (stats s') = length all ∧
    n_published (stats s') + n_rejected (stats s') + deduplicated (stats s')
      = length all ∧
    errors (stats s') = [] ∧
    (∃ sent, prompts (world s') = prompts w ++ sent ∧
             Forall (λ chunk, ∀ a, a ∈ chunk → a ∈ new) sent) ∧
    match new with
    | [] =>
        classified (stats s') = 0 ∧
        ingestion_log (world s') = ingestion_log w ∧
        requests (world s')
          = requests w ++ concat (history_checks w <$> all)
    | _ :: _ =>
        classified (stats s') = length new ∧
        (∃ d, ingestion_log (world s')
              = ingestion_log w ++ [log_row_of (stats s') d]) ∧
        ((∀ chunk, ∃ msg, oracle w chunk = Raised msg) →
           length (console_error w) < length (console_error (world s')))
    end.
Proof.
  intros Hw Hbs all new.
  destruct (run_try_runs cfg src w empty_stats Hw Hbs)
    as (c & s1 & Htry & Hev & Hf & Hsum & Herr & Hcase).
  fold all new in Hev, Hf, Hsum, Hcase. simpl in Hsum, Herr.
  rewrite run_unfold, (try_catch_Ok _ _ _ _ _ Htry).
  destruct Hev as (Hfa & Ho & Hl & Hsent & Hcon).
  destruct new as [|a0 new0].
  - destruct Hcase as (-> & Hcls & Hworld).
    exists s1. split; [done|]. split; [done|]. split; [done|].
    split; [done|]. split; [done|].
    split; [done|]. split; [done|]. by rewrite Hworld.
  - destruct Hcase as (-> & Hcls & Hraised).
    assert (healthy (world s1)) as Hw1 by (intros k; rewrite Hfa; apply Hw).
    simpl. rewrite insert_ingestion_log_healthy by done.
    eexists. split; [reflexivity|]. simpl.
    split; [done|]. split; [done|]. split; [done|]. split; [done|].
    split; [done|]. split; [|done].
    eexists. by rewrite Hl.
Qed.

Lemma history_checks_no_audit (w : World) (l : list RawItem) (row : LogRow) :
  InsertIngestionLog row ∉ concat (history_checks w <$> l).
Proof.
  induction l as [|a l IH]; simpl; [by intros ?%elem_of_nil|].
  intros [Hrow|?]%elem_of_app; [|done].
  unfold history_checks in Hrow. destruct (exact_match w a).
  - apply list_elem_of_singleton in Hrow. done.
  - apply elem_of_cons in Hrow as [?|Hrow]; [done|].
    apply list_elem_of_singleton in Hrow. done.
Qed.

(** C2 (what the code does at the failing input).  In a world whose store
    serves every request, a run in which no fetched article survives the
    history check executes [return] inside the [try] block: [run] returns
    normally, the only store requests it has sent are the history checks,
    none of them is the insert into [ingestion_log], and the audit log is
    what it was before the run.  The claim says that this run too ends by
    writing one audit record. *)
Theorem run_without_new_article_skips_audit (cfg : Config) (src : Adapters)
    (w : World) :
  healthy w →
  filter (λ a, known w a = false) (aggregate cfg src) = [] →
  ∃ s',
    run cfg src w = (Ok (), s') ∧
    ingestion_log (world s') = ingestion_log w ∧
    requests (world s')
      = requests w ++ concat (history_checks w <$> aggregate cfg src) ∧
    (∀ row, InsertIngestionLog row
            ∉ concat (history_checks w <$> aggregate cfg src)) ∧
    fetched (stats s') = length (aggregate cfg src) ∧
    deduplicated (stats s') = length (aggregate cfg src).
Proof.
  intros Hw Hnone.
  pose proof (known_split_length w (aggregate cfg src)) as Hsplit.
  rewrite Hnone in Hsplit. simpl in Hsplit.
  assert (run_try cfg src {| world := w; stats := empty_stats |}
          = (Ok Returned,
             {| world := with_requests
                  (requests w
                   ++ concat (history_checks w <$> aggregate cfg src)) w;
                stats := add_deduplicated
                  (length (filter (λ a, known w a = true) (aggregate cfg src)))
                  (set_fetched (length (aggregate cfg src)) empty_stats) |}))
    as Htry.
  { unfold run_try.
    erewrite bind_Ok; [|reflexivity].
    erewrite bind_Ok; last first.
    { apply history_loop_healthy; [done|].
      eapply Forall_impl; [apply aggregate_valid|].
      apply has_title_and_url_title. }
    cbn [world stats]. rewrite Hnone. simpl. reflexivity. }
  rewrite run_unfold, (try_catch_Ok _ _ _ _ _ Htry).
  eexists. split; [reflexivity|]. simpl.
  split; [done|]. split; [done|].
  split; [intros row; apply history_checks_no_audit|].
  split; [done|]. lia.
Qed.

(** The property above at an instance of the example run. *)
Lemma run_without_new_article_skips_audit_witness :
  healthy Scenario.world ∧
  filter (λ a, known Scenario.world a = false)
         (aggregate default_config Scenario.adapters_known) = [] ∧
  ∃ s',
    run default_config Scenario.adapters_known Scenario.world = (Ok (), s') ∧
    ingestion_log (world s') = [].
Proof.
  assert (healthy Scenario.world) as Hw by (intros k; reflexivity).
  assert (filter (λ a, known Scenario.world a = false)
            (aggregate default_config Scenario.adapters_known) = []) as Hnone.
  { vm_compute. reflexivity. }
  split; [exact Hw|]. split; [exact Hnone|].
  destruct (run_without_new_article_skips_audit default_config
              Scenario.adapters_known Scenario.world Hw Hnone)
    as (s' & Hrun & Hlog & _).
  exists s'. split; [exact Hrun|]. exact Hlog.
Defined.




Lemma similar_is_known (w : World) (a : RawItem) (t : string) (r : Row)
    (p : Z) (q : Q) :
  title a = Some t →
  r ∈ articles w → row_status r = published →
  row_published_at r = Some p → (now w - hours 48 ≤ p)%Z →
  similarity_over_counts t (row_title r) = Some q → (6 # 10 <= q)%Q →
  fuzzy_match w a = true.
Proof.
  intros Ht Hr Hst Hp Hrecent Hsim Hq. unfold fuzzy_match. rewrite Ht.
  apply bool_decide_eq_true, Exists_exists. exists r. split.
  - apply list_elem_of_filter. split; [|done].
    apply andb_prop_intro. split.
    + unfold published_since. rewrite Hp. by apply Is_true_true, Z.leb_le.
    + by apply bool_decide_pack.
  - apply Is_true_true. by eapply similarity_over_counts_code.
Qed.

(** C5 (as amended).  Let a candidate of the run have title T1 and let a
    stored record with status [published] and a publication time no
    earlier than 48 hours ago have title T2.  If the size of the
    intersection of the two token sets over the larger of the two token
    counts, each title's tokens counted with their repeats, is at least
    0.6 (tokens lower-cased, split at whitespace, those of length at most
    3 dropped), and the store serves every request of the run, the
    candidate is a duplicate: [findSimilar] returns a record for its
    title, it is not among the new articles, and the run sends it to the
    oracle in no chunk. *)
Theorem similar_recent_title_is_duplicate (cfg : Config) (src : Adapters)
    (w : World) (a : RawItem) (t : string) (r : Row) (p : Z) (q : Q) :
  healthy w → 0 < batch_size cfg →
  a ∈ aggregate cfg src → title a = Some t →
  r ∈ articles w → row_status r = published →
  row_published_at r = Some p → (now w - hours 48 ≤ p)%Z →
  similarity_over_counts t (row_title r) = Some q → (6 # 10 <= q)%Q →
  known w a = true ∧
  (∃ e w', findSimilar (title a) default_threshold w = (Ok (Some e), w')) ∧
  (a ∉ filter (λ b, known w b = false) (aggregate cfg src)) ∧
  ∃ s' sent,
    run cfg src w = (Ok (), s') ∧
    prompts (world s') = prompts w ++ sent ∧
    Forall (λ chunk, a ∉ chunk) sent.
Proof.
  intros Hw Hbs Ha Ht Hr Hst Hp Hrecent Hsim Hq.
  assert (fuzzy_match w a = true) as Hfuzzy by by eapply similar_is_known.
  assert (known w a = true) as Hknown.
  { unfold known. rewrite Hfuzzy. by destruct (exact_match w a). }
  split; [exact Hknown|]. split; [|split].
  - rewrite Ht, findSimilar_unfold, (healthy_NoFault _ _ Hw). simpl.
    apply (first_similar_fuzzy t w a Ht) in Hfuzzy as [e He].
    rewrite He. by eexists _, _.
  - intros [Hk _]%list_elem_of_filter. congruence.
  - destruct (run_healthy cfg src w Hw Hbs)
      as (s' & Hrun & _ & _ & _ & (sent & Hp' & Hsent) & _).
    exists s', sent. split; [done|]. split; [done|].
    eapply Forall_impl; [exact Hsent|]. simpl. intros chunk Hchunk Hin.
    apply Hchunk, list_elem_of_filter in Hin as [Hk _]. congruence.
Qed.

(** The property above at an instance of the example run. *)
Lemma similar_recent_title_is_duplicate_witness :
  let a := Scenario.item Scenario.long_title "https://n/2" "BBC"
                         (Scenario.t0 - 2000) in
  let r := Scenario.stored 2 Scenario.stored_title "https://old/2"
                           (Scenario.t0 - hours 3) in
  healthy Scenario.world ∧ 0 < batch_size default_config ∧
  a ∈ aggregate default_config Scenario.adapters ∧
  r ∈ articles Scenario.world ∧
  (now Scenario.world - hours 48 ≤ Scenario.t0 - hours 3)%Z ∧
  similarity_over_counts Scenario.long_title (row_title r) = Some (13 # 20) ∧
  (6 # 10 <= 13 # 20)%Q ∧
  known Scenario.world a = true.
Proof.
  intros a r.
  assert (healthy Scenario.world) as Hw by (intros k; reflexivity).
  assert (0 < batch_size default_config) as Hbs by (simpl; lia).
  assert (a ∈ aggregate default_config Scenario.adapters) as Ha.
  { apply list_elem_of_lookup. exists 1. vm_compute. reflexivity. }
  assert (r ∈ articles Scenario.world) as Hr.
  { right. left. }
  assert (now Scenario.world - hours 48 ≤ Scenario.t0 - hours 3)%Z as Hrecent.
  { vm_compute. discriminate. }
  assert (similarity_over_counts Scenario.long_title (row_title r)
          = Some (13 # 20)) as Hsim by (vm_compute; reflexivity).
  assert (6 # 10 <= 13 # 20)%Q as Hq by (vm_compute; discriminate).
  repeat (split; [assumption|]).
  exact (proj1 (similar_recent_title_is_duplicate default_config
                  Scenario.adapters Scenario.world a Scenario.long_title r
                  (Scenario.t0 - hours 3) (13 # 20)
                  Hw Hbs Ha eq_refl Hr eq_refl eq_refl Hrecent Hsim Hq)).
Defined.

(** C5, counterexample.  The claim as it is worded fails in two ways.
    With the tokens of a title read as its token set, the candidate
    "Solar farm" and the recent published title "Solar solar solar farm"
    have similarity 2/2, but the code divides by the four tokens of the
    stored title, finds 2/4 below the threshold, and the candidate is
    sent to the oracle although the store serves every request.  And when
    the store answers the queries with error objects, the second
    candidate of the example run, whose similarity with a recent
    published title is 13/20 however the tokens are counted, is sent to
    the oracle too. *)
Lemma similar_title_reaches_classifier :
  (let a := Repeats.candidate in
   let r := Repeats.stored_row in
   healthy Repeats.world ∧
   a ∈ aggregate default_config Repeats.adapters ∧
   title a = Some "Solar farm" ∧
   r ∈ articles Repeats.world ∧ row_status r = published ∧
   row_published_at r = Some (Scenario.t0 - hours 3)%Z ∧
   (now Repeats.world - hours 48 ≤ Scenario.t0 - hours 3)%Z ∧
   spec_similarity "Solar farm" (row_title r) = Some (2 # 2) ∧
   (6 # 10 <= 2 # 2)%Q ∧
   similarity (tokens "Solar farm") (tokens (row_title r)) = Js.Fin (2 # 4) ∧
   known Repeats.world a = false ∧
   (findSimilar (title a) default_threshold Repeats.world).1 = Ok None ∧
   prompts (world (run default_config Repeats.adapters Repeats.world).2)
     = [[a]]) ∧
  (let a := Scenario.item Scenario.long_title "https://n/2" "BBC"
                          (Scenario.t0 - 2000) in
   let r := Scenario.stored 2 Scenario.stored_title "https://old/2"
                            (Scenario.t0 - hours 3) in
   a ∈ aggregate default_config Scenario.adapters ∧
   r ∈ articles Outage.world_erroring ∧ row_status r = published ∧
   (now Outage.world_erroring - hours 48 ≤ Scenario.t0 - hours 3)%Z ∧
   spec_similarity Scenario.long_title (row_title r) = Some (13 # 20) ∧
   similarity_over_counts Scenario.long_title (row_title r)
     = Some (13 # 20) ∧
   (6 # 10 <= 13 # 20)%Q ∧
   (findSimilar (title a) default_threshold Outage.world_erroring).1
     = Ok None ∧
   (run default_config Scenario.adapters Outage.world_erroring).1 = Ok () ∧
   prompts (world (run default_config Scenario.adapters
                       Outage.world_erroring).2)
     = [aggregate default_config Scenario.adapters]).
Proof.
  split.
  - intros a r. split; [intros k; reflexivity|].
    split; [left|]. split; [reflexivity|]. split; [left|].
    split; [reflexivity|]. split; [reflexivity|].
    split; [vm_compute; discriminate|].
    split; [vm_compute; reflexivity|]. split; [vm_compute; discriminate|].
    split; [vm_compute; reflexivity|]. split; [vm_compute; reflexivity|].
    split; vm_compute; reflexivity.
  - intros a r. split.
    { apply list_elem_of_lookup. exists 1. vm_compute. reflexivity. }
    split; [right; left|]. split; [reflexivity|].
    split; [vm_compute; discriminate|].
    split; [vm_compute; reflexivity|]. split; [vm_compute; reflexivity|].
    split; [vm_compute; discriminate|].
    split; [vm_compute; reflexivity|]. split; vm_compute; reflexivity.
Qed.

(** ** The end-to-end scenario *)

(** C3, counterexample.  Three adapters return 5, 0 (a failure) and 7
    items with 2 exact-URL overlaps, so that 12 items are fetched and 10
    are unique; one of them has the URL of a stored record and one a
    title of similarity 13/20 = 0.65 with a recent published one; the
    classifier scores the other eight [5,4,3,2,1,5,4,3] and
    [min_bloom_score] is 3.  The statistics of the run are not
    fetched=12, deduplicated=4: [stats.fetched] is the number of unique
    items, 10, and [stats.deduplicated] counts the two history matches
    only. *)
Lemma scenario_stats_are_not_12_and_4 :
  let st := stats (run default_config Scenario.adapters Scenario.world).2 in
  length Scenario.newsapi_items = 5 ∧
  guardian Scenario.adapters = Rejected "simulated failure" ∧
  length Scenario.rss_items = 7 ∧
  length (adapter_outputs Scenario.adapters) = 12 ∧
  length (aggregate default_config Scenario.adapters) = 10 ∧
  length (filter (λ a, exact_match Scenario.world a = true)
                 (aggregate default_config Scenario.adapters)) = 1 ∧
  length (filter (λ a, fuzzy_match Scenario.world a = true)
                 (aggregate default_config Scenario.adapters)) = 1 ∧
  similarity (tokens Scenario.long_title) (tokens Scenario.stored_title)
    = Js.Fin (13 # 20) ∧
  min_bloom_score default_config = 3%Z ∧
  fetched st = 10 ∧ deduplicated st = 2 ∧
  ¬ (fetched st = 12 ∧ deduplicated st = 4 ∧ classified st = 8 ∧
     n_published st = 6 ∧ n_rejected st = 2).
Proof.
  vm_compute. repeat split; try reflexivity.
  intros (H & _). discriminate H.
Qed.

Lemma runs_and {S A} (m : M S A) (s : S) (Q Q' : A → S → Prop) :
  runs m s Q → runs m s Q' → runs m s (λ a s', Q a s' ∧ Q' a s').
Proof.
  intros (a & s' & E & HQ) (a' & s'' & E' & HQ').
  rewrite E in E'. injection E' as <- <-. by exists a, s'.
Qed.

Lemma aggregate_NoDup (cfg : Config) (src : Adapters) :
  NoDup (source_url <$> aggregate cfg src).
Proof.
  unfold aggregate. rewrite remove_url_duplicates_empty.
  eapply sublist_NoDup; [apply first_occurrences_NoDup|].
  apply sublist_fmap_url, sublist_take.
Qed.

Lemma exact_match_false_fresh (w : World) (a : RawItem) (u : string) :
  exact_match w a = false → source_url a = Some u →
  u ∉ row_source_url <$> articles w.
Proof.
  intros Hex Hu (r & -> & Hr)%list_elem_of_fmap.
  apply bool_decide_eq_false in Hex. apply Hex.
  apply Exists_exists. exists r. by rewrite Hu.
Qed.

(** The store loop on classified items whose source URLs are distinct and
    not in the table: every item is inserted, and counted as published
    or rejected by its score. *)
Lemma store_loop_counts (cfg : Config) (l : list ClassifiedItem) :
  ∀ s : RunState,
    healthy (world s) →
    Forall (λ c, has_title_and_url (article c) = true) l →
    NoDup ((λ c, source_url (article c)) <$> l) →
    (∀ c u, c ∈ l → source_url (article c) = Some u →
            u ∉ row_source_url <$> articles (world s)) →
    runs (store_loop cfg l) s (λ _ s',
      n_published (stats s')
        = n_published (stats s)
          + length (filter (λ c, (min_bloom_score cfg ≤ bloom_score c)%Z) l) ∧
      n_rejected (stats s')
        = n_rejected (stats s)
          + length (filter (λ c, (bloom_score c < min_bloom_score cfg)%Z) l) ∧
      deduplicated (stats s') = deduplicated (stats s)).
Proof.
  induction l as [|a l IH]; intros s Hw Hall Hnd Hfresh.
  - apply runs_ret. simpl. lia.
  - apply Forall_cons in Hall as [Ha Hall].
    rewrite fmap_cons in Hnd. apply NoDup_cons in Hnd as [Hnotin Hnd].
    pose proof Ha as (t & u & Ht & _ & Hu & _)%has_title_and_url_spec.
    assert (u ∉ row_source_url <$> articles (world s)) as Hu'.
    { eapply Hfresh; [left|done]. }
    simpl.
    eapply runs_bind.
    { apply runs_lift, runs_eq. rewrite (storeArticle_healthy cfg a _ t u)
        by done. rewrite bool_decide_eq_false_2 by done. reflexivity. }
    simpl. intros res s1 ([-> Hw1] & Hst1).
    eapply runs_bind; [apply runs_modify|].
    simpl. intros _ s2 ->.
    eapply runs_mono.
    { apply IH; simpl; [by rewrite Hw1|done|done|].
      intros c v Hc Hv. rewrite Hw1. simpl. rewrite fmap_app. simpl.
      intros [Hin|Hin%list_elem_of_singleton]%elem_of_app.
      - eapply Hfresh; [by right|done|done].
      - apply Hnotin. apply list_elem_of_fmap. exists c.
        split; [|done]. rewrite Hv, Hu. by rewrite Hin. }
    simpl. intros _ s' (Hp & Hr & Hd). rewrite Hst1 in Hp, Hr, Hd.
    destruct (decide (min_bloom_score cfg ≤ bloom_score a)%Z) as [Hge|Hlt].
    + rewrite bool_decide_eq_true_2 in Hp, Hr, Hd by done. simpl in *.
      rewrite filter_cons_True by done.
      rewrite (filter_cons_False (λ c, (bloom_score c < _)%Z)) by lia.
      simpl. lia.
    + rewrite bool_decide_eq_false_2 in Hp, Hr, Hd by done. simpl in *.
      rewrite filter_cons_False by done.
      rewrite (filter_cons_True (λ c, (bloom_score c < _)%Z)) by lia.
      simpl. lia.
Qed.

Lemma classify_loop_done (cfg : Config) (fuel : nat) (new : list RawItem)
    (i : nat) (acc : list ClassifiedItem) :
  length new ≤ i → classify_loop cfg fuel new i acc = mret acc.
Proof.
  intros Hi. destruct fuel; simpl; by rewrite bool_decide_eq_false_2 by lia.
Qed.

(** The new articles fit in one chunk and the oracle answers it with an
    array: the loop returns what the [try] branch builds from it. *)
Lemma classify_loop_single_chunk (cfg : Config) (new : list RawItem)
    (l : list (option Classification)) (s : RunState) :
  0 < length new → length new ≤ batch_size cfg →
  oracle (world s) new = Parsed (ReplyArray l) →
  runs (classify_loop cfg (length new) new 0 []) s (λ out _,
    out = imap (λ i a, classified_of (now (world s)) (l !! i) a) new).
Proof.
  intros Hpos Hfit Horacle.
  destruct (length new) as [|n] eqn:Hlen; [lia|]. simpl.
  rewrite Hlen. rewrite bool_decide_eq_true_2 by lia.
  rewrite take_ge by (rewrite length_drop; lia). rewrite drop_0.
  eapply runs_bind.
  { apply runs_lift, runs_eq. rewrite classifyBatch_unfold, Horacle.
    simpl. reflexivity. }
  simpl. intros results s1 ([-> _] & _).
  eapply runs_bind; [apply runs_modify|].
  simpl. intros _ s2 _.
  rewrite bool_decide_eq_false_2 by lia.
  eapply runs_bind; [apply runs_eq; reflexivity|].
  simpl. intros _ s3 _.
  rewrite classify_loop_done by lia. by apply runs_ret.
Qed.

Lemma imap_bloom_scores (t : Z) (l : list (option Classification))
    (new : list RawItem) :
  length l = length new →
  bloom_score <$> imap (λ i a, classified_of t (l !! i) a) new
  = (λ e, or_int (e ≫= c_bloom_score) 3) <$> l.
Proof.
  revert new. induction l as [|e l IH]; intros [|a new] Hlen; try done.
  rewrite imap_cons, !fmap_cons. f_equal.
  apply (IH new). simpl in Hlen. lia.
Qed.

Lemma known_false_exact (w : World) (a : RawItem) :
  known w a = false → exact_match w a = false.
Proof. unfold known. by intros [? _]%orb_false_elim. Qed.

(** The counters of the [try] block when the new articles fit in one
    chunk that the oracle answers with an array [l] of their number: the
    scores decide between published and rejected, and [deduplicated]
    counts the history matches only. *)
Lemma run_try_counts (cfg : Config) (src : Adapters) (w : World)
    (l : list (option Classification)) :
  let all := aggregate cfg src in
  let new := filter (λ a, known w a = false) all in
  let scores := (λ e, or_int (e ≫= c_bloom_score) 3) <$> l in
  healthy w → 0 < length new → length new ≤ batch_size cfg →
  oracle w new = Parsed (ReplyArray l) → length l = length new →
  runs (run_try cfg src) {| world := w; stats := empty_stats |} (λ c s',
    n_published (stats s')
      = length (filter (λ n, (min_bloom_score cfg ≤ n)%Z) scores) ∧
    n_rejected (stats s')
      = length (filter (λ n, (n < min_bloom_score cfg)%Z) scores) ∧
    deduplicated (stats s') = length all - length new).
Proof.
  intros all new scores Hw Hpos Hfit Horacle Hlen. unfold run_try. fold all.
  eapply runs_bind; [apply runs_modify|].
  simpl. intros _ s1 ->.
  pose proof (known_split_length w all) as Hsplit. fold new in Hsplit.
  eapply runs_bind.
  { apply runs_eq, history_loop_healthy; [done|].
    eapply Forall_impl; [apply aggregate_valid|].
    apply has_title_and_url_title. }
  simpl. fold new. intros newArticles s2 [-> ->].
  rewrite bool_decide_eq_false_2 by lia.
  set (w2 := with_requests _ w).
  set (st2 := add_deduplicated _ _).
  eapply runs_bind.
  { apply runs_and.
    - apply (classify_loop_runs cfg new (length new)); lia.
    - by apply (classify_loop_single_chunk cfg new l). }
  simpl. intros out s3 ((Hart & Hev3 & Htab3 & _ & Hrest & _) & Hout).
  injection Hrest as _ Hp3 Hr3 Hd3 _. rewrite drop_0 in Hart.
  assert (healthy (world s3)) as Hw3 by by eapply evolves_healthy.
  assert (Forall (λ c, has_title_and_url (article c) = true) out) as Hval.
  { assert (Forall (λ a, has_title_and_url a = true) (article <$> out)) as H.
    { rewrite Hart. apply Forall_forall. intros a Ha.
      apply list_elem_of_filter in Ha as [_ Ha].
      revert a Ha. apply Forall_forall, aggregate_valid. }
    by apply Forall_fmap in H. }
  eapply runs_bind.
  { apply runs_and.
    - by apply (store_loop_runs cfg new).
    - apply store_loop_counts; [done|done|..].
      + rewrite (list_fmap_compose article source_url), Hart.
        eapply sublist_NoDup; [apply (aggregate_NoDup cfg src)|].
        apply sublist_fmap_url, sublist_filter.
      + intros c u Hc Hu. rewrite Htab3. simpl.
        apply (exact_match_false_fresh w (article c)); [|done].
        apply known_false_exact.
        apply (list_elem_of_fmap_2 article) in Hc. rewrite Hart in Hc.
        by apply list_elem_of_filter in Hc as [? _]. }
  simpl. intros _ s4 ((Hev4 & _) & Hp4 & Hr4 & Hd4).
  eapply runs_bind.
  { apply runs_lift, (updateFeatured_runs new). by eapply evolves_healthy. }
  simpl. intros _ s5 (_ & Hst5). apply runs_ret. rewrite Hst5.
  assert (bloom_score <$> out = scores) as Hscores.
  { rewrite Hout. by apply imap_bloom_scores. }
  rewrite <- Hscores, !filter_fmap_comm, !length_fmap.
  rewrite Hp4, Hr4, Hd4, Hp3, Hr3, Hd3. simpl. split; [done|].
  split; [done|]. lia.
Qed.

Lemma run_completed (cfg : Config) (src : Adapters) (w : World)
    (s1 : RunState) :
  run_try cfg src {| world := w; stats := empty_stats |} = (Ok Completed, s1) →
  healthy (world s1) →
  ∃ s' d,
    run cfg src w = (Ok (), s') ∧ stats s' = stats s1 ∧
    ingestion_log (world s')
      = ingestion_log (world s1) ++ [log_row_of (stats s1) d].
Proof.
  intros Htry Hw1. rewrite run_unfold, (try_catch_Ok _ _ _ _ _ Htry).
  simpl. rewrite insert_ingestion_log_healthy by done.
  by eexists _, _.
Qed.

(** C3 (as amended).  In every run that fits the end-to-end scenario — a
    store that serves every request, chunks of 10, [min_bloom_score] 3,
    adapters that return 12 items of which 10 are unique, 2 of these
    matched by history (exactly or by title), and a classifier that
    scores the other 8 with [5,4,3,2,1,5,4,3] — the statistics record
    fetched=10 (the unique items), deduplicated=2 (the history matches;
    the intra-batch repeats are not counted), classified=8, published=6,
    rejected=2, no error, and the audit row holds the same numbers. *)
Theorem scenario_run_statistics (cfg : Config) (src : Adapters) (w : World)
    (l : list (option Classification)) :
  healthy w → batch_size cfg = 10 → min_bloom_score cfg = 3%Z →
  length (adapter_outputs src) = 12 →
  length (aggregate cfg src) = 10 →
  length (filter (λ a, known w a = true) (aggregate cfg src)) = 2 →
  oracle w (filter (λ a, known w a = false) (aggregate cfg src))
    = Parsed (ReplyArray l) →
  (λ e, e ≫= c_bloom_score) <$> l = Some <$> [5; 4; 3; 2; 1; 5; 4; 3]%Z →
  ∃ s' d,
    run cfg src w = (Ok (), s') ∧
    fetched (stats s') = 10 ∧ deduplicated (stats s') = 2 ∧
    classified (stats s') = 8 ∧ n_published (stats s') = 6 ∧
    n_rejected (stats s') = 2 ∧ errors (stats s') = [] ∧
    ingestion_log (world s')
      = ingestion_log w ++
        [ {| log_source := "all"; articles_fetched := 10;
             articles_classified := 8; articles_published := 6;
             articles_rejected := 2; articles_deduplicated := 2;
             log_errors := None; duration_seconds := d |} ].
Proof.
  intros Hw Hbs Hmin _ Hall Hknown Horacle Hscores.
  pose proof (known_split_length w (aggregate cfg src)) as Hsplit.
  set (new := filter (λ a, known w a = false) (aggregate cfg src)) in *.
  assert (length new = 8) as Hnew by lia.
  assert (length l = 8) as Hl.
  { apply (f_equal length) in Hscores. by rewrite !length_fmap in Hscores. }
  assert ((λ e, or_int (e ≫= c_bloom_score) 3) <$> l
          = [5; 4; 3; 2; 1; 5; 4; 3]%Z) as Hsc.
  { trans ((λ o, or_int o 3) <$> ((λ e, e ≫= c_bloom_score) <$> l)).
    - by rewrite <- list_fmap_compose.
    - by rewrite Hscores. }
  destruct (runs_and _ _ _ _
              (run_try_runs cfg src w empty_stats Hw ltac:(lia))
              (run_try_counts cfg src w l Hw ltac:(fold new; lia)
                 ltac:(fold new; lia) Horacle ltac:(fold new; lia)))
    as (c & s1 & Htry & (Hev & Hf & _ & Herr & Hcase) & Hp & Hr & Hd).
  fold new in Hev, Hcase, Hd. rewrite Hsc, Hmin in Hp, Hr.
  destruct new as [|a0 new0] eqn:Enew; [done|].
  destruct Hcase as (-> & Hcls & _).
  assert (healthy (world s1)) as Hw1 by by eapply evolves_healthy.
  destruct (run_completed cfg src w s1 Htry Hw1) as (s' & d & Hrun & Hst & Hlog).
  exists s', d. split; [exact Hrun|]. rewrite Hst.
  assert (fetched (stats s1) = 10) as E1 by congruence.
  assert (deduplicated (stats s1) = 2) as E2 by (rewrite Hd, Hall, Hnew; done).
  assert (classified (stats s1) = 8) as E3 by (rewrite Hcls, Hnew; done).
  assert (n_published (stats s1) = 6) as E4 by (rewrite Hp; reflexivity).
  assert (n_rejected (stats s1) = 2) as E5 by (rewrite Hr; reflexivity).
  simpl in Herr.
  repeat (split; [assumption|]).
  destruct Hev as (_ & _ & Hlog1 & _). rewrite Hlog, Hlog1.
  unfold log_row_of. by rewrite E1, E2, E3, E4, E5, Herr.
Qed.

(** The property above at an instance of the example run. *)
Lemma scenario_run_statistics_witness :
  healthy Scenario.world ∧
  batch_size default_config = 10 ∧ min_bloom_score default_config = 3%Z ∧
  length (adapter_outputs Scenario.adapters) = 12 ∧
  length (aggregate default_config Scenario.adapters) = 10 ∧
  length (filter (λ a, known Scenario.world a = true)
                 (aggregate default_config Scenario.adapters)) = 2 ∧
  ∃ s' d,
    run default_config Scenario.adapters Scenario.world = (Ok (), s') ∧
    fetched (stats s') = 10 ∧ deduplicated (stats s') = 2 ∧
    classified (stats s') = 8 ∧ n_published (stats s') = 6 ∧
    n_rejected (stats s') = 2 ∧
    ingestion_log (world s')
      = [ {| log_source := "all"; articles_fetched := 10;
             articles_classified := 8; articles_published := 6;
             articles_rejected := 2; articles_deduplicated := 2;
             log_errors := None; duration_seconds := d |} ].
Proof.
  assert (healthy Scenario.world) as Hw by (intros k; reflexivity).
  assert (length (adapter_outputs Scenario.adapters) = 12) as H12
    by reflexivity.
  assert (length (aggregate default_config Scenario.adapters) = 10) as H10
    by (vm_compute; reflexivity).
  assert (length (filter (λ a, known Scenario.world a = true)
                    (aggregate default_config Scenario.adapters)) = 2) as H2
    by (vm_compute; reflexivity).
  split; [exact Hw|]. split; [reflexivity|]. split; [reflexivity|].
  split; [exact H12|]. split; [exact H10|]. split; [exact H2|].
  destruct (scenario_run_statistics default_config Scenario.adapters
              Scenario.world (Scenario.scored <$> [5; 4; 3; 2; 1; 5; 4; 3]%Z)
              Hw eq_refl eq_refl H12 H10 H2 eq_refl eq_refl)
    as (s' & d & Hrun & E1 & E2 & E3 & E4 & E5 & _ & Hlog).
  exists s', d. repeat (split; [assumption|]). exact Hlog.
Defined.

(** * Further properties of the code *)

(** ** Tokens *)

Lemma all_chars_app (P : ascii → bool) (s1 s2 : string) :
  all_chars P (s1 +:+ s2) = all_chars P s1 && all_chars P s2.
Proof.
  induction s1 as [|c s1 IH]; simpl; [done|].
  by rewrite IH, andb_assoc.
Qed.

(** The pieces of [split] are made of the code units of the string that
    are not whitespace. *)
Lemma split_go_chars (P : ascii → bool) (s cur : string) (in_gap : bool) :
  all_chars (λ c, Js.is_space c || P c) s = true →
  all_chars P cur = true →
  Forall (λ piece, all_chars P piece = true) (Js.split_go cur in_gap s).
Proof.
  revert cur in_gap. induction s as [|c s IH]; intros cur in_gap Hs Hcur.
  - simpl. by constructor.
  - simpl in Hs. apply andb_true_iff in Hs as [Hc Hs]. simpl.
    destruct (Js.is_space c) eqn:Hsp.
    + destruct in_gap; [by apply IH|]. constructor; [done|by apply IH].
    + apply IH; [done|]. rewrite all_chars_app, Hcur. simpl.
      simpl in Hc. by rewrite Hc.
Qed.

Lemma lower_char_not_upper (c : ascii) : is_upper (Js.lower_char c) = false.
Proof. by destruct c as [[] [] [] [] [] [] [] []]. Qed.

Lemma toLowerCase_not_upper (s : string) :
  all_chars (λ c, negb (is_upper c)) (Js.toLowerCase s) = true.
Proof.
  induction s as [|c s IH]; simpl; [done|].
  by rewrite lower_char_not_upper, IH.
Qed.

Lemma all_chars_impl (P Q : ascii → bool) (s : string) :
  (∀ c, P c = true → Q c = true) →
  all_chars P s = true → all_chars Q s = true.
Proof.
  intros HPQ. induction s as [|c s IH]; simpl; [done|].
  intros [Hc Hs]%andb_true_iff. by rewrite (HPQ c Hc), IH.
Qed.

Lemma all_chars_true (P : ascii → bool) (s : string) :
  (∀ c, P c = true) → all_chars P s = true.
Proof. intros HP. induction s as [|c s IH]; simpl; [done|]. by rewrite HP, IH. Qed.

(** X1.  Every token that [findSimilar] compares has more than three code
    units, contains no whitespace and no ASCII capital letter. *)
Theorem tokens_shape (t tok : string) :
  tok ∈ tokens t →
  3 < String.length tok ∧
  all_chars (λ c, negb (Js.is_space c)) tok = true ∧
  all_chars (λ c, negb (is_upper c)) tok = true.
Proof.
  unfold tokens. intros [Hlen Hin]%list_elem_of_filter.
  split; [done|]. unfold Js.split_ws in Hin. split.
  - refine (proj1 (Forall_forall
      (λ piece, all_chars (λ c, negb (Js.is_space c)) piece = true) _) _ _ Hin).
    apply split_go_chars; [|done].
    apply all_chars_true. intros c. by destruct (Js.is_space c).
  - refine (proj1 (Forall_forall
      (λ piece, all_chars (λ c, negb (is_upper c)) piece = true) _) _ _ Hin).
    apply split_go_chars; [|done].
    eapply all_chars_impl; [|apply toLowerCase_not_upper].
    intros c ->. apply orb_true_r.
Qed.

(** The property above on a title with capitals and runs of blanks. *)
Lemma tokens_shape_witness :
  "solar" ∈ tokens "  New  SOLAR farm " ∧ 3 < String.length "solar".
Proof.
  assert ("solar" ∈ tokens "  New  SOLAR farm ") as H.
  { apply list_elem_of_lookup. exists 0. vm_compute. reflexivity. }
  split; [exact H|]. exact (proj1 (tokens_shape _ _ H)).
Defined.

(** ** Read time *)

Lemma round_div_200_small (n : Z) :
  (0 ≤ n < 500)%Z → (Js.round_div n 200 ≤ 2)%Z.
Proof.
  intros Hn. unfold Js.round_div.
  apply Z.lt_succ_r, Z.div_lt_upper_bound; lia.
Qed.

Lemma round_div_200_large (n : Z) :
  (2900 ≤ n)%Z → (15 ≤ Js.round_div n 200)%Z.
Proof.
  intros Hn. unfold Js.round_div. apply Z.div_le_lower_bound; lia.
Qed.

Lemma round_div_mono (n m d : Z) :
  (0 < d)%Z → (n ≤ m)%Z → (Js.round_div n d ≤ Js.round_div m d)%Z.
Proof.
  intros Hd Hnm. unfold Js.round_div. apply Z.div_le_mono; lia.
Qed.

Lemma estimateReadTime_Some (s : string) :
  s ≠ "" →
  estimateReadTime (Some s)
  = Z.max 2 (Z.min 15 (Js.round_div (Z.of_nat (length (Js.split_ws s))) 200)).
Proof.
  intros Hs. unfold estimateReadTime.
  assert (Js.truthy_str (Some s) = true) as ->; [|done].
  apply truthy_str_Some. by exists s.
Qed.

(** X2.  The read time estimate is always between 2 and 15 minutes, and
    it is 3 minutes for a missing or empty text. *)
Theorem estimateReadTime_bounds (text : option string) :
  (2 ≤ estimateReadTime text ≤ 15)%Z ∧
  estimateReadTime None = 3%Z ∧ estimateReadTime (Some "") = 3%Z.
Proof.
  split; [|done]. unfold estimateReadTime.
  destruct (Js.truthy_str text); lia.
Qed.

(** X3.  For a non-empty text the estimate depends on the number of
    pieces between runs of whitespace only: it is the floor of 2 minutes
    below 500 pieces, the cap of 15 minutes from 2900 pieces on, and it
    never decreases when the number of pieces grows. *)
Theorem estimateReadTime_by_pieces (s : string) :
  s ≠ "" →
  let n := length (Js.split_ws s) in
  (n < 500 → estimateReadTime (Some s) = 2%Z) ∧
  (2900 ≤ n → estimateReadTime (Some s) = 15%Z) ∧
  (∀ s', s' ≠ "" → n ≤ length (Js.split_ws s') →
         (estimateReadTime (Some s) ≤ estimateReadTime (Some s'))%Z).
Proof.
  intros Hs n. rewrite (estimateReadTime_Some s Hs). fold n.
  split; [|split].
  - intros Hn. pose proof (round_div_200_small (Z.of_nat n)). lia.
  - intros Hn. pose proof (round_div_200_large (Z.of_nat n)). lia.
  - intros s' Hs' Hle. rewrite (estimateReadTime_Some s' Hs').
    pose proof (round_div_mono (Z.of_nat n)
                  (Z.of_nat (length (Js.split_ws s'))) 200).
    lia.
Qed.

(** The property above on a short excerpt. *)
Lemma estimateReadTime_by_pieces_witness :
  "Solar farm opens" ≠ "" ∧ estimateReadTime (Some "Solar farm opens") = 2%Z.
Proof.
  assert ("Solar farm opens" ≠ "") as H by done.
  split; [exact H|].
  apply (proj1 (estimateReadTime_by_pieces "Solar farm opens" H)).
  vm_compute. lia.
Defined.

(** ** Similarity of titles *)

Lemma overlap_le (words existingWords : list string) :
  overlap words existingWords ≤ length words.
Proof. apply length_filter. Qed.

Lemma filter_all {A} (P : A → Prop) `{!∀ x, Decision (P x)} (l : list A) :
  Forall P l → filter P l = l.
Proof.
  induction 1 as [|x l Hx _ IH]; [done|].
  rewrite filter_cons_True by done. by rewrite IH.
Qed.

Lemma overlap_self (words : list string) : overlap words words = length words.
Proof.
  unfold overlap. f_equal. apply filter_all, Forall_forall. auto.
Qed.

Lemma Zpos_of_nat_S (b : nat) : Z.pos (Pos.of_nat (S b)) = Z.of_nat (S b).
Proof. rewrite <- Pos.of_nat_succ, Zpos_P_of_succ_nat. lia. Qed.

Lemma div_range (a b : nat) :
  a ≤ b →
  match Js.div a b with
  | Js.NaN => a = 0 ∧ b = 0
  | Js.Infinity => False
  | Js.Fin q => (0 <= q)%Q ∧ (q <= 1)%Q
  end.
Proof.
  intros Hab. destruct b as [|b]; cbn [Js.div].
  - destruct a; [done|lia].
  - unfold Qle. cbn [Qnum Qden]. rewrite Zpos_of_nat_S. lia.
Qed.

(** X4.  The similarity of two token lists is a fraction between 0 and 1,
    or it is [NaN], which happens exactly when neither list has a token;
    it is never infinite. *)
Theorem similarity_range (words existingWords : list string) :
  match similarity words existingWords with
  | Js.NaN => words = [] ∧ existingWords = []
  | Js.Infinity => False
  | Js.Fin q => (0 <= q)%Q ∧ (q <= 1)%Q ∧ (words ≠ [] ∨ existingWords ≠ [])
  end.
Proof.
  unfold similarity.
  pose proof (overlap_le words existingWords) as Hle.
  pose proof (div_range (overlap words existingWords)
                (Nat.max (length words) (length existingWords))) as H.
  destruct (Js.div _ _) eqn:E.
  - destruct H as [_ H]; [lia|].
    split; apply length_zero_iff_nil; lia.
  - apply H. lia.
  - destruct H as [H1 H2]; [lia|]. split; [done|]. split; [done|].
    destruct words; [|by left]. destruct existingWords; [|by right].
    discriminate E.
Qed.

Lemma similarity_self (words : list string) (thr : Q) :
  words ≠ [] → (thr <= 1)%Q → Js.ge (similarity words words) thr = true.
Proof.
  intros Hne Hthr. unfold similarity. rewrite overlap_self, Nat.max_id.
  destruct words as [|x words]; [done|]. cbn [length Js.div Js.ge].
  apply Qle_bool_iff. eapply Qle_trans; [exact Hthr|].
  unfold Qle. cbn [Qnum Qden]. rewrite Zpos_of_nat_S. lia.
Qed.

(** X5.  A candidate whose title has the tokens of a recent published
    record, at least one of them, is reported as similar at every
    threshold up to 1: titles that differ in letter case or in the
    whitespace between the words only are always matched. *)
Theorem findSimilar_same_tokens (w : World) (t : string) (r : Row) (thr : Q) :
  faults w (length (requests w)) = NoFault →
  r ∈ recent_published w →
  tokens (row_title r) = tokens t → tokens t ≠ [] → (thr <= 1)%Q →
  ∃ e w', findSimilar (Some t) thr w = (Ok (Some e), w').
Proof.
  intros Hf Hr Htok Hne Hthr. rewrite findSimilar_unfold, Hf. simpl.
  destruct (first_similar _ _ _) as [e|] eqn:E; [by eauto|].
  exfalso. eapply is_Some_None. rewrite <- E.
  apply first_similar_Exists, Exists_fmap, Exists_exists.
  exists r. split; [done|]. simpl. rewrite Htok.
  by apply similarity_self.
Qed.

(** The property above on a title that differs from a stored one in case
    and spacing. *)
Lemma findSimilar_same_tokens_witness :
  let r := Scenario.stored 2 Scenario.stored_title "https://old/2"
                           (Scenario.t0 - hours 3) in
  let t := "  TOK01 tok02  Tok03 tok04 tok05 tok06 tok07 tok08 tok09 tok10 tok11 tok12 tok13 " in
  r ∈ recent_published Scenario.world ∧ tokens (row_title r) = tokens t ∧
  ∃ e w', findSimilar (Some t) default_threshold Scenario.world
          = (Ok (Some e), w').
Proof.
  intros r t.
  assert (r ∈ recent_published Scenario.world) as Hr.
  { apply list_elem_of_lookup. exists 0. vm_compute. reflexivity. }
  assert (tokens (row_title r) = tokens t) as Ht by (vm_compute; reflexivity).
  split; [exact Hr|]. split; [exact Ht|].
  apply (findSimilar_same_tokens Scenario.world t r default_threshold);
    [reflexivity|exact Hr|exact Ht|vm_compute; discriminate
    |vm_compute; discriminate].
Defined.

Lemma first_similar_first (words : list string) (thr : Q)
    (data : list (nat * string)) (e : nat * string) :
  first_similar words thr data = Some e →
  ∃ pre post,
    data = pre ++ e :: post ∧
    Js.ge (similarity words (tokens e.2)) thr = true ∧
    Forall (λ x, Js.ge (similarity words (tokens x.2)) thr = false) pre.
Proof.
  induction data as [|x data IH]; simpl; [done|].
  destruct (Js.ge (similarity words (tokens x.2)) thr) eqn:E.
  - intros [= <-]. by exists [], data.
  - intros (pre & post & -> & He & Hpre)%IH.
    exists (x :: pre), post. split; [done|]. split; [done|].
    by constructor.
Qed.

(** X6.  The record [findSimilar] returns is the first one, in the order
    the store lists the recent published records, whose similarity reaches
    the threshold: every record before it stays below. *)
Theorem findSimilar_first_match (w w' : World) (t : string) (thr : Q)
    (e : nat * string) :
  findSimilar (Some t) thr w = (Ok (Some e), w') →
  ∃ pre post,
    (λ r, (row_id r, row_title r)) <$> recent_published w = pre ++ e :: post ∧
    Js.ge (similarity (tokens t) (tokens e.2)) thr = true ∧
    Forall (λ x, Js.ge (similarity (tokens t) (tokens x.2)) thr = false) pre.
Proof.
  rewrite findSimilar_unfold. simpl.
  destruct (faults w (length (requests w))); [|done|done].
  intros [= H _]. by apply first_similar_first.
Qed.

(** The property above in the example world. *)
Lemma findSimilar_first_match_witness :
  ∃ pre post,
    (λ r, (row_id r, row_title r)) <$> recent_published Scenario.world
      = pre ++ (2, Scenario.stored_title) :: post ∧
    Forall (λ x, Js.ge (similarity (tokens Scenario.long_title) (tokens x.2))
                       default_threshold = false) pre.
Proof.
  destruct (findSimilar_first_match Scenario.world
              (with_requests
                 [SelectRecentPublished (Scenario.t0 - hours 48)] Scenario.world)
              Scenario.long_title default_threshold
              (2, Scenario.stored_title))
    as (pre & post & H1 & _ & H2); [vm_compute; reflexivity|].
  by exists pre, post.
Defined.

(** ** The history check when the store fails *)

Lemma history_loop_store_errors (allArticles newArticles : list RawItem)
    (w : World) (st : Stats) :
  store_errors w → Forall (λ a, is_Some (title a)) allArticles →
  history_loop allArticles newArticles {| world := w; stats := st |} =
  (Ok (newArticles ++ allArticles),
   {| world := with_requests
        (requests w ++
         concat ((λ a, [SelectArticleByUrl (source_url a);
                        SelectRecentPublished (now w - hours 48)])
                 <$> allArticles)) w;
      stats := st |}).
Proof.
  intros Hw Hall. revert newArticles w Hw.
  induction Hall as [|a rest [t Ht] _ IH]; intros newArticles w Hw.
  - simpl. unfold mret, M_ret. rewrite !app_nil_r. by destruct w.
  - simpl history_loop.
    destruct (Hw (length (requests w))) as [e1 He1].
    erewrite bind_Ok; last first.
    { unfold lift. simpl. rewrite isDuplicate_unfold, He1. reflexivity. }
    cbv beta iota.
    destruct (Hw (length (requests w ++ [SelectArticleByUrl (source_url a)])))
      as [e2 He2].
    erewrite bind_Ok; last first.
    { unfold lift. cbn [world stats]. rewrite Ht, findSimilar_unfold.
      cbn [requests faults with_requests now]. rewrite He2. reflexivity. }
    cbv beta iota.
    rewrite IH by exact Hw.
    cbn [requests with_requests now]. rewrite fmap_cons. simpl concat.
    rewrite <- !app_assoc. simpl. reflexivity.
Qed.

(** X7.  The history check fails open: when the store answers the
    duplicate queries with error objects, no article is treated as known,
    so every fetched article goes on to classification and the
    deduplication counter does not move. *)
Theorem history_check_fails_open (allArticles : list RawItem) (w : World)
    (st : Stats) :
  store_errors w →
  Forall (λ a, has_title_and_url a = true) allArticles →
  ∃ s',
    history_loop allArticles [] {| world := w; stats := st |}
      = (Ok allArticles, s') ∧
    stats s' = st ∧ articles (world s') = articles w ∧
    length (requests (world s')) = length (requests w) + 2 * length allArticles.
Proof.
  intros Hw Hall. eexists. split.
  - apply history_loop_store_errors; [done|].
    eapply Forall_impl; [exact Hall|]. apply has_title_and_url_title.
  - cbn [world stats requests articles with_requests]. split; [done|].
    split; [done|]. rewrite length_app. f_equal.
    induction allArticles as [|a l IH]; [done|].
    rewrite fmap_cons. simpl. rewrite IH by by inversion Hall. lia.
Qed.

(** The property above on the example run with a failing store: the
    first article is let through although its URL is stored. *)
Lemma history_check_fails_open_witness :
  store_errors Outage.world_erroring ∧
  exact_match Outage.world_erroring
    (Scenario.item "Solar farm opens" "https://n/1" "Reuters"
                   (Scenario.t0 - 1000)) = true ∧
  ∃ s',
    history_loop (aggregate default_config Scenario.adapters) []
                 {| world := Outage.world_erroring; stats := empty_stats |}
      = (Ok (aggregate default_config Scenario.adapters), s') ∧
    deduplicated (stats s') = 0.
Proof.
  assert (store_errors Outage.world_erroring) as Hw.
  { intros k. by exists Outage.timeout. }
  split; [exact Hw|]. split; [vm_compute; reflexivity|].
  destruct (history_check_fails_open
              (aggregate default_config Scenario.adapters)
              Outage.world_erroring empty_stats Hw)
    as (s' & H1 & H2 & _); [apply aggregate_valid|].
  exists s'. split; [exact H1|]. rewrite H2. reflexivity.
Defined.

(** ** [storeArticle] under any behaviour of the store *)

(** What one call can do to the world, whatever the store answers: the
    tables other than [articles] stay, and [articles] stays or gets one
    row for the URL of the article, with a new key. *)
Lemma storeArticle_cases (cfg : Config) (a : ClassifiedItem) (w : World)
    (o : Outcome StoreResult) (w' : World) :
  storeArticle cfg a w = (o, w') →
  (faults w' = faults w ∧ oracle w' = oracle w ∧
   ingestion_log w' = ingestion_log w ∧ prompts w' = prompts w ∧
   now w' = now w ∧ sources w' = sources w ∧ categories w' = categories w) ∧
  ((articles w' = articles w ∧
    ((∃ msg k, o = Thrown msg ∧ faults w k = Rejects msg) ∨
     (o = Ok RSkipped ∧ console_error w' = console_error w) ∨
     (∃ msg, o = Ok (RError msg) ∧
             console_error w'
               = console_error w ++ ["Insert failed: " +:+ msg])))
   ∨
   (∃ t u record,
      title (article a) = Some t ∧ source_url (article a) = Some u ∧
      (u ∉ row_source_url <$> articles w) ∧
      faults w (length (requests w) + 2) = NoFault ∧
      record = record_of cfg
        (match faults w (length (requests w)) with
         | NoFault => Data (option_list (sources w !! source_name (article a)))
         | ErrorResponse e => Err e
         | Rejects _ => Data []
         end)
        (match faults w (length (requests w) + 1) with
         | NoFault => Data (option_list (categories w !! category_name a))
         | ErrorResponse e => Err e
         | Rejects _ => Data []
         end) a ∧
      o = Ok (RStored (fresh_id (articles w))
                      (bool_decide (rec_status record = published))) ∧
      articles w'
        = articles w ++ [row_of_record (fresh_id (articles w)) t u record] ∧
      console_error w' = console_error w)).
Proof.
  unfold storeArticle, select_source_by_name, select_category_by_slug,
    insert_article, request, console_error_log, modify.
  unfold mbind, M_bind, mret, M_ret.
  destruct (faults w (length (requests w))) as [|e1|m1] eqn:F1;
    [| |intros [= <- <-]; split; [done|]; left; split; [done|];
        left; by exists m1, (length (requests w))].
  all: cbn [requests faults with_requests articles sources categories];
    rewrite length_app; cbn [length].
  all: destruct (faults w (length (requests w) + 1)) as [|e2|m2] eqn:F2;
    [| |intros [= <- <-]; split; [done|]; left; split; [done|];
        left; by exists m2, (length (requests w) + 1)].
  all: cbn [requests faults with_requests articles sources categories];
    rewrite !length_app; cbn [length];
    replace (length (requests w) + 1 + 1) with (length (requests w) + 2)
      by lia.
  all: destruct (faults w (length (requests w) + 2)) as [|e3|m3] eqn:F3;
    [| |intros [= <- <-]; split; [done|]; left; split; [done|];
        left; by exists m3, (length (requests w) + 2)].
  all: cbn [record_of rec_title rec_source_url].
  all: try (destruct (String.eqb (code e3) "23505");
            (cbv beta; intros [= <- <-]; split; [done|]; left;
             split; [done|]; right);
            [by left|right; by eexists]).
  all: destruct (title (article a)) as [t|] eqn:Ht;
    [|simpl; intros [= <- <-]; split; [done|]; left; split; [done|]; right; right;
      by eexists].
  all: destruct (source_url (article a)) as [u|] eqn:Hu;
    [|simpl; intros [= <- <-]; split; [done|]; left; split; [done|]; right; right;
      by eexists].
  all: cbn [requests faults with_requests articles sources categories].
  all: case_bool_decide as Hin;
    [simpl; intros [= <- <-]; split; [done|]; left; split; [done|]; right; by left|].
  all: intros [= <- <-]; split; [done|]; right; exists t, u; eexists;
    split; [done|]; split; [done|]; split; [done|]; split; [done|];
    split; [reflexivity|]; done.
Qed.

Lemma fresh_id_fresh (t : list Row) : fresh_id t ∉ row_id <$> t.
Proof.
  intros Hin. apply max_list_elem_of_le in Hin. unfold fresh_id in Hin. lia.
Qed.

(** X8.  Whatever the store answers, one call of [storeArticle] leaves
    the stored rows as they are and adds at most one row, which carries
    the title and the URL of the article and is not featured; source URLs
    and keys stay unique, and no other table changes. *)
Theorem storeArticle_table_invariants (cfg : Config) (a : ClassifiedItem)
    (w : World) :
  let w' := (storeArticle cfg a w).2 in
  (articles w' = articles w ∨
   ∃ row, articles w' = articles w ++ [row] ∧
          Some (row_title row) = title (article a) ∧
          Some (row_source_url row) = source_url (article a) ∧
          row_is_featured row = false ∧ row_view_count row = 0%Z) ∧
  (NoDup (row_source_url <$> articles w) →
   NoDup (row_source_url <$> articles w')) ∧
  (NoDup (row_id <$> articles w) → NoDup (row_id <$> articles w')) ∧
  sources w' = sources w ∧ categories w' = categories w ∧
  ingestion_log w' = ingestion_log w.
Proof.
  destruct (storeArticle cfg a w) as [o w'] eqn:E. cbn [snd].
  apply storeArticle_cases in E
    as [(_ & _ & Hlog & _ & _ & Hsrc & Hcat) [[Hart _]|Hnew]].
  - rewrite Hart. split; [by left|]. done.
  - destruct Hnew as (t & u & record & Ht & Hu & Hfresh & _ & _ & _ & Hart & _).
    rewrite Hart. split; [|split; [|split]].
    + right. eexists. split; [reflexivity|]. by rewrite Ht, Hu.
    + intros Hnd. rewrite fmap_app. apply NoDup_app. split; [done|].
      split; [|apply NoDup_singleton].
      intros x Hx ->%list_elem_of_singleton. done.
    + intros Hnd. rewrite fmap_app. apply NoDup_app. split; [done|].
      split; [|apply NoDup_singleton].
      intros x Hx ->%list_elem_of_singleton. by apply fresh_id_fresh in Hx.
    + done.
Qed.

(** X9.  Storing is idempotent on the source URL: after [storeArticle]
    has run against a store that serves every request, the URL of the
    article is found by [isDuplicate], and storing any article with that
    URL again is skipped and leaves the table as it is. *)
Theorem storeArticle_then_duplicate (cfg : Config) (a : ClassifiedItem)
    (w : World) :
  healthy w → has_title_and_url (article a) = true →
  ∃ res w',
    storeArticle cfg a w = (Ok res, w') ∧
    (∃ w'', isDuplicate (source_url (article a)) w' = (Ok true, w'')) ∧
    (∀ cfg' b, has_title_and_url (article b) = true →
               source_url (article b) = source_url (article a) →
               ∃ w'', storeArticle cfg' b w' = (Ok RSkipped, w'') ∧
                      articles w'' = articles w').
Proof.
  intros Hw Ha.
  apply has_title_and_url_spec in Ha as (t & u & Ht & _ & Hu & _).
  pose proof (storeArticle_healthy cfg a w t u Hw Ht Hu) as Hs.
  cbv zeta in Hs.
  destruct (storeArticle cfg a w) as [o w'] eqn:E.
  assert (healthy w' ∧ u ∈ row_source_url <$> articles w' ∧
          ∃ res, o = Ok res) as (Hw' & Hin & res & ->).
  { case_bool_decide as Hu'; injection Hs as -> ->.
    - split; [exact Hw|]. split; [exact Hu'|]. by eexists.
    - split; [exact Hw|]. split; [|by eexists].
      cbn [articles with_articles]. rewrite fmap_app.
      apply elem_of_app. right. by apply list_elem_of_singleton. }
  exists res, w'. split; [done|]. split.
  - rewrite isDuplicate_unfold, (healthy_NoFault _ _ Hw'). cbv zeta iota.
    eexists. f_equal. f_equal. apply bool_decide_eq_true.
    apply list_elem_of_fmap in Hin as (r & -> & Hr).
    apply Exists_exists. exists r. by rewrite Hu.
  - intros cfg' b Hb Hsame.
    apply has_title_and_url_spec in Hb as (t' & u' & Ht' & _ & Hu' & _).
    assert (u' = u) as -> by congruence.
    rewrite (storeArticle_healthy cfg' b w' t' u Hw' Ht' Hu').
    rewrite bool_decide_eq_true_2 by done. by eexists.
Qed.

(** The property above on an item of the example run. *)
Lemma storeArticle_then_duplicate_witness :
  healthy Scenario.world ∧
  has_title_and_url (article Outage.high_item) = true ∧
  ∃ res w',
    storeArticle default_config Outage.high_item Scenario.world
      = (Ok res, w') ∧
    ∃ w'', isDuplicate (Some "https://r/6") w' = (Ok true, w'').
Proof.
  assert (healthy Scenario.world) as Hw by (intros k; reflexivity).
  assert (has_title_and_url (article Outage.high_item) = true) as Ha
    by reflexivity.
  split; [exact Hw|]. split; [exact Ha|].
  destruct (storeArticle_then_duplicate default_config Outage.high_item
              Scenario.world Hw Ha) as (res & w' & H1 & H2 & _).
  exists res, w'. split; [exact H1|exact H2].
Defined.

(** X10.  The lookups of the source and of the category are best effort:
    a lookup the store answers with an error object, or that finds no row,
    leaves the key [null] and does not stop the insert; the names are
    stored in any case. *)
Theorem storeArticle_lookups_best_effort (cfg : Config) (a : ClassifiedItem) (w : World)
    (t u : string) :
  let n := length (requests w) in
  (∀ msg, faults w n ≠ Rejects msg) →
  (∀ msg, faults w (n + 1) ≠ Rejects msg) →
  faults w (n + 2) = NoFault →
  title (article a) = Some t → source_url (article a) = Some u →
  (u ∉ row_source_url <$> articles w) →
  ∃ row w',
    storeArticle cfg a w
      = (Ok (RStored (row_id row)
                     (bool_decide (min_bloom_score cfg ≤ bloom_score a)%Z)), w') ∧
    articles w' = articles w ++ [row] ∧
    row_source_id row
      = match faults w n with
        | NoFault => sources w !! source_name (article a)
        | _ => None
        end ∧
    row_category_id row
      = match faults w (n + 1) with
        | NoFault => categories w !! category_name a
        | _ => None
        end ∧
    row_source_name row = source_name (article a) ∧
    row_category_name row = category_name a ∧
    row_source_url row = u ∧ row_title row = t.
Proof.
  intros n H1 H2 H3 Ht Hu Hfresh.
  exists (row_of_record (fresh_id (articles w)) t u
            (record_of cfg
               (match faults w n with
                | NoFault => Data (option_list (sources w !! source_name (article a)))
                | ErrorResponse e => Err e
                | Rejects _ => Data []
                end)
               (match faults w (n + 1) with
                | NoFault => Data (option_list (categories w !! category_name a))
                | ErrorResponse e => Err e
                | Rejects _ => Data []
                end) a)).
  unfold storeArticle, select_source_by_name, select_category_by_slug,
    insert_article, request, console_error_log, modify.
  unfold mbind, M_bind, mret, M_ret. fold n.
  destruct (faults w n) as [|e1|m1] eqn:F1; [| |by destruct (H1 m1)].
  all: cbn [requests faults with_requests articles sources categories];
    rewrite length_app; cbn [length]; fold n.
  all: destruct (faults w (n + 1)) as [|e2|m2] eqn:F2; [| |by destruct (H2 m2)].
  all: cbn [requests faults with_requests articles sources categories];
    rewrite !length_app; cbn [length]; fold n;
    replace (n + 1 + 1) with (n + 2) by lia; rewrite H3.
  all: cbn [record_of rec_title rec_source_url]; rewrite Ht, Hu.
  all: cbn [requests faults with_requests articles sources categories].
  all: rewrite bool_decide_eq_false_2 by done.
  all: eexists; split;
    [cbn [row_id row_of_record]; do 3 f_equal; apply bool_decide_ext;
     apply status_of_published|].
  all: cbn [articles with_articles row_of_record row_source_id row_category_id
            row_source_name row_category_name row_source_url row_title
            record_of rec_source_id rec_category_id rec_source_name
            rec_category_name first_id].
  all: repeat split; try done.
  all: by destruct (_ !! _).
Qed.

(** The property above on an item whose source and category exist, in a
    world where both lookups fail. *)
Lemma storeArticle_lookups_best_effort_witness :
  sources Outage.world_lookups_fail !! "BBC" = Some 3 ∧
  ∃ row w',
    storeArticle default_config Outage.high_item Outage.world_lookups_fail
      = (Ok (RStored (row_id row) true), w') ∧
    row_source_id row = None ∧ row_category_id row = None ∧
    row_source_name row = "BBC".
Proof.
  split; [reflexivity|].
  destruct (storeArticle_lookups_best_effort default_config Outage.high_item
              Outage.world_lookups_fail "Volunteers plant forest"
              "https://r/6")
    as (row & w' & H1 & _ & H3 & H4 & H5 & _);
    [done|done|reflexivity|reflexivity|reflexivity| |].
  - refine (bool_decide_unpack _ _). vm_compute. exact I.
  - exists row, w'. split; [exact H1|]. split; [exact H3|].
    split; [exact H4|exact H5].
Defined.

(** ** The loop over the classified articles under a failing store *)

Lemma never_rejects_storeArticle (cfg : Config) (a : ClassifiedItem)
    (w : World) :
  never_rejects w →
  ∃ res w', storeArticle cfg a w = (Ok res, w') ∧ never_rejects w' ∧
            ingestion_log w' = ingestion_log w.
Proof.
  intros Hw. destruct (storeArticle cfg a w) as [o w'] eqn:E.
  apply storeArticle_cases in E as [(Hf & _ & Hlog & _) E].
  assert (never_rejects w') as Hw'.
  { intros k msg. rewrite Hf. apply Hw. }
  destruct E as [[_ [E|[E|E]]]|E].
  - destruct E as (msg & k & _ & E). by destruct (Hw k msg).
  - destruct E as [-> _]. by eauto.
  - destruct E as (msg & -> & _). by eauto.
  - destruct E as (t & u & record & _ & _ & _ & _ & _ & -> & _). by eauto.
Qed.

(** X11.  Every classified article is counted exactly once by the store
    loop, whatever the store answers short of rejecting a request: the sum
    of the published, rejected and deduplicated counters and of the number
    of recorded errors grows by the number of articles, the error list
    only grows, and the other counters stay. *)
Theorem store_loop_counts_every_item (cfg : Config) (l : list ClassifiedItem)
    (s : RunState) :
  never_rejects (world s) →
  ∃ s',
    store_loop cfg l s = (Ok (), s') ∧
    n_published (stats s') + n_rejected (stats s') + deduplicated (stats s')
      + length (errors (stats s'))
    = n_published (stats s) + n_rejected (stats s) + deduplicated (stats s)
      + length (errors (stats s)) + length l ∧
    (∃ more, errors (stats s') = errors (stats s) ++ more) ∧
    fetched (stats s') = fetched (stats s) ∧
    classified (stats s') = classified (stats s) ∧
    ingestion_log (world s') = ingestion_log (world s).
Proof.
  revert s. induction l as [|a l IH]; intros s Hw.
  - exists s. split; [done|]. simpl. split; [lia|].
    split; [exists []; by rewrite app_nil_r|done].
  - destruct (never_rejects_storeArticle cfg a (world s) Hw)
      as (res & w' & Hs & Hw' & Hlog).
    simpl store_loop.
    erewrite bind_Ok; last first.
    { unfold lift. rewrite Hs. reflexivity. }
    erewrite bind_Ok; [|reflexivity].
    match goal with |- ∃ s', store_loop cfg l ?s1 = _ ∧ _ =>
      destruct (IH s1 Hw') as (s' & Hrun & Hsum & (more & Herr) & Hfe & Hcl & Hl)
    end.
    exists s'. split; [exact Hrun|].
    cbn [world stats] in *. rewrite Hl, Hlog.
    destruct res as [|msg|id [|]]; cbn [Js.truthy_str] in *;
      try destruct (negb (String.eqb msg "")); simpl in *.
    all: split; [rewrite ?length_app in *; simpl in *; lia|].
    all: split; [|done].
    all: try (by exists more).
    exists ([msg] ++ more). rewrite Herr. by rewrite <- app_assoc.
Qed.

(** The property above on two items in a world whose store answers with
    error objects: both are recorded as errors. *)
Lemma store_loop_counts_every_item_witness :
  never_rejects Outage.world_erroring ∧
  ∃ s',
    store_loop default_config [Outage.high_item; Scenario.low_item]
      {| world := Outage.world_erroring; stats := empty_stats |} = (Ok (), s') ∧
    n_published (stats s') + n_rejected (stats s') + deduplicated (stats s')
      + length (errors (stats s')) = 2.
Proof.
  assert (never_rejects Outage.world_erroring) as Hw by (intros k msg; done).
  split; [exact Hw|].
  destruct (store_loop_counts_every_item default_config
              [Outage.high_item; Scenario.low_item]
              {| world := Outage.world_erroring; stats := empty_stats |} Hw)
    as (s' & H1 & H2 & _).
  exists s'. split; [exact H1|exact H2].
Defined.

(** ** [updateFeatured] *)

Lemma set_featured_set_featured (b c : bool) (r : Row) :
  set_featured b (set_featured c r) = set_featured b r.
Proof. done. Qed.

Lemma set_featured_id (b : bool) (r : Row) : row_id (set_featured b r) = row_id r.
Proof. done. Qed.





(** X13.  The flags are cleared before the new set is chosen: when the
    clearing update is served and the query for the top records is
    answered with an error object, [updateFeatured] returns normally and
    leaves no article featured. *)
Theorem updateFeatured_select_error (w : World) (e : DbError) :
  faults w (length (requests w)) = NoFault →
  faults w (length (requests w) + 1) = ErrorResponse e →
  ∃ w',
    updateFeatured w = (Ok (), w') ∧
    articles w' = set_featured false <$> articles w ∧
    Forall (λ r, row_is_featured r = false) (articles w').
Proof.
  intros H1 H2.
  assert ((λ r : Row, if row_is_featured r then set_featured false r else r)
            <$> articles w = set_featured false <$> articles w) as Hclear.
  { apply list_fmap_ext. intros _ r _. apply clear_is_set_false. }
  unfold updateFeatured, clear_featured, select_top_published, request.
  unfold mbind, M_bind, mret, M_ret, gets. rewrite H1.
  cbn [requests faults with_requests with_articles articles].
  rewrite length_app. cbn [length]. rewrite H2. rewrite Hclear.
  eexists. split; [reflexivity|]. cbn [articles]. split; [done|].
  apply Forall_fmap, Forall_forall. done.
Qed.

(** The property above in an example world with a featured record. *)
Lemma updateFeatured_select_error_witness :
  Exists (λ r, row_is_featured r = true) (articles Outage.world_second_fails) ∧
  ∃ w',
    updateFeatured Outage.world_second_fails = (Ok (), w') ∧
    Forall (λ r, row_is_featured r = false) (articles w').
Proof.
  split; [by left|].
  destruct (updateFeatured_select_error Outage.world_second_fails
              Outage.timeout) as (w' & H1 & _ & H3);
    [reflexivity|reflexivity|].
  exists w'. split; [exact H1|exact H3].
Defined.

(** ** The chunks sent to the classifier *)

Lemma classifyBatch_trace (chunk : list RawItem) (w : World) :
  runs (classifyBatch chunk) w (λ _ w',
    prompts w' = prompts w ++ [chunk] ∧ now w' = now w).
Proof.
  unfold runs. rewrite classifyBatch_unfold. cbv zeta.
  destruct (classify_try _ _ _); by eexists _, _.
Qed.

Lemma concat_nonempty_nil {A} (ls : list (list A)) :
  Forall (λ c, 0 < length c) ls → concat ls = [] → ls = [].
Proof.
  destruct 1 as [|c ls Hc _]; [done|]. simpl.
  destruct c; [simpl in Hc; lia|done].
Qed.

Lemma classify_loop_chunks (cfg : Config) (new : list RawItem) (fuel : nat) :
  0 < batch_size cfg →
  ∀ (i : nat) (acc : list ClassifiedItem) (s : RunState),
    length new - i ≤ fuel →
    runs (classify_loop cfg fuel new i acc) s (λ _ s',
      ∃ sent,
        prompts (world s') = prompts (world s) ++ sent ∧
        concat sent = drop i new ∧
        Forall (λ c, 0 < length c ≤ batch_size cfg) sent ∧
        (∀ j c, sent !! j = Some c → S j < length sent →
                length c = batch_size cfg) ∧
        now (world s')
          = (now (world s) + 500 * Z.of_nat (length sent - 1))%Z).
Proof.
  intros Hbs. induction fuel as [|fuel IH]; intros i acc s Hfuel.
  - simpl. rewrite bool_decide_eq_false_2 by lia.
    apply runs_ret. exists []. rewrite drop_ge by lia. rewrite app_nil_r.
    repeat split; try done. simpl. lia.
  - simpl. case_bool_decide as Hi; last first.
    { apply runs_ret. exists []. rewrite drop_ge by lia. rewrite app_nil_r.
      repeat split; try done. simpl. lia. }
    set (batch := take (batch_size cfg) (drop i new)).
    assert (length batch = Nat.min (batch_size cfg) (length new - i)) as Hlen.
    { unfold batch. by rewrite length_take, length_drop. }
    eapply runs_bind.
    { apply runs_lift, classifyBatch_trace. }
    simpl. intros results s1 ((Hp1 & Hn1) & _).
    eapply runs_bind; [apply runs_modify|].
    simpl. intros _ s2 ->.
    eapply runs_bind with
      (Q := λ _ s3,
         prompts (world s3) = prompts (world s) ++ [batch] ∧
         now (world s3)
           = (now (world s)
              + if bool_decide (i + batch_size cfg < length new)%nat
                then 500 else 0)%Z).
    { case_bool_decide.
      - eapply runs_mono; [apply runs_lift, runs_modify|].
        simpl. intros _ s3 [-> _]. simpl. by rewrite Hp1, Hn1.
      - apply runs_ret. simpl. rewrite Hp1, Hn1. split; [done|lia]. }
    simpl. intros _ s3 (Hp3 & Hn3).
    eapply runs_mono; [apply (IH (i + batch_size cfg)); lia|].
    simpl. intros _ s' (sent & Hp & Hcat & Hall & Hfull & Hnow).
    exists (batch :: sent).
    assert (i + batch_size cfg < length new → sent ≠ []) as Hmore.
    { intros Hlt ->. simpl in Hcat.
      apply (f_equal length) in Hcat. rewrite length_drop in Hcat.
      simpl in Hcat. lia. }
    assert (¬ i + batch_size cfg < length new → sent = []) as Hlast.
    { intros Hge. apply concat_nonempty_nil.
      - eapply Forall_impl; [exact Hall|]. simpl. lia.
      - rewrite Hcat. apply drop_ge. lia. }
    split; [|split; [|split; [|split]]].
    + rewrite Hp, Hp3, <- app_assoc. done.
    + simpl. rewrite Hcat. apply take_drop_chunk.
    + constructor; [lia|done].
    + intros [|j] c Hj Hlt.
      * injection Hj as <-.
        destruct (decide (i + batch_size cfg < length new)); [lia|].
        rewrite Hlast in Hlt by done. simpl in Hlt. lia.
      * simpl in Hj, Hlt. apply (Hfull j c Hj). lia.
    + rewrite Hnow, Hn3. case_bool_decide as Hlt.
      * apply Hmore in Hlt. destruct sent; [done|]. simpl length. lia.
      * rewrite (Hlast Hlt). simpl. lia.
Qed.

(** X14.  The loop over the new articles sends each of them to the
    classifier exactly once and in order: the chunks sent concatenate to
    the list of new articles, every chunk but the last has [batch_size]
    articles, the last has between one and [batch_size], one result comes
    back per article, and the loop pauses 500 ms between two chunks and
    not after the last. *)
Theorem classify_loop_sends_chunks (cfg : Config) (new : list RawItem)
    (s : RunState) :
  0 < batch_size cfg →
  ∃ out s' sent,
    classify_loop cfg (length new) new 0 [] s = (Ok out, s') ∧
    article <$> out = new ∧
    prompts (world s') = prompts (world s) ++ sent ∧
    concat sent = new ∧
    Forall (λ c, 0 < length c ≤ batch_size cfg) sent ∧
    (∀ j c, sent !! j = Some c → S j < length sent →
            length c = batch_size cfg) ∧
    now (world s') = (now (world s) + 500 * Z.of_nat (length sent - 1))%Z.
Proof.
  intros Hbs.
  destruct (runs_and _ s _ _
              (classify_loop_runs cfg new (length new) Hbs 0 [] s
                 ltac:(lia))
              (classify_loop_chunks cfg new (length new) Hbs 0 [] s
                 ltac:(lia)))
    as (out & s' & Hrun & (Hart & _) & sent & Hp & Hcat & Hall & Hfull & Hnow).
  exists out, s', sent. rewrite drop_0 in Hart, Hcat. done.
Qed.

(** The property above on 25 articles in chunks of 10: three chunks and
    one second of pauses. *)
Lemma classify_loop_sends_chunks_witness :
  let new := replicate 25 (Scenario.item "Solar farm opens" "https://n/1"
                                          "Reuters" Scenario.t0) in
  0 < batch_size default_config ∧
  ∃ out s' sent,
    classify_loop default_config (length new) new 0 []
      {| world := Scenario.world; stats := empty_stats |} = (Ok out, s') ∧
    prompts (world s') = sent ∧ concat sent = new ∧
    now (world s') = (Scenario.t0 + 500 * Z.of_nat (length sent - 1))%Z.
Proof.
  intros new.
  assert (0 < batch_size default_config) as Hbs by (vm_compute; lia).
  split; [exact Hbs|].
  destruct (classify_loop_sends_chunks default_config new
              {| world := Scenario.world; stats := empty_stats |} Hbs)
    as (out & s' & sent & H1 & _ & H3 & H4 & _ & _ & H7).
  exists out, s', sent. split; [exact H1|]. split; [exact H3|].
  split; [exact H4|exact H7].
Defined.

(** ** What a run leaves in the table *)

Lemma store_loop_urls (cfg : Config) (l : list ClassifiedItem) :
  ∀ s : RunState,
    healthy (world s) →
    Forall (λ c, has_title_and_url (article c) = true) l →
    NoDup ((λ c, source_url (article c)) <$> l) →
    (∀ c u, c ∈ l → source_url (article c) = Some u →
            u ∉ row_source_url <$> articles (world s)) →
    runs (store_loop cfg l) s (λ _ s',
      Some <$> (row_source_url <$> articles (world s'))
        = (Some <$> (row_source_url <$> articles (world s)))
          ++ ((λ c, source_url (article c)) <$> l)).
Proof.
  induction l as [|a l IH]; intros s Hw Hall Hnd Hfresh.
  - apply runs_ret. simpl. by rewrite app_nil_r.
  - apply Forall_cons in Hall as [Ha Hall].
    rewrite fmap_cons in Hnd. apply NoDup_cons in Hnd as [Hnotin Hnd].
    pose proof Ha as (t & u & Ht & _ & Hu & _)%has_title_and_url_spec.
    assert (u ∉ row_source_url <$> articles (world s)) as Hu'.
    { eapply Hfresh; [left|done]. }
    simpl.
    eapply runs_bind.
    { apply runs_lift, runs_eq. rewrite (storeArticle_healthy cfg a _ t u)
        by done. rewrite bool_decide_eq_false_2 by done. reflexivity. }
    simpl. intros res s1 ([-> Hw1] & Hst1).
    eapply runs_bind; [apply runs_modify|].
    simpl. intros _ s2 ->.
    eapply runs_mono.
    { apply IH; simpl; [by rewrite Hw1|done|done|].
      intros c v Hc Hv. rewrite Hw1. simpl. rewrite fmap_app. simpl.
      intros [Hin|Hin%list_elem_of_singleton]%elem_of_app.
      - eapply Hfresh; [by right|done|done].
      - apply Hnotin. apply list_elem_of_fmap. exists c.
        split; [|done]. rewrite Hv, Hu. by rewrite Hin. }
    simpl. intros _ s' ->. rewrite Hw1. simpl.
    rewrite !fmap_app, <- app_assoc. simpl. by rewrite Hu.
Qed.

Lemma updateFeatured_urls (w : World) :
  healthy w →
  runs updateFeatured w (λ _ w',
    row_source_url <$> articles w' = row_source_url <$> articles w).
Proof.
  intros Hw.
  destruct (updateFeatured_healthy w Hw) as (w' & Hrun & Hart & _).
  exists (), w'. split; [exact Hrun|].
  rewrite Hart, <- list_fmap_compose. by apply list_fmap_ext.
Qed.

Lemma run_try_table (cfg : Config) (src : Adapters) (w : World) :
  let all := aggregate cfg src in
  let new := filter (λ a, known w a = false) all in
  healthy w → 0 < batch_size cfg →
  runs (run_try cfg src) {| world := w; stats := empty_stats |} (λ c s',
    deduplicated (stats s') = length all - length new ∧
    n_published (stats s') + n_rejected (stats s') = length new ∧
    Some <$> (row_source_url <$> articles (world s'))
      = (Some <$> (row_source_url <$> articles w)) ++ (source_url <$> new)).
Proof.
  intros all new Hw Hpos. unfold run_try. fold all.
  eapply runs_bind; [apply runs_modify|].
  simpl. intros _ s1 ->.
  pose proof (known_split_length w all) as Hsplit. fold new in Hsplit.
  eapply runs_bind.
  { apply runs_eq, history_loop_healthy; [done|].
    eapply Forall_impl; [apply aggregate_valid|].
    apply has_title_and_url_title. }
  simpl. fold new. intros newArticles s2 [-> ->].
  case_bool_decide as Hlen.
  { apply runs_ret. simpl. destruct new; [|done]. simpl.
    rewrite app_nil_r. split; [simpl in Hsplit; lia|done]. }
  set (w2 := with_requests _ w).
  set (st2 := add_deduplicated _ _).
  eapply runs_bind.
  { apply (classify_loop_runs cfg new (length new)); lia. }
  simpl. intros out s3 (Hart & Hev3 & Htab3 & _ & Hrest & _).
  injection Hrest as _ Hp3 Hr3 Hd3 _. rewrite drop_0 in Hart.
  assert (healthy (world s3)) as Hw3 by by eapply evolves_healthy.
  assert (Forall (λ c, has_title_and_url (article c) = true) out) as Hval.
  { assert (Forall (λ a, has_title_and_url a = true) (article <$> out)) as H.
    { rewrite Hart. apply Forall_forall. intros a Ha.
      apply list_elem_of_filter in Ha as [_ Ha].
      revert a Ha. apply Forall_forall, aggregate_valid. }
    by apply Forall_fmap in H. }
  assert (NoDup ((λ c, source_url (article c)) <$> out)) as Hnd.
  { rewrite (list_fmap_compose article source_url), Hart.
    eapply sublist_NoDup; [apply (aggregate_NoDup cfg src)|].
    apply sublist_fmap_url, sublist_filter. }
  assert (∀ c u, c ∈ out → source_url (article c) = Some u →
                 u ∉ row_source_url <$> articles (world s3)) as Hfresh.
  { intros c u Hc Hu. rewrite Htab3. simpl.
    apply (exact_match_false_fresh w (article c)); [|done].
    apply known_false_exact.
    apply (list_elem_of_fmap_2 article) in Hc. rewrite Hart in Hc.
    by apply list_elem_of_filter in Hc as [? _]. }
  eapply runs_bind.
  { apply runs_and; [apply runs_and|].
    - by apply (store_loop_runs cfg new).
    - by apply store_loop_counts.
    - by apply store_loop_urls. }
  simpl. intros _ s4 (((Hev4 & _ & Hsum4) & _ & _ & Hd4) & Hurl4).
  assert (healthy (world s4)) as Hw4 by by eapply evolves_healthy.
  eapply runs_bind.
  { by apply runs_lift, updateFeatured_urls. }
  simpl. intros _ s5 (Hurl5 & Hst5). apply runs_ret.
  rewrite Hst5, Hurl5, Hurl4, Htab3.
  assert (length out = length new) as Hlo.
  { by rewrite <- Hart, length_fmap. }
  rewrite (list_fmap_compose article source_url), Hart.
  unfold st2 in *. simpl in *. split; [lia|]. split; [lia|done].
Qed.

(** X15.  The counters of a run against a store that serves every
    request, with a positive [batch_size]: [fetched] is the number of
    unique valid articles, [classified] the number of those that passed
    the history check, [deduplicated] the number of those that did not,
    every classified article is either published or rejected, and no error
    is recorded. *)
Theorem run_accounting (cfg : Config) (src : Adapters) (w : World) :
  healthy w → 0 < batch_size cfg →
  let all := aggregate cfg src in
  let new := filter (λ a, known w a = false) all in
  ∃ s',
    run cfg src w = (Ok (), s') ∧
    fetched (stats s') = length all ∧
    classified (stats s') = length new ∧
    deduplicated (stats s') = length all - length new ∧
    n_published (stats s') + n_rejected (stats s') = length new ∧
    errors (stats s') = [].
Proof.
  intros Hw Hbs all new.
  destruct (runs_and _ _ _ _
              (run_try_runs cfg src w empty_stats Hw Hbs)
              (run_try_table cfg src w Hw Hbs))
    as (c & s1 & Htry & (Hev & Hf & _ & Herr & Hcase) & Hd & Hpr & _).
  fold all new in Hf, Hcase, Hd, Hpr. simpl in Herr.
  assert (healthy (world s1)) as Hw1 by by eapply evolves_healthy.
  assert (classified (stats s1) = length new ∧
          (c = Returned ∨ c = Completed)) as [Hcl Hc].
  { destruct new; [destruct Hcase as (-> & -> & _)
                  |destruct Hcase as (-> & -> & _)]; auto. }
  destruct Hc as [-> | ->].
  - exists s1. rewrite run_unfold, (try_catch_Ok _ _ _ _ _ Htry). done.
  - destruct (run_completed cfg src w s1 Htry Hw1) as (s' & d & Hrun & Hst & _).
    exists s'. rewrite Hst. done.
Qed.

(** The property above on the example run. *)
Lemma run_accounting_witness :
  healthy Scenario.world ∧ 0 < batch_size default_config ∧
  ∃ s',
    run default_config Scenario.adapters Scenario.world = (Ok (), s') ∧
    fetched (stats s') = 10 ∧ classified (stats s') = 8 ∧
    deduplicated (stats s') = 2 ∧
    n_published (stats s') + n_rejected (stats s') = 8.
Proof.
  assert (healthy Scenario.world) as Hw by (intros k; reflexivity).
  assert (0 < batch_size default_config) as Hbs by (vm_compute; lia).
  split; [exact Hw|]. split; [exact Hbs|].
  destruct (run_accounting default_config Scenario.adapters Scenario.world
              Hw Hbs) as (s' & H1 & H2 & H3 & H4 & H5 & _).
  exists s'. split; [exact H1|]. split; [exact H2|]. split; [exact H3|].
  split; [exact H4|exact H5].
Defined.

(** X16.  After a run against a store that serves every request, the
    table holds its former rows' URLs followed by the URLs of the new
    articles, one row each and in order; so every article that was
    classified is found by the exact check of a later run, and the source
    URLs stay unique. *)
Theorem run_stores_every_new_article (cfg : Config) (src : Adapters)
    (w : World) :
  healthy w → 0 < batch_size cfg →
  let new := filter (λ a, known w a = false) (aggregate cfg src) in
  ∃ s',
    run cfg src w = (Ok (), s') ∧
    Some <$> (row_source_url <$> articles (world s'))
      = (Some <$> (row_source_url <$> articles w)) ++ (source_url <$> new) ∧
    (∀ a, a ∈ new → exact_match (world s') a = true) ∧
    (∀ a, exact_match w a = true → exact_match (world s') a = true) ∧
    (NoDup (row_source_url <$> articles w) →
     NoDup (row_source_url <$> articles (world s'))).
Proof.
  intros Hw Hbs new.
  destruct (runs_and _ _ _ _
              (run_try_runs cfg src w empty_stats Hw Hbs)
              (run_try_table cfg src w Hw Hbs))
    as (c & s1 & Htry & (Hev & _) & _ & _ & Hurl).
  fold new in Hurl.
  assert (healthy (world s1)) as Hw1 by by eapply evolves_healthy.
  assert (∃ s', run cfg src w = (Ok (), s') ∧
                articles (world s') = articles (world s1)) as (s' & Hrun & Ha).
  { rewrite run_unfold, (try_catch_Ok _ _ _ _ _ Htry).
    destruct c; [|by eexists].
    simpl. rewrite insert_ingestion_log_healthy by done. by eexists. }
  exists s'. split; [exact Hrun|]. rewrite Ha. split; [exact Hurl|].
  assert (∀ a, source_url a ∈ Some <$> (row_source_url <$> articles (world s1))
               → exact_match (world s') a = true) as Hex.
  { intros a Hin. apply bool_decide_eq_true. rewrite Ha.
    apply list_elem_of_fmap in Hin as (u & Hu & Hin).
    apply list_elem_of_fmap in Hin as (r & -> & Hr).
    apply Exists_exists. by exists r. }
  split; [|split].
  - intros a Hin. apply Hex. rewrite Hurl. apply elem_of_app. right.
    by apply list_elem_of_fmap_2.
  - intros a Hin. apply Hex. rewrite Hurl. apply elem_of_app. left.
    apply bool_decide_eq_true, Exists_exists in Hin as (r & Hr & Hu).
    rewrite <- Hu. by do 2 apply list_elem_of_fmap_2.
  - intros Hnd.
    apply (NoDup_fmap_1 Some). rewrite Hurl.
    apply NoDup_app. split; [by apply (NoDup_fmap_2 Some)|]. split.
    + intros x Hx Hin.
      apply list_elem_of_fmap in Hx as (u & -> & Hu).
      apply list_elem_of_fmap in Hin as (a & Hua & Ha').
      apply list_elem_of_filter in Ha' as [Hk _].
      by apply (exact_match_false_fresh w a u (known_false_exact w a Hk)).
    + eapply sublist_NoDup; [apply (aggregate_NoDup cfg src)|].
      apply sublist_fmap_url, sublist_filter.
Qed.

(** The property above on the example run: the eight new articles are
    rows afterwards. *)
Lemma run_stores_every_new_article_witness :
  healthy Scenario.world ∧ 0 < batch_size default_config ∧
  ∃ s',
    run default_config Scenario.adapters Scenario.world = (Ok (), s') ∧
    length (articles (world s')) = 10.
Proof.
  assert (healthy Scenario.world) as Hw by (intros k; reflexivity).
  assert (0 < batch_size default_config) as Hbs by (vm_compute; lia).
  split; [exact Hw|]. split; [exact Hbs|].
  destruct (run_stores_every_new_article default_config Scenario.adapters
              Scenario.world Hw Hbs) as (s' & H1 & H2 & _).
  exists s'. split; [exact H1|].
  apply (f_equal length) in H2. rewrite !length_fmap in H2.
  rewrite H2. vm_compute. reflexivity.
Defined.

(** ** How a run can end *)

Lemma bind_not_diverged {S A B} (m : M S A) (k : A → M S B) (s : S) :
  (m s).1 ≠ Diverged →
  (∀ a s', m s = (Ok a, s') → (k a s').1 ≠ Diverged) →
  ((m ≫= k) s).1 ≠ Diverged.
Proof.
  intros Hm Hk. unfold mbind, M_bind.
  destruct (m s) as [[a|e|] s']; [by apply Hk|done|done].
Qed.

Lemma lift_not_diverged {A} (m : M World A) (s : RunState) :
  (m (world s)).1 ≠ Diverged → (lift m s).1 ≠ Diverged.
Proof. unfold lift. by destruct (m (world s)) as [[?|?|] ?]. Qed.

Lemma runs_not_diverged {S A} (m : M S A) (s : S) (Q : A → S → Prop) :
  runs m s Q → (m s).1 ≠ Diverged.
Proof. intros (a & s' & -> & _). done. Qed.

Lemma isDuplicate_not_diverged (url : option string) (w : World) :
  (isDuplicate url w).1 ≠ Diverged.
Proof.
  rewrite isDuplicate_unfold. cbv zeta.
  by destruct (faults w (length (requests w))).
Qed.

Lemma findSimilar_not_diverged (t : option string) (thr : Q) (w : World) :
  (findSimilar t thr w).1 ≠ Diverged.
Proof.
  destruct t as [t|]; [|done]. rewrite findSimilar_unfold. cbv zeta.
  by destruct (faults w (length (requests w))).
Qed.

Lemma history_loop_not_diverged (allArticles newArticles : list RawItem)
    (s : RunState) :
  (history_loop allArticles newArticles s).1 ≠ Diverged.
Proof.
  revert newArticles s.
  induction allArticles as [|a rest IH]; intros newArticles s; [done|].
  simpl. apply bind_not_diverged.
  { apply lift_not_diverged, isDuplicate_not_diverged. }
  intros [|] s1 _.
  - apply bind_not_diverged; [done|]. intros _ s2 _. apply IH.
  - apply bind_not_diverged.
    { apply lift_not_diverged, findSimilar_not_diverged. }
    intros [e|] s2 _; [|apply IH].
    apply bind_not_diverged; [done|]. intros _ s3 _. apply IH.
Qed.

Lemma storeArticle_not_diverged (cfg : Config) (a : ClassifiedItem)
    (w : World) :
  (storeArticle cfg a w).1 ≠ Diverged.
Proof.
  destruct (storeArticle cfg a w) as [o w'] eqn:E.
  apply storeArticle_cases in E as [_ [[_ [E|[E|E]]]|E]]; simpl.
  - by destruct E as (msg & k & -> & _).
  - by destruct E as (-> & _).
  - by destruct E as (msg & -> & _).
  - by destruct E as (t & u & record & _ & _ & _ & _ & _ & -> & _).
Qed.

Lemma store_loop_not_diverged (cfg : Config) (l : list ClassifiedItem)
    (s : RunState) :
  (store_loop cfg l s).1 ≠ Diverged.
Proof.
  revert s. induction l as [|a l IH]; intros s; [done|].
  simpl. apply bind_not_diverged.
  { apply lift_not_diverged, storeArticle_not_diverged. }
  intros res s1 _. apply bind_not_diverged; [done|].
  intros _ s2 _. apply IH.
Qed.

Lemma request_not_diverged {A} (r : Request)
    (exec : World → DbResult A * World) (w : World) :
  (request r exec w).1 ≠ Diverged.
Proof.
  unfold request. destruct (faults w _); [|done..]. by destruct (exec _).
Qed.

Lemma updateFeatured_not_diverged (w : World) : (updateFeatured w).1 ≠ Diverged.
Proof.
  unfold updateFeatured.
  apply bind_not_diverged; [apply request_not_diverged|]. intros _ w1 _.
  apply bind_not_diverged; [done|]. intros t0 w2 _.
  apply bind_not_diverged; [apply request_not_diverged|].
  intros [data|e] w3 _; [|done]. case_bool_decide; [|done].
  apply bind_not_diverged; [apply request_not_diverged|done].
Qed.

Lemma run_try_not_diverged (cfg : Config) (src : Adapters) (s : RunState) :
  0 < batch_size cfg → (run_try cfg src s).1 ≠ Diverged.
Proof.
  intros Hbs. unfold run_try.
  apply bind_not_diverged; [done|]. intros _ s1 _.
  apply bind_not_diverged; [apply history_loop_not_diverged|].
  intros new s2 _. case_bool_decide; [done|].
  apply bind_not_diverged.
  { eapply runs_not_diverged, classify_loop_runs; [done|lia]. }
  intros out s3 _.
  apply bind_not_diverged; [apply store_loop_not_diverged|].
  intros _ s4 _.
  apply bind_not_diverged; [|done].
  apply lift_not_diverged, updateFeatured_not_diverged.
Qed.

(** X17.  With a positive [batch_size] a run always ends, and the only
    exception that escapes [run] is a rejected insert of the audit row:
    whatever else the store does, the failure is caught inside.  When
    [run] throws, the last request sent is that insert. *)
Theorem run_throws_only_on_audit_insert (cfg : Config) (src : Adapters)
    (w : World) :
  0 < batch_size cfg →
  let r := run cfg src w in
  r.1 ≠ Diverged ∧
  ∀ msg, r.1 = Thrown msg →
         ∃ row, last (requests (world r.2)) = Some (InsertIngestionLog row).
Proof.
  intros Hbs r. unfold r. rewrite run_unfold.
  pose proof (run_try_not_diverged cfg src
                {| world := w; stats := empty_stats |} Hbs) as Hnd.
  unfold try_catch.
  destruct (run_try cfg src _) as [[c|e|] s1]; [| |done].
  - destruct c; [|done]. cbv zeta.
    unfold insert_ingestion_log, request.
    destruct (faults (world s1) _); [done|done|].
    simpl. split; [done|]. intros msg' _. eexists. apply last_snoc.
  - unfold run_catch, lift, console_error_log, modify_stats, modify.
    unfold mbind, M_bind, mret, M_ret. cbv beta iota zeta.
    unfold insert_ingestion_log, request.
    cbn [world stats requests faults with_console_error].
    destruct (faults (world s1) _); [done|done|].
    simpl. split; [done|]. intros msg' _. eexists. apply last_snoc.
Qed.

(** The property above on the example run whose first request is
    rejected. *)
Lemma run_throws_only_on_audit_insert_witness :
  0 < batch_size default_config ∧
  (run default_config Scenario.adapters Scenario.world_store_down).1
    ≠ Diverged.
Proof.
  assert (0 < batch_size default_config) as Hbs by (vm_compute; lia).
  split; [exact Hbs|].
  exact (proj1 (run_throws_only_on_audit_insert default_config
                  Scenario.adapters Scenario.world_store_down Hbs)).
Defined.

(** X21.  A store that rejects the first duplicate query does not crash
    the run: the message is recorded in [stats.errors] and on the console,
    nothing is classified or stored, and, the store serving the next
    request, the audit row is written with the error and the number of
    fetched articles. *)
Theorem run_records_rejected_request (cfg : Config) (src : Adapters)
    (w : World) (msg : string) :
  aggregate cfg src ≠ [] →
  faults w (length (requests w)) = Rejects msg →
  faults w (S (length (requests w))) = NoFault →
  ∃ s' d,
    run cfg src w = (Ok (), s') ∧
    errors (stats s') = [msg] ∧
    fetched (stats s') = length (aggregate cfg src) ∧
    classified (stats s') = 0 ∧
    prompts (world s') = prompts w ∧ articles (world s') = articles w ∧
    console_error (world s')
      = console_error w ++ ["Pipeline error: " +:+ msg] ∧
    ingestion_log (world s')
      = ingestion_log w ++ [log_row_of (stats s') d] ∧
    log_errors (log_row_of (stats s') d) = Some [msg].
Proof.
  intros Hne H1 H2.
  assert (run_try cfg src {| world := w; stats := empty_stats |}
          = (Thrown msg,
             {| world := with_requests
                  (requests w ++
                   [SelectArticleByUrl
                      (source_url (default (Scenario.item "" "" "" 0)
                                           (head (aggregate cfg src))))]) w;
                stats := set_fetched (length (aggregate cfg src))
                                     empty_stats |})) as Htry.
  { unfold run_try. destruct (aggregate cfg src) as [|a rest]; [done|].
    cbv zeta. unfold modify_stats, modify.
    unfold mbind at 1, M_bind at 1. cbv beta iota.
    erewrite bind_Thrown; [reflexivity|].
    cbn [history_loop]. erewrite bind_Thrown; [reflexivity|].
    unfold lift, modify_stats, modify. cbn [world stats].
    rewrite isDuplicate_unfold, H1. reflexivity. }
  rewrite run_unfold, (try_catch_Thrown _ _ _ _ _ Htry).
  unfold run_catch, lift, console_error_log, modify_stats, modify.
  unfold mbind, M_bind, mret, M_ret. cbv beta iota zeta.
  unfold insert_ingestion_log.
  rewrite request_NoFault; last first.
  { cbn [world requests faults with_requests with_console_error].
    rewrite length_app. cbn [length]. by rewrite Nat.add_1_r. }
  cbv beta iota zeta. eexists _, _. split; [reflexivity|].
  cbn [world stats errors fetched classified push_error set_fetched
       empty_stats prompts articles console_error ingestion_log
       with_ingestion_log with_requests with_console_error app].
  repeat split; done.
Qed.

(** The property above on the example run whose first request is
    rejected. *)
Lemma run_records_rejected_request_witness :
  aggregate default_config Scenario.adapters ≠ [] ∧
  ∃ s' d,
    run default_config Scenario.adapters Scenario.world_store_down
      = (Ok (), s') ∧
    errors (stats s') = ["fetch failed"] ∧
    ingestion_log (world s') = [log_row_of (stats s') d].
Proof.
  assert (aggregate default_config Scenario.adapters ≠ []) as Hne
    by (vm_compute; discriminate).
  split; [exact Hne|].
  destruct (run_records_rejected_request default_config Scenario.adapters
              Scenario.world_store_down "fetch failed" Hne)
    as (s' & d & H1 & H2 & _ & _ & _ & _ & _ & H8 & _);
    [reflexivity|reflexivity|].
  exists s', d. split; [exact H1|]. split; [exact H2|exact H8].
Defined.

(** ** The reads of the frontend *)

Global Instance newest_first_total : Total newest_first.
Proof. intros a b. unfold newest_first. apply total, _. Qed.

Global Instance newest_first_trans : Transitive newest_first.
Proof. intros a b c. unfold newest_first. apply transitivity. Qed.

Global Instance most_viewed_first_total : Total most_viewed_first.
Proof. intros a b. unfold most_viewed_first. lia. Qed.

Global Instance most_viewed_first_trans : Transitive most_viewed_first.
Proof. intros a b c. unfold most_viewed_first. lia. Qed.

(** The rows a request of [fetchArticles] ranges over, before [order],
    [offset] and [limit]. *)
Lemma fetchArticles_unfold (category : option string) (limit offset : nat)
    (weird : bool) (t : list Row) :
  ∃ rows,
    (∀ l o, fetchArticles category l o weird t
            = take l (drop o (merge_sort newest_first rows))) ∧
    (∀ fr, fr ∈ rows →
       fr ∈ feed_articles t ∧
       (weird = true → feed_is_weird fr = true) ∧
       (∀ c, weird = false → category = Some c → c ≠ "" → c ≠ "all" →
             feed_category_name fr = c)).
Proof.
  unfold fetchArticles. destruct weird.
  - eexists. split; [reflexivity|]. intros fr Hfr.
    split; [by apply weird_articles_feed|]. split; [|done].
    intros _. unfold weird_articles in Hfr.
    by apply list_elem_of_filter in Hfr as [? _].
  - destruct category as [c|].
    + destruct (Js.truthy_str (Some c) && negb (String.eqb c "all")) eqn:E.
      * eexists. split; [reflexivity|]. intros fr Hfr.
        apply list_elem_of_filter in Hfr as [Hc Hfr]. split; [done|].
        split; [done|]. by intros c' _ [= <-] _ _.
      * eexists. split; [reflexivity|]. intros fr Hfr. split; [done|].
        split; [done|]. intros c' _ [= <-] Hne Hall. exfalso.
        apply andb_false_iff in E as [E|E].
        -- simpl in E. apply negb_false_iff, String.eqb_eq in E. done.
        -- apply negb_false_iff, String.eqb_eq in E. done.
    + eexists. split; [reflexivity|]. intros fr Hfr. split; [done|].
      split; done.
Qed.

Lemma fetchArticles_scope (category : option string) (limit offset : nat)
    (weird : bool) (t : list Row) :
  fetchArticles category limit offset weird t
  = take limit (drop offset
                  (merge_sort newest_first (fetch_scope category weird t))).
Proof. done. Qed.

Lemma fetch_scope_sublist (category : option string) (weird : bool)
    (t : list Row) :
  fetch_scope category weird t `sublist_of` feed_articles t.
Proof.
  unfold fetch_scope, weird_articles. destruct weird; [apply sublist_filter|].
  destruct category as [c|]; [|done].
  destruct (_ && _); [apply sublist_filter|done].
Qed.

Lemma desc_nulls_first_antisym (a b : option Z) :
  desc_nulls_first a b → desc_nulls_first b a → a = b.
Proof. destruct a, b; simpl; try done. intros. f_equal. lia. Qed.

(** With timestamps that differ pairwise, the order of the query leaves
    the store no choice: every listing in that order is the same list. *)
Lemma newest_listing_unique (rows listing : list FeedRow) :
  NoDup (feed_published_at <$> rows) →
  listing ≡ₚ rows → Sorted newest_first listing →
  listing = merge_sort newest_first rows.
Proof.
  intros Hnd Hperm Hsorted.
  apply (StronglySorted_unique_strong newest_first).
  - intros x1 x2 Hx1 Hx2 H12 H21.
    rewrite Hperm in Hx1. rewrite merge_sort_Permutation in Hx2.
    eapply (NoDup_fmap_eq feed_published_at rows); try done.
    by apply desc_nulls_first_antisym.
  - by apply Sorted_StronglySorted; [apply _|].
  - apply StronglySorted_merge_sort; apply _.
  - by rewrite merge_sort_Permutation.
Qed.

(** X18.  Pages of [fetchArticles] fit together when no two rows of the
    feed have the same publication time (and at most one has none).  The
    order of the query then leaves the store no choice, so whatever
    listing in that order the store cuts a page from, the page is the one
    computed here; the page of [n] rows at [offset] followed by the page
    of [m] rows at [offset + n] is the page of [n + m] rows at [offset],
    and a page shorter than its limit is the last one. *)
Theorem fetchArticles_pages (category : option string) (n m offset : nat)
    (weird : bool) (t : list Row) :
  NoDup (feed_published_at <$> feed_articles t) →
  (∀ listing limit off,
     listing ≡ₚ fetch_scope category weird t →
     Sorted newest_first listing →
     take limit (drop off listing)
     = fetchArticles category limit off weird t) ∧
  (∀ listing1 listing2,
     listing1 ≡ₚ fetch_scope category weird t →
     Sorted newest_first listing1 →
     listing2 ≡ₚ fetch_scope category weird t →
     Sorted newest_first listing2 →
     take n (drop offset listing1) ++ take m (drop (offset + n) listing2)
     = take (n + m) (drop offset listing1)) ∧
  fetchArticles category n offset weird t
    ++ fetchArticles category m (offset + n) weird t
  = fetchArticles category (n + m) offset weird t ∧
  (length (fetchArticles category n offset weird t) < n →
   fetchArticles category m (offset + n) weird t = []).
Proof.
  intros Hnd.
  assert (NoDup (feed_published_at <$> fetch_scope category weird t)) as Hnd'.
  { eapply sublist_NoDup; [exact Hnd|].
    apply sublist_fmap_gen, fetch_scope_sublist. }
  assert (∀ listing, listing ≡ₚ fetch_scope category weird t →
            Sorted newest_first listing →
            listing = merge_sort newest_first (fetch_scope category weird t))
    as Huniq.
  { intros listing. by apply newest_listing_unique. }
  rewrite !fetchArticles_scope.
  set (l := merge_sort newest_first (fetch_scope category weird t)) in *.
  split; [|split; [|split]].
  - intros listing limit off Hperm Hsorted.
    by rewrite fetchArticles_scope, (Huniq listing Hperm Hsorted).
  - intros l1 l2 Hp1 Hs1 Hp2 Hs2.
    rewrite (Huniq l1 Hp1 Hs1), (Huniq l2 Hp2 Hs2).
    rewrite <- drop_drop. apply take_take_drop.
  - rewrite <- drop_drop. apply take_take_drop.
  - rewrite length_take, length_drop. intros Hlen.
    rewrite drop_ge by lia. apply take_nil.
Qed.

(** The property above on the table the example run leaves: the eight
    rows of its feed have eight publication times. *)
Lemma fetchArticles_pages_witness :
  let t := articles (world (run default_config Scenario.adapters
                                Scenario.world).2) in
  NoDup (feed_published_at <$> feed_articles t) ∧
  length (feed_articles t) = 8 ∧
  fetchArticles None 3 0 false t ++ fetchArticles None 3 3 false t
  = fetchArticles None 6 0 false t.
Proof.
  intros t.
  assert (NoDup (feed_published_at <$> feed_articles t)) as Hnd.
  { refine (bool_decide_unpack _ _). vm_compute. exact I. }
  split; [exact Hnd|]. split; [vm_compute; reflexivity|].
  exact (proj1 (proj2 (proj2 (fetchArticles_pages None 3 3 0 false t Hnd)))).
Defined.

(** X19.  A page of [fetchArticles] has at most [limit] rows, newest
    first with rows without timestamp ahead, all of them rows of the
    public feed; with [weird] set they are all weird, and otherwise with
    a category other than the empty string and [all] they all have that
    category. *)
Theorem fetchArticles_page_shape (category : option string)
    (limit offset : nat) (weird : bool) (t : list Row) :
  let page := fetchArticles category limit offset weird t in
  length page ≤ limit ∧
  StronglySorted newest_first page ∧
  (∀ fr, fr ∈ page →
     fr ∈ feed_articles t ∧
     (weird = true → feed_is_weird fr = true) ∧
     (∀ c, weird = false → category = Some c → c ≠ "" → c ≠ "all" →
           feed_category_name fr = c)).
Proof.
  destruct (fetchArticles_unfold category limit offset weird t)
    as (rows & Hf & Hrows).
  cbv zeta. rewrite Hf. set (l := merge_sort newest_first rows).
  assert (StronglySorted newest_first l) as Hss
    by (apply StronglySorted_merge_sort; apply _).
  split; [rewrite length_take; lia|]. split.
  - rewrite <- (take_drop offset l) in Hss.
    apply StronglySorted_app_1_r in Hss.
    rewrite <- (take_drop limit (drop offset l)) in Hss.
    by apply StronglySorted_app_1_l in Hss.
  - intros fr Hfr. apply Hrows.
    eapply elem_of_sublist in Hfr; [|apply sublist_take].
    eapply elem_of_sublist in Hfr; [|apply sublist_drop].
    unfold l in Hfr. by rewrite merge_sort_Permutation in Hfr.
Qed.

(** X20.  [fetchTrending] returns the seven most viewed rows of the
    public feed, or all of them when there are fewer: they are in
    descending order of views, and no row of the feed that is left out has
    more views than a row returned. *)
Theorem fetchTrending_top_seven (t : list Row) :
  let top := fetchTrending t in
  length top = Nat.min 7 (length (feed_articles t)) ∧
  StronglySorted most_viewed_first top ∧
  (∃ others, top ++ others ≡ₚ feed_articles t ∧
     ∀ a b, a ∈ top → b ∈ others →
            (feed_view_count b ≤ feed_view_count a)%Z).
Proof.
  cbv zeta. unfold fetchTrending.
  set (l := merge_sort most_viewed_first (feed_articles t)).
  assert (StronglySorted most_viewed_first l) as Hss
    by (apply StronglySorted_merge_sort; apply _).
  assert (l ≡ₚ feed_articles t) as Hperm by apply merge_sort_Permutation.
  rewrite <- (take_drop 7 l) in Hss.
  apply StronglySorted_app in Hss as (Hle & Htop & _).
  split; [by rewrite length_take, Hperm|]. split; [done|].
  exists (drop 7 l). split; [by rewrite take_drop|]. exact Hle.
Qed.

(** ** [extractImageFromContent] *)

Lemma span_spec (P : ascii → bool) (s a b : string) :
  span P s = (a, b) →
  s = a +:+ b ∧ all_chars P a = true ∧
  match b with String c _ => P c = false | EmptyString => True end.
Proof.
  revert a b. induction s as [|c s IH]; intros a b; simpl.
  - by intros [= <- <-].
  - destruct (P c) eqn:Hc.
    + destruct (span P s) as [a' b']. intros [= <- <-].
      destruct (IH a' b' eq_refl) as (-> & Ha & Hb).
      simpl. by rewrite Hc, Ha.
    + intros [= <- <-]. simpl. by rewrite Hc.
Qed.

Lemma span_stop (P : ascii → bool) (g : string) (c : ascii) (post : string) :
  all_chars P g = true → P c = false →
  span P (g +:+ String c post) = (g, String c post).
Proof.
  intros Hg Hc. induction g as [|x g IH]; simpl.
  - by rewrite Hc.
  - simpl in Hg. apply andb_true_iff in Hg as [-> Hg]. by rewrite IH.
Qed.

Lemma match_src_sound (s g : string) :
  match_src s = Some g →
  ∃ q1 q2 post,
    s = "src=" +:+ String q1 (g +:+ String q2 post) ∧
    is_quote q1 = true ∧ is_quote q2 = true ∧
    g ≠ "" ∧ all_chars (λ c, negb (is_quote c)) g = true.
Proof.
  destruct s as [|a1 s]; [done|].
  destruct a1 as [[] [] [] [] [] [] [] []]; try done.
  destruct s as [|a2 s]; [done|].
  destruct a2 as [[] [] [] [] [] [] [] []]; try done.
  destruct s as [|a3 s]; [done|].
  destruct a3 as [[] [] [] [] [] [] [] []]; try done.
  destruct s as [|a4 s]; [done|].
  destruct a4 as [[] [] [] [] [] [] [] []]; try done.
  destruct s as [|q rest]; [done|].
  - cbn [match_src]. destruct (is_quote q) eqn:Hq; [|done].
    destruct (span _ rest) as [a b] eqn:Hsp.
    apply span_spec in Hsp as (-> & Ha & Hb).
    destruct a as [|c a]; [done|]. destruct b as [|q2 post]; [done|].
    intros [= <-]. exists q, q2, post.
    apply negb_false_iff in Hb. done.
Qed.

Lemma match_src_complete (q1 q2 : ascii) (g post : string) :
  is_quote q1 = true → is_quote q2 = true →
  g ≠ "" → all_chars (λ c, negb (is_quote c)) g = true →
  match_src ("src=" +:+ String q1 (g +:+ String q2 post)) = Some g.
Proof.
  intros H1 H2 Hne Hg.
  change (match_src (String "s" (String "r" (String "c" (String "="
            (String q1 (g +:+ String q2 post)))))) = Some g).
  cbn [match_src]. rewrite H1.
  rewrite span_stop; [|done|by rewrite H2].
  by destruct g.
Qed.

Lemma match_attrs_sound (taken : bool) (s g : string) :
  match_attrs taken s = Some g →
  ∃ mid rest,
    s = mid +:+ rest ∧ all_chars (λ c, negb (is_gt c)) mid = true ∧
    (taken = false → mid ≠ "") ∧ match_src rest = Some g.
Proof.
  revert taken. induction s as [|c s IH]; intros taken.
  - destruct taken; [|done]. by exists "", "".
  - cbn [match_attrs].
    assert ((if taken then match_src (String c s) else None) = Some g →
            ∃ mid rest, String c s = mid +:+ rest ∧
              all_chars (λ c, negb (is_gt c)) mid = true ∧
              (taken = false → mid ≠ "") ∧ match_src rest = Some g) as Hhere.
    { destruct taken; [|done]. intros H. by exists "", (String c s). }
    destruct (is_gt c) eqn:Hc; [exact Hhere|].
    destruct (match_attrs true s) as [g'|] eqn:E; [|exact Hhere].
    intros [= ->].
    destruct (IH true E) as (mid & rest & -> & Hmid & _ & Hsrc).
    exists (String c mid), rest. simpl. rewrite Hc, Hmid. done.
Qed.

Lemma match_attrs_here (s : string) :
  is_Some (match_src s) → is_Some (match_attrs true s).
Proof.
  intros Hs. destruct s as [|c s]; [done|]. cbn [match_attrs].
  destruct (is_gt c); [done|]. by destruct (match_attrs true s).
Qed.

Lemma match_attrs_complete (taken : bool) (mid rest : string) :
  all_chars (λ c, negb (is_gt c)) mid = true →
  (taken = false → mid ≠ "") →
  is_Some (match_src rest) →
  is_Some (match_attrs taken (mid +:+ rest)).
Proof.
  revert taken. induction mid as [|c mid IH]; intros taken Hmid Hne Hsrc.
  - destruct taken; [|by destruct Hne]. by apply match_attrs_here.
  - simpl in Hmid. apply andb_true_iff in Hmid as [Hc Hmid].
    apply negb_true_iff in Hc.
    change (String c mid +:+ rest) with (String c (mid +:+ rest)).
    cbn [match_attrs]. rewrite Hc.
    destruct (IH true Hmid) as [g Hg]; [done|done|]. by rewrite Hg.
Qed.

Lemma match_img_sound (s g : string) :
  match_img s = Some g → ∃ r, s = "<img" +:+ r ∧ match_attrs false r = Some g.
Proof.
  destruct s as [|a1 s]; [done|].
  destruct a1 as [[] [] [] [] [] [] [] []]; try done.
  destruct s as [|a2 s]; [done|].
  destruct a2 as [[] [] [] [] [] [] [] []]; try done.
  destruct s as [|a3 s]; [done|].
  destruct a3 as [[] [] [] [] [] [] [] []]; try done.
  destruct s as [|a4 r]; [done|].
  destruct a4 as [[] [] [] [] [] [] [] []]; try done.
  - intros H. by exists r.
Qed.

Lemma search_img_sound (s g : string) :
  search_img s = Some g → ∃ pre rest, s = pre +:+ rest ∧ match_img rest = Some g.
Proof.
  induction s as [|c s IH].
  - simpl. intros H. by exists "", "".
  - cbn [search_img]. destruct (match_img (String c s)) as [g'|] eqn:E.
    + intros [= ->]. by exists "", (String c s).
    + intros (pre & rest & -> & H)%IH. by exists (String c pre), rest.
Qed.

Lemma search_img_complete (pre rest : string) :
  is_Some (match_img rest) → is_Some (search_img (pre +:+ rest)).
Proof.
  intros [g Hg]. induction pre as [|c pre IH].
  - change ("" +:+ rest) with rest. destruct rest as [|c r]; [done|].
    cbn [search_img]. by rewrite Hg.
  - change (String c pre +:+ rest) with (String c (pre +:+ rest)).
    cbn [search_img]. by destruct (match_img (String c (pre +:+ rest))).
Qed.

(** X22.  [extractImageFromContent] finds an image URL exactly when the
    text holds a match of its pattern: [<img], a non-empty run without
    [>], [src=], a quote, a non-empty run without quote, a quote.  The
    URL it returns is the capture of such a match, so it is never empty
    and holds no quote; for [null] and for the empty text it returns
    [null]. *)
Theorem extractImageFromContent_matches (html : string) :
  extractImageFromContent None = None ∧
  extractImageFromContent (Some "") = None ∧
  (∀ g, extractImageFromContent (Some html) = Some g →
        ∃ pre mid post q1 q2, img_match html pre mid g post q1 q2) ∧
  (∀ pre mid g post q1 q2,
     img_match html pre mid g post q1 q2 →
     is_Some (extractImageFromContent (Some html))).
Proof.
  split; [done|]. split; [done|]. split.
  - intros g. unfold extractImageFromContent.
    destruct (Js.truthy_str (Some html)); [|done]. simpl.
    intros (pre & rest & -> & Hm)%search_img_sound.
    apply match_img_sound in Hm as (r & -> & Ha).
    apply match_attrs_sound in Ha as (mid & rest & -> & Hmid & Hne & Hs).
    apply match_src_sound in Hs as (q1 & q2 & post & -> & H1 & H2 & Hg & Hq).
    exists pre, mid, post, q1, q2. unfold img_match. auto 10.
  - intros pre mid g post q1 q2 (-> & Hne & Hmid & H1 & H2 & Hg & Hq).
    unfold extractImageFromContent.
    assert (Js.truthy_str
              (Some (pre +:+ "<img" +:+ mid +:+ "src="
                     +:+ String q1 (g +:+ String q2 post))) = true) as ->.
    { apply truthy_str_Some. eexists. split; [done|]. by destruct pre. }
    simpl default. apply search_img_complete.
    change (is_Some (match_attrs false
              (mid +:+ "src=" +:+ String q1 (g +:+ String q2 post)))).
    apply match_attrs_complete; [done|done|].
    rewrite match_src_complete by done. by eexists.
Qed.

(** ** The source adapters *)

Lemma same_net_refl (n : Net) : same_net n n.
Proof. by repeat split. Qed.

Lemma same_net_trans (n1 n2 n3 : Net) :
  same_net n1 n2 → same_net n2 n3 → same_net n1 n3.
Proof.
  intros (? & ? & ? & ? & ?) (? & ? & ? & ? & ?). repeat split; congruence.
Qed.

(** A loop whose iterations each append their yield: the loop appends
    the yields in order, sends one request per element and writes one
    console line per iteration that ends in [catch]. *)
Lemma for_of_yields {A} (l : list A)
    (body : A → list RawItem → M Net (list RawItem))
    (y : Net → A → list RawItem) (req : A → NetRequest) (c : Net → A → bool)
    (n0 : Net) :
  (∀ x acc n, same_net n0 n →
     ∃ n', body x acc n = (Ok (acc ++ y n0 x), n') ∧ same_net n0 n' ∧
           net_sent n' = net_sent n ++ [req x] ∧
           length (net_console n')
             = length (net_console n) + (if c n0 x then 1 else 0)) →
  ∀ acc n, same_net n0 n →
    ∃ n', for_of l body acc n = (Ok (acc ++ concat (y n0 <$> l)), n') ∧
          same_net n0 n' ∧
          net_sent n' = net_sent n ++ (req <$> l) ∧
          length (net_console n')
            = length (net_console n) + length (filter (λ x, c n0 x = true) l).
Proof.
  intros Hbody. induction l as [|x l IH]; intros acc n Hn.
  - exists n. simpl. rewrite !app_nil_r. split; [done|]. split; [done|].
    split; [done|]. lia.
  - destruct (Hbody x acc n Hn) as (n1 & Hrun & Hn1 & Hsent & Hcon).
    destruct (IH (acc ++ y n0 x) n1 Hn1) as (n' & Hrun' & Hn' & Hsent' & Hcon').
    exists n'. cbn [for_of]. erewrite bind_Ok by exact Hrun.
    rewrite Hrun'. rewrite fmap_cons. simpl concat. rewrite <- app_assoc.
    split; [done|]. split; [done|]. split.
    + rewrite Hsent', Hsent, fmap_cons, <- app_assoc. done.
    + rewrite Hcon', Hcon. destruct (c n0 x) eqn:E.
      * rewrite filter_cons_True by done. simpl. lia.
      * rewrite filter_cons_False by (rewrite E; done). lia.
Qed.

(** One iteration of an adapter, [f] being the callback of [map]. *)
Lemma iteration_yields {A} (r : NetRequest) (response : Net → Response A)
    (prop label : string) (f : A → RawItem) (acc : list RawItem) (n : Net) :
  ∃ n',
    try_catch
      (data ← net_get r response;
       match data with
       | Some l => items ← map_objects prop f l; mret (acc ++ items)
       | None => mret acc
       end)
      (λ msg, net_console_error label msg;; mret acc) n
    = (Ok (acc ++ yield f (body_of (response n))), n') ∧
    same_net n n' ∧ net_sent n' = net_sent n ++ [r] ∧
    length (net_console n')
      = length (net_console n)
        + (if caught (response n) (body_of (response n)) then 1 else 0).
Proof.
  unfold try_catch, net_get, map_objects, net_console_error, modify, throw,
    yield, caught, body_of.
  unfold mbind, M_bind, mret, M_ret.
  destruct (response n) as [msg|[l|]]; simpl.
  - eexists. split; [by rewrite app_nil_r|]. split; [by repeat split|].
    split; [done|]. cbn [net_console with_net_console with_net_sent].
    rewrite length_app. done.
  - destruct (all_objects l) as [objects|]; simpl.
    + eexists. split; [done|]. split; [by repeat split|].
      split; [done|]. simpl. lia.
    + eexists. split; [by rewrite app_nil_r|]. split; [by repeat split|].
      split; [done|]. cbn [net_console with_net_console with_net_sent].
      rewrite length_app. done.
  - eexists. split; [by rewrite app_nil_r|]. split; [by repeat split|].
    split; [done|]. simpl. lia.
Qed.

Lemma same_net_newsapi (n n' : Net) q :
  same_net n n' → newsapi_response n' q = newsapi_response n q.
Proof. intros (-> & _). done. Qed.

Lemma same_net_guardian (n n' : Net) q :
  same_net n n' → guardian_response n' q = guardian_response n q.
Proof. intros (_ & -> & _). done. Qed.

Lemma same_net_gnews (n n' : Net) q :
  same_net n n' → gnews_response n' q = gnews_response n q.
Proof. intros (_ & _ & -> & _). done. Qed.

Lemma same_net_rss (n n' : Net) q :
  same_net n n' → rss_response n' q = rss_response n q.
Proof. intros (_ & _ & _ & -> & _). done. Qed.

Lemma same_net_now (n n' : Net) : same_net n n' → net_now n' = net_now n.
Proof. intros (_ & _ & _ & _ & ->). done. Qed.

Lemma fetchNewsAPI_with_key (keys : Keys) (n : Net) (k : string) :
  newsapi_key keys = Some k → k ≠ "" →
  ∃ n',
    fetchNewsAPI keys n
      = (Ok (concat ((λ q, yield newsapi_item
                             (body_of (newsapi_response n q)))
                     <$> newsapi_queries)), n') ∧
    same_net n n' ∧
    net_sent n' = net_sent n ++ ((λ q, GetNewsApi q k) <$> newsapi_queries) ∧
    length (net_console n')
      = length (net_console n)
        + length (filter (λ q, caught (newsapi_response n q)
                                 (body_of (newsapi_response n q)) = true)
                         newsapi_queries).
Proof.
  intros Hk Hne. unfold fetchNewsAPI.
  assert (Js.truthy_str (newsapi_key keys) = true) as ->.
  { apply truthy_str_Some. by exists k. }
  rewrite Hk. cbn [negb default].
  apply (for_of_yields newsapi_queries _
           (λ n0 q, yield newsapi_item (body_of (newsapi_response n0 q)))
           (λ q, GetNewsApi q k)
           (λ n0 q, caught (newsapi_response n0 q)
                      (body_of (newsapi_response n0 q))) n);
    [|apply same_net_refl].
  intros q acc n1 Hn1.
  destruct (iteration_yields (GetNewsApi q k) (λ n, newsapi_response n q)
              "title" ("NewsAPI query failed: " +:+ q) newsapi_item acc n1)
    as (n' & Hrun & Hsame & Hsent & Hcon).
  rewrite (same_net_newsapi _ _ q Hn1) in Hrun, Hcon.
  exists n'. split; [exact Hrun|]. split; [by eapply same_net_trans|done].
Qed.
Lemma fetchNewsAPI_without_key (keys : Keys) (n : Net) :
  Js.truthy_str (newsapi_key keys) = false → fetchNewsAPI keys n = (Ok [], n).
Proof. intros Hk. unfold fetchNewsAPI. by rewrite Hk. Qed.

(** X23.  Without a key [fetchNewsAPI] returns the empty array and
    sends nothing.  With a key it sends its five queries in order,
    whatever they are answered, and returns normally: its result is the
    concatenation, in the order of the queries, of the mapped articles of
    each answer.  A query that fails — the request is rejected, or the
    array holds [null] — contributes nothing, costs one console line and
    does not touch the articles of the other queries. *)
Theorem fetchNewsAPI_yields (keys : Keys) (n : Net) :
  (Js.truthy_str (newsapi_key keys) = false →
   fetchNewsAPI keys n = (Ok [], n)) ∧
  (∀ k, newsapi_key keys = Some k → k ≠ "" →
    ∃ n',
      fetchNewsAPI keys n
        = (Ok (concat ((λ q, yield newsapi_item
                               (body_of (newsapi_response n q)))
                       <$> newsapi_queries)), n') ∧
      same_net n n' ∧
      net_sent n' = net_sent n ++ ((λ q, GetNewsApi q k) <$> newsapi_queries) ∧
      length (net_console n')
        = length (net_console n)
          + length (filter (λ q, caught (newsapi_response n q)
                                   (body_of (newsapi_response n q)) = true)
                           newsapi_queries)).
Proof.
  split; [apply fetchNewsAPI_without_key|].
  intros k Hk Hne. by apply fetchNewsAPI_with_key.
Qed.

(** The property above on the example network: four queries yield one
    article each, the rejected one yields none. *)
Lemma fetchNewsAPI_yields_witness :
  newsapi_key Wire.keys = Some "k1" ∧ "k1" ≠ "" ∧
  ∃ items n',
    fetchNewsAPI Wire.keys Wire.net = (Ok items, n') ∧
    length items = 4 ∧ length (net_sent n') = 5 ∧
    length (net_console n') = 1.
Proof.
  assert ("k1" ≠ "") as Hne by done.
  split; [reflexivity|]. split; [exact Hne|].
  destruct (proj2 (fetchNewsAPI_yields Wire.keys Wire.net) "k1" eq_refl Hne)
    as (n' & H1 & _ & H3 & H4).
  eexists _, n'. split; [exact H1|]. split; [reflexivity|].
  rewrite H3, H4. split; reflexivity.
Defined.

Lemma fetchGuardian_with_key (keys : Keys) (n : Net) (k : string) :
  guardian_key keys = Some k → k ≠ "" →
  ∃ n',
    fetchGuardian keys n
      = (Ok (concat ((λ s, yield guardian_item
                             (body_of (guardian_response n s)))
                     <$> guardian_sections)), n') ∧
    same_net n n' ∧
    net_sent n' = net_sent n ++ ((λ s, GetGuardian s k) <$> guardian_sections) ∧
    length (net_console n')
      = length (net_console n)
        + length (filter (λ s, caught (guardian_response n s)
                                 (body_of (guardian_response n s)) = true)
                         guardian_sections).
Proof.
  intros Hk Hne. unfold fetchGuardian.
  assert (Js.truthy_str (guardian_key keys) = true) as ->.
  { apply truthy_str_Some. by exists k. }
  rewrite Hk. cbn [negb default].
  apply (for_of_yields guardian_sections _
           (λ n0 s, yield guardian_item (body_of (guardian_response n0 s)))
           (λ s, GetGuardian s k)
           (λ n0 s, caught (guardian_response n0 s)
                      (body_of (guardian_response n0 s))) n);
    [|apply same_net_refl].
  intros s acc n1 Hn1.
  destruct (iteration_yields (GetGuardian s k) (λ n, guardian_response n s)
              "webTitle" ("Guardian fetch failed: " +:+ s) guardian_item
              acc n1)
    as (n' & Hrun & Hsame & Hsent & Hcon).
  rewrite (same_net_guardian _ _ s Hn1) in Hrun, Hcon.
  exists n'. split; [exact Hrun|]. split; [by eapply same_net_trans|done].
Qed.
Lemma fetchGuardian_without_key (keys : Keys) (n : Net) :
  Js.truthy_str (guardian_key keys) = false → fetchGuardian keys n = (Ok [], n).
Proof. intros Hk. unfold fetchGuardian. by rewrite Hk. Qed.

(** X24.  Without a key [fetchGuardian] returns the empty array and
    sends nothing.  With a key it sends its four section queries in
    order and returns normally: its result is the concatenation of the
    mapped results of each answer; a section that fails contributes
    nothing and costs one console line. *)
Theorem fetchGuardian_yields (keys : Keys) (n : Net) :
  (Js.truthy_str (guardian_key keys) = false →
   fetchGuardian keys n = (Ok [], n)) ∧
  (∀ k, guardian_key keys = Some k → k ≠ "" →
    ∃ n',
      fetchGuardian keys n
        = (Ok (concat ((λ s, yield guardian_item
                               (body_of (guardian_response n s)))
                       <$> guardian_sections)), n') ∧
      same_net n n' ∧
      net_sent n' = net_sent n ++ ((λ s, GetGuardian s k) <$> guardian_sections) ∧
      length (net_console n')
        = length (net_console n)
          + length (filter (λ s, caught (guardian_response n s)
                                   (body_of (guardian_response n s)) = true)
                           guardian_sections)).
Proof.
  split; [apply fetchGuardian_without_key|].
  intros k Hk Hne. by apply fetchGuardian_with_key.
Qed.

(** The property above on the example network, whose answers hold no
    results. *)
Lemma fetchGuardian_yields_witness :
  guardian_key Wire.keys = Some "k2" ∧ "k2" ≠ "" ∧
  ∃ n',
    fetchGuardian Wire.keys Wire.net = (Ok [], n') ∧
    length (net_sent n') = 4 ∧ length (net_console n') = 0.
Proof.
  assert ("k2" ≠ "") as Hne by done.
  split; [reflexivity|]. split; [exact Hne|].
  destruct (proj2 (fetchGuardian_yields Wire.keys Wire.net) "k2" eq_refl Hne)
    as (n' & H1 & _ & H3 & H4).
  exists n'. split; [exact H1|]. rewrite H3, H4. split; reflexivity.
Defined.

Lemma fetchGNews_with_key (keys : Keys) (n : Net) (k : string) :
  gnews_key keys = Some k → k ≠ "" →
  ∃ n',
    fetchGNews keys n
      = (Ok (concat ((λ t, yield gnews_item (body_of (gnews_response n t)))
                     <$> gnews_topics)), n') ∧
    same_net n n' ∧
    net_sent n' = net_sent n ++ ((λ t, GetGNews t k) <$> gnews_topics) ∧
    length (net_console n')
      = length (net_console n)
        + length (filter (λ t, caught (gnews_response n t)
                                 (body_of (gnews_response n t)) = true)
                         gnews_topics).
Proof.
  intros Hk Hne. unfold fetchGNews.
  assert (Js.truthy_str (gnews_key keys) = true) as ->.
  { apply truthy_str_Some. by exists k. }
  rewrite Hk. cbn [negb default].
  apply (for_of_yields gnews_topics _
           (λ n0 t, yield gnews_item (body_of (gnews_response n0 t)))
           (λ t, GetGNews t k)
           (λ n0 t, caught (gnews_response n0 t)
                      (body_of (gnews_response n0 t))) n);
    [|apply same_net_refl].
  intros t acc n1 Hn1.
  destruct (iteration_yields (GetGNews t k) (λ n, gnews_response n t)
              "title" ("GNews fetch failed: " +:+ t) gnews_item acc n1)
    as (n' & Hrun & Hsame & Hsent & Hcon).
  rewrite (same_net_gnews _ _ t Hn1) in Hrun, Hcon.
  exists n'. split; [exact Hrun|]. split; [by eapply same_net_trans|done].
Qed.
Lemma fetchGNews_without_key (keys : Keys) (n : Net) :
  Js.truthy_str (gnews_key keys) = false → fetchGNews keys n = (Ok [], n).
Proof. intros Hk. unfold fetchGNews. by rewrite Hk. Qed.

(** X25.  Without a key [fetchGNews] returns the empty array and sends
    nothing.  With a key it sends its four topic queries in order and
    returns normally: its result is the concatenation of the mapped
    articles of each answer; a topic that fails contributes nothing and
    costs one console line. *)
Theorem fetchGNews_yields (keys : Keys) (n : Net) :
  (Js.truthy_str (gnews_key keys) = false →
   fetchGNews keys n = (Ok [], n)) ∧
  (∀ k, gnews_key keys = Some k → k ≠ "" →
    ∃ n',
      fetchGNews keys n
        = (Ok (concat ((λ t, yield gnews_item (body_of (gnews_response n t)))
                       <$> gnews_topics)), n') ∧
      same_net n n' ∧
      net_sent n' = net_sent n ++ ((λ t, GetGNews t k) <$> gnews_topics) ∧
      length (net_console n')
        = length (net_console n)
          + length (filter (λ t, caught (gnews_response n t)
                                   (body_of (gnews_response n t)) = true)
                           gnews_topics)).
Proof.
  split; [apply fetchGNews_without_key|].
  intros k Hk Hne. by apply fetchGNews_with_key.
Qed.

(** The property above on the example network, whose answers hold
    [null]: every topic ends in [catch]. *)
Lemma fetchGNews_yields_witness :
  gnews_key Wire.keys = Some "k3" ∧ "k3" ≠ "" ∧
  ∃ n',
    fetchGNews Wire.keys Wire.net = (Ok [], n') ∧
    length (net_sent n') = 4 ∧ length (net_console n') = 4.
Proof.
  assert ("k3" ≠ "") as Hne by done.
  split; [reflexivity|]. split; [exact Hne|].
  destruct (proj2 (fetchGNews_yields Wire.keys Wire.net) "k3" eq_refl Hne)
    as (n' & H1 & _ & H3 & H4).
  exists n'. split; [exact H1|]. rewrite H3, H4. split; reflexivity.
Defined.

(** One iteration of [fetchRSSFeeds]. *)
Lemma rss_iteration_yields (feed : string * string) (acc : list RawItem)
    (n : Net) :
  ∃ n',
    try_catch
      (items ← net_get (ParseRss feed.1) (λ n, rss_response n feed.1);
       now ← gets net_now;
       mapped ← map_objects "title" (rss_item now feed.2)
                            (take 15 (default [] items));
       mret (acc ++ mapped))
      (λ msg,
         net_console_error ("RSS fetch failed: " +:+ feed.2) msg;;
         mret acc) n
    = (Ok (acc ++ yield (rss_item (net_now n) feed.2)
                        (rss_slice (rss_response n feed.1))), n') ∧
    same_net n n' ∧ net_sent n' = net_sent n ++ [ParseRss feed.1] ∧
    length (net_console n')
      = length (net_console n)
        + (if caught (rss_response n feed.1)
                     (rss_slice (rss_response n feed.1)) then 1 else 0).
Proof.
  unfold try_catch, net_get, map_objects, net_console_error, modify, throw,
    gets, yield, caught, rss_slice, body_of.
  unfold mbind, M_bind, mret, M_ret.
  destruct (rss_response n feed.1) as [msg|items]; simpl.
  - eexists. split; [by rewrite app_nil_r|]. split; [by repeat split|].
    split; [done|]. cbn [net_console with_net_console with_net_sent].
    rewrite length_app. done.
  - destruct (all_objects (take 15 (default [] items))) as [objects|]; simpl.
    + eexists. split; [done|]. split; [by repeat split|].
      split; [done|]. simpl. lia.
    + eexists. split; [by rewrite app_nil_r|]. split; [by repeat split|].
      split; [done|]. cbn [net_console with_net_console with_net_sent].
      rewrite length_app. done.
Qed.

Lemma fetchRSSFeeds_runs (n : Net) :
  ∃ n',
    fetchRSSFeeds n
      = (Ok (concat ((λ feed, yield (rss_item (net_now n) feed.2)
                                    (rss_slice (rss_response n feed.1)))
                     <$> rss_feeds)), n') ∧
    same_net n n' ∧
    net_sent n' = net_sent n ++ ((λ feed, ParseRss feed.1) <$> rss_feeds) ∧
    length (net_console n')
      = length (net_console n)
        + length (filter (λ feed, caught (rss_response n feed.1)
                                    (rss_slice (rss_response n feed.1)) = true)
                         rss_feeds).
Proof.
  unfold fetchRSSFeeds.
  apply (for_of_yields rss_feeds _
           (λ n0 feed, yield (rss_item (net_now n0) feed.2)
                         (rss_slice (rss_response n0 feed.1)))
           (λ feed, ParseRss feed.1)
           (λ n0 feed, caught (rss_response n0 feed.1)
                         (rss_slice (rss_response n0 feed.1))) n);
    [|apply same_net_refl].
  intros feed acc n1 Hn1.
  destruct (rss_iteration_yields feed acc n1)
    as (n' & Hrun & Hsame & Hsent & Hcon).
  rewrite (same_net_rss _ _ feed.1 Hn1), (same_net_now _ _ Hn1) in Hrun.
  rewrite (same_net_rss _ _ feed.1 Hn1) in Hcon.
  exists n'. split; [exact Hrun|]. split; [by eapply same_net_trans|done].
Qed.

Lemma all_objects_length {A} (l : list (option A)) (objects : list A) :
  all_objects l = Some objects → length objects = length l.
Proof.
  revert objects. induction l as [|[a|] l IH]; intros objects; simpl.
  - by intros [= <-].
  - destruct (all_objects l) as [o|]; [|done]. simpl.
    intros [= <-]. simpl. by rewrite (IH o).
  - done.
Qed.

Lemma yield_length {A} (f : A → RawItem) (l : list (option A)) :
  length (yield f (Some l)) ≤ length l.
Proof.
  unfold yield. simpl. destruct (all_objects l) as [o|] eqn:E; simpl; [|lia].
  rewrite length_fmap. by rewrite (all_objects_length l o).
Qed.

Lemma Forall_yield {A} (P : RawItem → Prop) (f : A → RawItem)
    (array : option (list (option A))) :
  (∀ a, P (f a)) → Forall P (yield f array).
Proof.
  intros Hf. unfold yield. destruct (array ≫= all_objects); [|done].
  apply Forall_fmap, Forall_forall. intros a _. apply Hf.
Qed.

Lemma Forall_concat_fmap {A B} (P : B → Prop) (f : A → list B) (l : list A) :
  (∀ x, x ∈ l → Forall P (f x)) → Forall P (concat (f <$> l)).
Proof.
  intros Hf. apply Forall_concat, Forall_fmap, Forall_forall. exact Hf.
Qed.

Lemma concat_length_bound {A B} (f : A → list B) (l : list A) (k : nat) :
  (∀ x, length (f x) ≤ k) → length (concat (f <$> l)) ≤ k * length l.
Proof.
  intros Hf. induction l as [|x l IH]; [simpl; lia|].
  rewrite fmap_cons. cbn [concat length]. rewrite length_app.
  pose proof (Hf x). lia.
Qed.

(** X26.  [fetchRSSFeeds] asks for its nine feeds in order, whatever
    they are answered, and returns normally: its result is the
    concatenation of the mapped first fifteen items of each feed, so it
    has at most 135 articles.  A feed that fails — the parser rejects, or
    one of its first fifteen items is [null] — contributes nothing and
    costs one console line.  Every article has an excerpt and a
    publication time, the clock standing in for a missing date. *)
Theorem fetchRSSFeeds_yields (n : Net) :
  ∃ items n',
    fetchRSSFeeds n = (Ok items, n') ∧
    items = concat ((λ feed, yield (rss_item (net_now n) feed.2)
                                   (rss_slice (rss_response n feed.1)))
                    <$> rss_feeds) ∧
    length items ≤ 135 ∧
    Forall (λ a, is_Some (excerpt a) ∧ is_Some (published_at a)) items ∧
    same_net n n' ∧
    net_sent n' = net_sent n ++ ((λ feed, ParseRss feed.1) <$> rss_feeds) ∧
    length (net_console n')
      = length (net_console n)
        + length (filter (λ feed, caught (rss_response n feed.1)
                                    (rss_slice (rss_response n feed.1)) = true)
                         rss_feeds).
Proof.
  destruct (fetchRSSFeeds_runs n) as (n' & Hrun & Hrest).
  eexists _, n'. split; [exact Hrun|]. split; [done|]. split; [|split].
  - etrans; [apply (concat_length_bound _ _ 15)|done].
    intros feed. unfold rss_slice. etrans; [apply yield_length|].
    rewrite length_take. lia.
  - apply Forall_concat_fmap. intros feed _. apply Forall_yield.
    intros item. split; by eexists.
  - exact Hrest.
Qed.

Lemma or_str_nonempty (v : option string) (d : string) :
  d ≠ "" → or_str v d ≠ "".
Proof.
  intros Hd. unfold or_str. destruct (Js.truthy_str v) eqn:E; [|done].
  apply truthy_str_Some in E as (s & -> & Hs). done.
Qed.

(** What holds of an adapter with or without its key.  [P] is a property
    of the mapped objects. *)
Lemma keyed_adapter_total (m : M Net (list RawItem)) (key : option string)
    {A} (f : A → RawItem) (array : string → option (list (option A)))
    (queries : list string) (req : string → string → NetRequest)
    (c : string → bool) (P : RawItem → Prop) (n : Net) :
  (Js.truthy_str key = false → m n = (Ok [], n)) →
  (∀ k, key = Some k → k ≠ "" →
     ∃ n', m n = (Ok (concat ((λ q, yield f (array q)) <$> queries)), n') ∧
           same_net n n' ∧
           net_sent n' = net_sent n ++ ((λ q, req q k) <$> queries) ∧
           length (net_console n')
             = length (net_console n)
               + length (filter (λ q, c q = true) queries)) →
  (∀ a, P (f a)) →
  ∃ items n',
    m n = (Ok items, n') ∧ same_net n n' ∧
    length (net_console n) ≤ length (net_console n') ∧
    (∃ more, net_sent n' = net_sent n ++ more ∧
             length more ≤ length queries) ∧
    Forall P items.
Proof.
  intros Hno Hkey HP. destruct (Js.truthy_str key) eqn:E.
  - apply truthy_str_Some in E as (k & Hk & Hne).
    destruct (Hkey k Hk Hne) as (n' & Hrun & Hsame & Hsent & Hcon).
    eexists _, n'. split; [exact Hrun|]. split; [done|]. split; [lia|].
    split.
    + eexists. split; [exact Hsent|]. by rewrite length_fmap.
    + apply Forall_concat_fmap. intros q _. by apply Forall_yield.
  - exists [], n. split; [by apply Hno|]. split; [apply same_net_refl|].
    split; [done|]. split; [|done]. exists []. rewrite app_nil_r.
    split; [done|]. simpl. lia.
Qed.

Lemma settle_Ok (m : M Net (list RawItem)) (n n' : Net) items :
  m n = (Ok items, n') → settle m n = (Ok (Fulfilled items), n').
Proof. intros H. unfold settle. by rewrite H. Qed.

Lemma fetch_all_runs (keys : Keys) (n : Net) :
  ∃ a b c d n',
    fetch_all keys n
      = (Ok {| newsapi := Fulfilled a; guardian := Fulfilled b;
               gnews := Fulfilled c; rss := Fulfilled d |}, n') ∧
    same_net n n' ∧
    length (net_console n) ≤ length (net_console n') ∧
    (∃ more, net_sent n' = net_sent n ++ more ∧ 9 ≤ length more ≤ 22) ∧
    Forall (λ x, api_source x = "newsapi" ∧ source_name x ≠ "") a ∧
    Forall (λ x, api_source x = "guardian" ∧
                 source_name x = "The Guardian" ∧
                 is_Some (excerpt x) ∧ raw_content x = None) b ∧
    Forall (λ x, api_source x = "gnews" ∧ source_name x ≠ "" ∧
                 author x = None) c ∧
    Forall (λ x, api_source x = "rss" ∧ source_name x ∈ rss_feeds.*2 ∧
                 is_Some (excerpt x) ∧ is_Some (published_at x)) d.
Proof.
  destruct (keyed_adapter_total (fetchNewsAPI keys) (newsapi_key keys)
              newsapi_item (λ q, body_of (newsapi_response n q))
              newsapi_queries GetNewsApi
              (λ q, caught (newsapi_response n q)
                      (body_of (newsapi_response n q)))
              (λ x, api_source x = "newsapi" ∧ source_name x ≠ "") n)
    as (a & n1 & Ha & Hs1 & Hc1 & (m1 & Hm1 & Hl1) & HPa).
  { apply fetchNewsAPI_without_key. }
  { intros k. apply fetchNewsAPI_with_key. }
  { intros x. split; [done|]. by apply or_str_nonempty. }
  destruct (keyed_adapter_total (fetchGuardian keys) (guardian_key keys)
              guardian_item (λ q, body_of (guardian_response n1 q))
              guardian_sections GetGuardian
              (λ q, caught (guardian_response n1 q)
                      (body_of (guardian_response n1 q)))
              (λ x, api_source x = "guardian" ∧
                    source_name x = "The Guardian" ∧
                    is_Some (excerpt x) ∧ raw_content x = None) n1)
    as (b & n2 & Hb & Hs2 & Hc2 & (m2 & Hm2 & Hl2) & HPb).
  { apply fetchGuardian_without_key. }
  { intros k. apply fetchGuardian_with_key. }
  { intros x. split; [done|]. split; [done|]. split; [by eexists|done]. }
  destruct (keyed_adapter_total (fetchGNews keys) (gnews_key keys)
              gnews_item (λ q, body_of (gnews_response n2 q))
              gnews_topics GetGNews
              (λ q, caught (gnews_response n2 q)
                      (body_of (gnews_response n2 q)))
              (λ x, api_source x = "gnews" ∧ source_name x ≠ "" ∧
                    author x = None) n2)
    as (c & n3 & Hc & Hs3 & Hc3 & (m3 & Hm3 & Hl3) & HPc).
  { apply fetchGNews_without_key. }
  { intros k. apply fetchGNews_with_key. }
  { intros x. split; [done|]. split; [by apply or_str_nonempty|done]. }
  destruct (fetchRSSFeeds_runs n3) as (n4 & Hd & Hs4 & Hm4 & Hc4).
  eexists a, b, c, _, n4. split.
  { unfold fetch_all.
    erewrite bind_Ok by (apply settle_Ok; exact Ha).
    erewrite bind_Ok by (apply settle_Ok; exact Hb).
    erewrite bind_Ok by (apply settle_Ok; exact Hc).
    erewrite bind_Ok by (apply settle_Ok; exact Hd).
    reflexivity. }
  split.
  { eapply same_net_trans; [exact Hs1|]. eapply same_net_trans; [exact Hs2|].
    eapply same_net_trans; [exact Hs3|exact Hs4]. }
  split; [lia|]. split.
  { exists (m1 ++ m2 ++ m3 ++ ((λ feed, ParseRss feed.1) <$> rss_feeds)).
    rewrite Hm4, Hm3, Hm2, Hm1, <- !app_assoc. split; [done|].
    rewrite !length_app, length_fmap. simpl in *. lia. }
  split; [done|]. split; [done|]. split; [done|].
  apply Forall_concat_fmap. intros feed Hfeed. apply Forall_yield.
  intros item. split; [done|]. split; [|split; by eexists].
  change (feed.2 ∈ rss_feeds.*2). by apply list_elem_of_fmap_2.
Qed.

(** X27.  The four adapters never reject: whatever keys are set and
    whatever the network answers, each entry of [Promise.allSettled] is
    fulfilled, so the branch of [run] for a rejected adapter is never
    taken.  Between 9 and 22 requests are sent, and the console only
    grows. *)
Theorem fetch_all_fulfils (keys : Keys) (n : Net) :
  ∃ a b c d n',
    fetch_all keys n
      = (Ok {| newsapi := Fulfilled a; guardian := Fulfilled b;
               gnews := Fulfilled c; rss := Fulfilled d |}, n') ∧
    same_net n n' ∧
    length (net_console n) ≤ length (net_console n') ∧
    (∃ more, net_sent n' = net_sent n ++ more ∧ 9 ≤ length more ≤ 22).
Proof.
  destruct (fetch_all_runs keys n)
    as (a & b & c & d & n' & H1 & H2 & H3 & H4 & _).
  by exists a, b, c, d, n'.
Qed.

(** X28.  Every article the adapters hand to [run] names its adapter in
    [api_source] and has a non-empty [source_name]: the name the API
    gives or [Unknown] for NewsAPI and GNews, [The Guardian], or the name
    of the feed.  Guardian and RSS articles always have an excerpt,
    possibly empty, RSS articles always have a publication time, Guardian
    articles never have [raw_content] and GNews articles never have an
    author. *)
Theorem adapters_tag_their_articles (keys : Keys) (n : Net) :
  ∃ src n',
    fetch_all keys n = (Ok src, n') ∧
    Forall (λ x, api_source x = "newsapi" ∧ source_name x ≠ "")
           (value_or_empty (newsapi src)) ∧
    Forall (λ x, api_source x = "guardian" ∧
                 source_name x = "The Guardian" ∧
                 is_Some (excerpt x) ∧ raw_content x = None)
           (value_or_empty (guardian src)) ∧
    Forall (λ x, api_source x = "gnews" ∧ source_name x ≠ "" ∧
                 author x = None)
           (value_or_empty (gnews src)) ∧
    Forall (λ x, api_source x = "rss" ∧ source_name x ∈ rss_feeds.*2 ∧
                 is_Some (excerpt x) ∧ is_Some (published_at x))
           (value_or_empty (rss src)).
Proof.
  destruct (fetch_all_runs keys n)
    as (a & b & c & d & n' & H1 & _ & _ & _ & Ha & Hb & Hc & Hd).
  eexists _, n'. split; [exact H1|]. done.
Qed.

(** ** [timeAgo] *)

(** X29.  The label [timeAgo] gives depends on the age of the instant:
    minutes, fewer than 60, below one hour; hours, from 1 to 23, below one
    day; days, from 1 to 6, below one week; the date from one week on, and
    for [null], which is read as the epoch.  An instant in the future
    gets a negative number of minutes. *)
Theorem timeAgo_ranges (now : Z) (dateStr : option Z) :
  let age := (now - default 0 dateStr)%Z in
  match timeAgo now dateStr with
  | MinAgo m =>
      (age < 3600000 ∧ m < 60 ∧ (0 ≤ age → 0 ≤ m) ∧ (age < 0 → m < 0))%Z
  | HoursAgo h => (3600000 ≤ age < 86400000 ∧ 1 ≤ h ≤ 23)%Z
  | DaysAgo d => (86400000 ≤ age < 604800000 ∧ 1 ≤ d ≤ 6)%Z
  | LocaleDate t => (604800000 ≤ age)%Z ∧ t = default 0%Z dateStr
  end.
Proof.
  intros age. unfold timeAgo. fold age.
  destruct (Z.ltb_spec (age / 1000) 3600) as [H1|H1].
  { Z.div_mod_to_equations. lia. }
  destruct (Z.ltb_spec (age / 1000) 86400) as [H2|H2].
  { Z.div_mod_to_equations. lia. }
  destruct (Z.ltb_spec (age / 1000) 604800) as [H3|H3].
  { Z.div_mod_to_equations. lia. }
  split; [|done]. Z.div_mod_to_equations. lia.
Qed.

Lemma string_app_length (a b : string) :
  String.length (a +:+ b) = String.length a + String.length b.
Proof. induction a as [|c a IH]; simpl; [done|]. by rewrite IH. Qed.

Lemma string_app_inv (a a' b b' : string) :
  a +:+ b = a' +:+ b' → String.length a = String.length a' →
  a = a' ∧ b = b'.
Proof.
  revert a'. induction a as [|c a IH]; intros [|c' a']; simpl; try done.
  intros [= -> H] [= Hl]. by destruct (IH a' H Hl) as [-> ->].
Qed.

(** The match [search_img] returns starts at the leftmost position that
    has one. *)
Lemma search_img_leftmost (s g : string) :
  search_img s = Some g →
  ∃ pre rest,
    s = pre +:+ rest ∧ match_img rest = Some g ∧
    ∀ pre' rest', s = pre' +:+ rest' →
                  String.length pre' < String.length pre →
                  match_img rest' = None.
Proof.
  induction s as [|c s IH].
  - simpl. intros H. exists "", "". split; [done|]. split; [done|].
    intros pre' rest' _ Hl. simpl in Hl. lia.
  - cbn [search_img]. destruct (match_img (String c s)) as [g'|] eqn:E.
    + intros [= ->]. exists "", (String c s). split; [done|]. split; [done|].
      intros pre' rest' _ Hl. simpl in Hl. lia.
    + intros (pre & rest & -> & Hm & Hleft)%IH.
      exists (String c pre), rest. split; [done|]. split; [done|].
      intros [|c' pre'] rest' Heq Hl.
      * change ("" +:+ rest') with rest' in Heq. by rewrite <- Heq.
      * simpl in Heq, Hl. injection Heq as -> Heq.
        apply (Hleft pre' rest' Heq). lia.
Qed.

(** The run [match_attrs] settles on is the longest one after which the
    rest of the pattern matches. *)
Lemma match_attrs_longest (taken : bool) (s g : string) :
  match_attrs taken s = Some g →
  ∃ mid rest,
    s = mid +:+ rest ∧ all_chars (λ c, negb (is_gt c)) mid = true ∧
    (taken = false → mid ≠ "") ∧ match_src rest = Some g ∧
    ∀ mid' rest', s = mid' +:+ rest' →
                  all_chars (λ c, negb (is_gt c)) mid' = true →
                  String.length mid < String.length mid' →
                  match_src rest' = None.
Proof.
  revert taken. induction s as [|c s IH]; intros taken.
  - destruct taken; [|done]. done.
  - cbn [match_attrs].
    assert (match_attrs true s = None ∨ is_gt c = true →
            (if taken then match_src (String c s) else None) = Some g →
            ∃ mid rest, String c s = mid +:+ rest ∧
              all_chars (λ c, negb (is_gt c)) mid = true ∧
              (taken = false → mid ≠ "") ∧ match_src rest = Some g ∧
              ∀ mid' rest', String c s = mid' +:+ rest' →
                all_chars (λ c, negb (is_gt c)) mid' = true →
                String.length mid < String.length mid' →
                match_src rest' = None) as Hhere.
    { intros Hstop. destruct taken; [|done]. intros H.
      exists "", (String c s). split; [done|]. split; [done|].
      split; [done|]. split; [done|].
      intros [|c' mid'] rest' Heq Hall Hl; [simpl in Hl; lia|].
      simpl in Heq, Hall. injection Heq as <- Heq.
      apply andb_true_iff in Hall as [Hc Hall].
      destruct Hstop as [Hnone|Hgt]; [|by rewrite Hgt in Hc].
      destruct (match_src rest') as [g'|] eqn:E; [|done].
      destruct (match_attrs_complete true mid' rest' Hall) as [g'' Hg''];
        [done|by rewrite E|].
      rewrite <- Heq in Hg''. congruence. }
    destruct (is_gt c) eqn:Hc; [by apply Hhere; right|].
    destruct (match_attrs true s) as [g'|] eqn:E; [|by apply Hhere; left].
    intros [= ->].
    destruct (IH true E) as (mid & rest & -> & Hmid & _ & Hsrc & Hlong).
    exists (String c mid), rest. simpl. rewrite Hc, Hmid.
    split; [done|]. split; [done|]. split; [done|]. split; [done|].
    intros [|c' mid'] rest' Heq Hall Hl; [simpl in Hl; lia|].
    simpl in Heq, Hall, Hl. injection Heq as <- Heq.
    apply andb_true_iff in Hall as [_ Hall].
    apply (Hlong mid' rest' Heq Hall). lia.
Qed.

Lemma match_img_complete (mid g post : string) (q1 q2 : ascii) :
  mid ≠ "" → all_chars (λ c, negb (is_gt c)) mid = true →
  is_quote q1 = true → is_quote q2 = true →
  g ≠ "" → all_chars (λ c, negb (is_quote c)) g = true →
  is_Some (match_img ("<img" +:+ mid +:+ "src="
                      +:+ String q1 (g +:+ String q2 post))).
Proof.
  intros Hne Hmid H1 H2 Hg Hq.
  change (is_Some (match_attrs false
            (mid +:+ "src=" +:+ String q1 (g +:+ String q2 post)))).
  apply match_attrs_complete; [done|done|].
  rewrite match_src_complete by done. by eexists.
Qed.

(** X30.  Which match [extractImageFromContent] returns: the one that
    starts at the leftmost [<img] that has a match, and there the one with
    the longest run before [src=].  So in a tag with several attributes
    that end in [src=], the value of the last one is returned. *)
Theorem extractImageFromContent_leftmost_longest (html g : string) :
  extractImageFromContent (Some html) = Some g →
  ∃ pre mid post q1 q2,
    img_match html pre mid g post q1 q2 ∧
    ∀ pre' mid' g' post' q1' q2',
      img_match html pre' mid' g' post' q1' q2' →
      String.length pre < String.length pre' ∨
      (pre' = pre ∧ String.length mid' ≤ String.length mid).
Proof.
  unfold extractImageFromContent.
  destruct (Js.truthy_str (Some html)); [|done]. simpl.
  intros (pre & rest & -> & Hm & Hleft)%search_img_leftmost.
  apply match_img_sound in Hm as (r & -> & Ha).
  apply match_attrs_longest in Ha
    as (mid & rest & -> & Hmid & Hne & Hs & Hlong).
  apply match_src_sound in Hs as (q1 & q2 & post & -> & H1 & H2 & Hg & Hq).
  exists pre, mid, post, q1, q2. split; [unfold img_match; auto 10|].
  intros pre' mid' g' post' q1' q2' (Heq & Hne' & Hmid' & H1' & H2' & Hg' & Hq').
  destruct (Nat.lt_trichotomy (String.length pre') (String.length pre))
    as [Hlt|[Hl|Hgt]]; [| |by left].
  - pose proof (Hleft _ _ Heq Hlt) as Hnone.
    destruct (match_img_complete mid' g' post' q1' q2') as [x Hx]; try done.
    congruence.
  - right. symmetry in Hl. apply string_app_inv in Heq as [-> Heq]; [|done].
    split; [done|]. injection Heq as Heq.
    destruct (decide (String.length mid' ≤ String.length mid)) as [|Hn];
      [done|].
    change (mid +:+ "src=" +:+ String q1 (g +:+ String q2 post)
            = mid' +:+ "src=" +:+ String q1' (g' +:+ String q2' post'))
      in Heq.
    pose proof (Hlong _ _ Heq Hmid' ltac:(lia)) as Hnone.
    by rewrite match_src_complete in Hnone.
Qed.

(** The property above on a tag with two attributes that end in [src=]:
    the second value is returned. *)
Lemma extractImageFromContent_leftmost_longest_witness :
  extractImageFromContent (Some "<img src='a' data-src='b'>") = Some "b" ∧
  ∃ pre mid post q1 q2,
    img_match "<img src='a' data-src='b'>" pre mid "b" post q1 q2.
Proof.
  assert (extractImageFromContent (Some "<img src='a' data-src='b'>")
          = Some "b") as H by (vm_compute; reflexivity).
  split; [exact H|].
  destruct (extractImageFromContent_leftmost_longest _ _ H)
    as (pre & mid & post & q1 & q2 & Hm & _).
  by exists pre, mid, post, q1, q2.
Defined.
